(** * CONIKS-style persistent authenticated dictionary: Merkle prefix tree,
      signed tree roots and directory facade.

    The Go packages [conv], [crypto/hashed], [merkletree] and [directory] are
    embedded shallowly.  Tree nodes live in an explicit store, because the Go
    code links them by pointers (children and parent back-pointers) and updates
    them in place; byte slices are values, because no modelled operation writes
    into the backing array of an existing slice. *)

From Stdlib Require Import ZArith List Lia Bool.
From Stdlib Require Import Strings.String Strings.Byte.
From stdpp Require Import base option list strings gmap.

Local Open Scope Z_scope.

(* ===================================================================== *)
(** * Part I: the embedding of the source                                 *)
(* ===================================================================== *)

(** ** External primitives and platform *)

Inductive Endianness := LittleEndian | BigEndian.

(** The byte order of the host; [conv] reinterprets integers in memory. *)
Class Platform := { nativeEndian : Endianness }.

(** The hash, keyed-hash and signature primitives are external libraries
    (zeebo/blake3, crypto/ed25519); they enter as an interface. *)
Class Crypto := {
  (** [Sum] of a BLAKE3 hasher after the given bytes were written to it *)
  blake3_Sum : list byte → list byte;
  (** [Sum] of the hasher made by [NewKeyed context material] *)
  blake3_KeyedSum : string → list byte → list byte → list byte;
  (** [sign.PrivateKey.Sign] *)
  ed25519_Sign : list byte → list byte → list byte
}.

#[global] Instance byte_eq_decision : EqDecision byte := Byte.byte_eq_dec.

(** ** Go byte slices: [None] is the nil slice *)

Abbreviation slice := (option (list byte)).

Definition bytesOf (s : slice) : list byte := default [] s.

Definition len (s : slice) : Z := Z.of_nat (length (bytesOf s)).

Definition isNil (s : slice) : bool :=
  match s with None => true | Some _ => false end.

(** [bytes.Equal]: a nil argument is equivalent to an empty slice. *)
Definition bytes_Equal (a b : slice) : bool :=
  bool_decide (bytesOf a = bytesOf b).

(** unnamed/part_000, [copyOfBs]: [make([]byte, len(bs))] is never nil. *)
Definition copyOfBs (bs : slice) : slice := Some (bytesOf bs).

(** unnamed/part_000, [copyOfBools] with one extra element. *)
Definition copyOfBools (bs : list bool) (extra : list bool) : list bool :=
  bs ++ extra.

(** ** Fixed-width integers *)

Definition wrap32 (x : Z) : Z := x mod 2 ^ 32.
Definition wrap64 (x : Z) : Z := x mod 2 ^ 64.

(** [int64(num)] for a [uint64]: same bits, read as two's complement. *)
Definition int64 (num : Z) : Z :=
  let u := wrap64 num in if u <? 2 ^ 63 then u else u - 2 ^ 64.

Definition Z_of_byte (b : byte) : Z := Z.of_N (Byte.to_N b).

Definition byte_of_Z (z : Z) : byte :=
  default x00 (Byte.of_N (Z.to_N (z mod 256))).

(** The [n] bytes that hold [x] in memory, lowest address first. *)
Definition le_bytes (n : nat) (x : Z) : list byte :=
  map (fun i => byte_of_Z (Z.shiftr x (8 * Z.of_nat i))) (seq 0 n).

Definition memory_bytes (e : Endianness) (n : nat) (x : Z) : list byte :=
  match e with
  | LittleEndian => le_bytes n x
  | BigEndian => rev (le_bytes n x)
  end.

(** ** Package conv (conv/utils.go) *)

(** [GetNthBit]; [None] is the index-out-of-range panic. *)
Definition GetNthBit (bs : list byte) (offset : Z) : option bool :=
  let arrayOffset := offset / 8 in
  let bitOfByte := offset mod 8 in
  match bs !! Z.to_nat arrayOffset with
  | Some b =>
      let masked := Z.land (Z_of_byte b) (Z.shiftl 1 (7 - bitOfByte)) in
      Some (negb (masked =? 0))
  | None => None
  end.

Definition LongToBytes `{Platform} (num : Z) : list byte :=
  memory_bytes nativeEndian 8 num.

Definition ULongToBytes `{Platform} (num : Z) : list byte :=
  LongToBytes (int64 num).

Definition UInt32ToBytes `{Platform} (num : Z) : list byte :=
  memory_bytes nativeEndian 4 num.

Definition byte_bits (b : byte) : list bool :=
  map (fun k => Z.testbit (Z_of_byte b) (7 - Z.of_nat k)) (seq 0 8).

(** Modelled from the spec: [conv.ToBits] is not among the sources.  Section
    4.D reads an index as a bit sequence in which bit [d] selects the branch
    at depth [d]; the bit order is the one of [GetNthBit] (most significant
    bit of each byte first). *)
Definition ToBits (bs : list byte) : list bool := flat_map byte_bits bs.

Fixpoint bits_value (bits : list bool) : Z :=
  match bits with
  | [] => 0
  | b :: r => 2 * bits_value r + (if b then 1 else 0)
  end.

Fixpoint pack_bytes (n : nat) (bits : list bool) : list byte :=
  match n with
  | O => []
  | S n' =>
      byte_of_Z (bits_value (rev (take 8 (bits ++ replicate 8 false))))
        :: pack_bytes n' (drop 8 bits)
  end.

(** Modelled from the spec: [conv.ToBytes] is not among the sources.  Section
    4.D asks for the full 32-byte encoding of the bit prefix, padded with
    zeros on the right (longer bit strings take as many bytes as they need). *)
Definition ToBytes (bits : list bool) : list byte :=
  pack_bytes (Nat.max 32 (Nat.div (length bits + 7) 8)) bits.

(** ** Package hashed (crypto/hashed/hash.go) *)

Definition HashSizeByte : Z := 32.

(** [Digest]: every slice is written to one hasher, in order. *)
Definition Digest `{Crypto} (ms : list (list byte)) : list byte :=
  blake3_Sum (concat ms).

Record Commit := mkCommit { Salt : slice; Hash : slice }.

Definition CommitHashCtx : string := "clonics commit v1".

Definition CommitHash `{Crypto} (values : list (list byte)) (salt : list byte)
  : list byte :=
  blake3_KeyedSum CommitHashCtx salt (concat values).

(** [NewCommit]; the draw of [RandSlice] is the argument [salt]. *)
Definition NewCommit `{Crypto} (salt : list byte) (values : list (list byte))
  : Commit :=
  {| Salt := Some salt; Hash := Some (CommitHash values salt) |}.

Definition Commit_Verify `{Crypto} (c : Commit) (values : list (list byte))
  : bool :=
  bytes_Equal (Hash c) (Some (CommitHash values (bytesOf (Salt c)))).

(** ** The store of heap-allocated structs *)

Abbreviation loc := nat.

(** A pointer, or an interface value holding one; [None] is nil.  The dynamic
    type behind an interface value is the type of the struct stored at the
    address. *)
Abbreviation ptr := (option loc).

(** unnamed/part_000: the node structs. *)
Record node := mkNode { parent : ptr; level : Z }.

Record interiorNode := mkInteriorNode {
  i_node : node;
  leftChild : ptr;
  rightChild : ptr;
  leftHash : slice;
  rightHash : slice
}.

(** The leaf reads the hash of its commitment through the field that
    [hashed.Commit] calls [Hash]. *)
Record userLeafNode := mkUserLeafNode {
  u_node : node;
  key : string;
  value : slice;
  index : slice;
  commitment : Commit
}.

Record emptyNode := mkEmptyNode { e_node : node; e_index : slice }.

(** merkletree: [MerkleTree]. *)
Record MerkleTree := mkMerkleTree { nonce : slice; root : ptr; hash : slice }.

Inductive object :=
| ObjInterior (n : interiorNode)
| ObjUserLeaf (n : userLeafNode)
| ObjEmpty (n : emptyNode)
| ObjTree (m : MerkleTree).

Abbreviation heap := (list object).

Inductive nodeKind := userLeafNodeKind | interiorNodeKind | emptyNodeKind.

(** ** Stateful computations that may panic *)

Inductive res (A : Type) :=
| Val (a : A)
| Panic
| OutOfFuel.
Arguments Val {A} a.
Arguments Panic {A}.
Arguments OutOfFuel {A}.

(** The store is threaded through; after a panic it stays as the panic found
    it. *)
Definition M (A : Type) : Type := heap → heap * res A.

Definition ret {A} (a : A) : M A := fun h => (h, Val a).

Definition bind {A B} (c : M A) (k : A → M B) : M B :=
  fun h =>
    match c h with
    | (h1, Val a) => k a h1
    | (h1, Panic) => (h1, Panic)
    | (h1, OutOfFuel) => (h1, OutOfFuel)
    end.

Definition panic {A} : M A := fun h => (h, Panic).
Definition outOfFuel {A} : M A := fun h => (h, OutOfFuel).

Declare Scope go_scope.
Delimit Scope go_scope with go.
Notation "'do' x <- c1 ; c2" := (bind c1 (fun x => c2))
  (at level 20, x name, c1 at level 100, c2 at level 200) : go_scope.
Notation "c1 ;; c2" := (bind c1 (fun _ => c2))
  (at level 100, c2 at level 200, right associativity) : go_scope.
Local Open Scope go_scope.

(** [&T{...}]: allocation at the next free address. *)
Definition new (o : object) : M loc := fun h => (h ++ [o], Val (length h)).

(** Dereference; nil (or an address outside the store) panics. *)
Definition deref (p : ptr) : M object :=
  fun h =>
    match p with
    | None => (h, Panic)
    | Some a =>
        match h !! a with
        | Some o => (h, Val o)
        | None => (h, Panic)
        end
    end.

Definition assign (a : loc) (o : object) : M unit :=
  fun h => (<[a := o]> h, Val tt).

(** The type assertion on [p] followed by a field read: the struct behind
    [p], or a panic when [p] is nil or holds another type. *)
Definition asInterior (p : ptr) : M interiorNode :=
  do o <- deref p;
  match o with ObjInterior n => ret n | _ => panic end.

Definition asUserLeaf (p : ptr) : M userLeafNode :=
  do o <- deref p;
  match o with ObjUserLeaf n => ret n | _ => panic end.

Definition asEmpty (p : ptr) : M emptyNode :=
  do o <- deref p;
  match o with ObjEmpty n => ret n | _ => panic end.

Definition asTree (p : ptr) : M MerkleTree :=
  do o <- deref p;
  match o with ObjTree m => ret m | _ => panic end.

(** [p.kind()] on a [merkleNode] interface value. *)
Definition kind (p : ptr) : M nodeKind :=
  do o <- deref p;
  match o with
  | ObjUserLeaf _ => ret userLeafNodeKind
  | ObjInterior _ => ret interiorNodeKind
  | ObjEmpty _ => ret emptyNodeKind
  | ObjTree _ => panic
  end.

Definition isEmpty (n : ptr) : M bool :=
  do k <- kind n;
  ret (match k with emptyNodeKind => true | _ => false end).

(** Field assignments [p.f = v]. *)
Definition set_parent (n : node) (p : ptr) : node :=
  {| parent := p; level := level n |}.
Definition set_level (n : node) (l : Z) : node :=
  {| parent := parent n; level := l |}.

Definition with_leftChild (c : ptr) (n : interiorNode) : interiorNode :=
  {| i_node := i_node n; leftChild := c; rightChild := rightChild n;
     leftHash := leftHash n; rightHash := rightHash n |}.
Definition with_rightChild (c : ptr) (n : interiorNode) : interiorNode :=
  {| i_node := i_node n; leftChild := leftChild n; rightChild := c;
     leftHash := leftHash n; rightHash := rightHash n |}.
Definition with_leftHash (s : slice) (n : interiorNode) : interiorNode :=
  {| i_node := i_node n; leftChild := leftChild n; rightChild := rightChild n;
     leftHash := s; rightHash := rightHash n |}.
Definition with_rightHash (s : slice) (n : interiorNode) : interiorNode :=
  {| i_node := i_node n; leftChild := leftChild n; rightChild := rightChild n;
     leftHash := leftHash n; rightHash := s |}.
Definition with_u_node (f : node → node) (n : userLeafNode) : userLeafNode :=
  {| u_node := f (u_node n); key := key n; value := value n;
     index := index n; commitment := commitment n |}.
Definition with_e_node (f : node → node) (n : emptyNode) : emptyNode :=
  {| e_node := f (e_node n); e_index := e_index n |}.
Definition with_hash (s : slice) (m : MerkleTree) : MerkleTree :=
  {| nonce := nonce m; root := root m; hash := s |}.

Definition updInterior (a : loc) (f : interiorNode → interiorNode) : M unit :=
  do n <- asInterior (Some a); assign a (ObjInterior (f n)).
Definition updUserLeaf (a : loc) (f : userLeafNode → userLeafNode) : M unit :=
  do n <- asUserLeaf (Some a); assign a (ObjUserLeaf (f n)).
Definition updEmpty (a : loc) (f : emptyNode → emptyNode) : M unit :=
  do n <- asEmpty (Some a); assign a (ObjEmpty (f n)).
Definition updTree (a : loc) (f : MerkleTree → MerkleTree) : M unit :=
  do m <- asTree (Some a); assign a (ObjTree (f m)).

(** Indexing [bits[i]] and slicing [bits[:i]]; out of range panics. *)
Definition at_index {A} (l : list A) (i : Z) : M A :=
  if i <? 0 then panic
  else match l !! Z.to_nat i with Some x => ret x | None => panic end.

Definition slice_to {A} (l : list A) (i : Z) : M (list A) :=
  if (i <? 0) || (Z.of_nat (length l) <? i) then panic
  else ret (take (Z.to_nat i) l).

Definition liftOpt {A} (o : option A) : M A :=
  match o with Some a => ret a | None => panic end.

(** ** Package merkletree: nodes (unnamed/part_000) *)

Section Nodes.
Context {platform : Platform} {crypto : Crypto}.

Definition EmptyBranchIdentifier : byte := "E"%byte.
Definition LeafIdentifier : byte := "L"%byte.

Definition newInteriorNode (parent : ptr) (level : Z) (prefixBits : list bool)
  : M loc :=
  let prefixLeft := copyOfBools prefixBits [false] in
  let prefixRight := copyOfBools prefixBits [true] in
  do leftBranch <- new (ObjEmpty
       {| e_node := {| parent := None; level := wrap32 (level + 1) |};
          e_index := Some (ToBytes prefixLeft) |});
  do rightBranch <- new (ObjEmpty
       {| e_node := {| parent := None; level := wrap32 (level + 1) |};
          e_index := Some (ToBytes prefixRight) |});
  do newNode <- new (ObjInterior
       {| i_node := {| parent := parent; level := level |};
          leftChild := Some leftBranch;
          rightChild := Some rightBranch;
          leftHash := None;
          rightHash := None |});
  updEmpty leftBranch (with_e_node (fun n => set_parent n (Some newNode))) ;;
  updEmpty rightBranch (with_e_node (fun n => set_parent n (Some newNode))) ;;
  ret newNode.

Definition emptyLeafBs : list byte := [LeafIdentifier].
Definition emptyBranchBs : list byte := [EmptyBranchIdentifier].

(** [userLeafNode.hash]; [m] is the tree whose nonce is hashed in. *)
Definition userLeafNode_hash (n : userLeafNode) (m : ptr) : M (list byte) :=
  do t <- asTree m;
  ret (Digest [ emptyLeafBs;
                bytesOf (nonce t);
                bytesOf (index n);
                UInt32ToBytes (level (u_node n));
                bytesOf (Hash (commitment n)) ]).

Definition emptyNode_hash (n : emptyNode) (m : ptr) : M (list byte) :=
  do t <- asTree m;
  ret (Digest [ emptyBranchBs;
                bytesOf (nonce t);
                bytesOf (e_index n);
                UInt32ToBytes (level (e_node n)) ]).

(** [interiorNode.hash]; [hashOf] is the dynamic dispatch of [hash] on the
    children. *)
Definition interiorNode_hash (hashOf : ptr → ptr → M (list byte))
    (n : loc) (m : ptr) : M (list byte) :=
  do cur <- asInterior (Some n);
  (if isNil (leftHash cur) then
     do x <- hashOf (leftChild cur) m;
     updInterior n (with_leftHash (Some x))
   else ret tt) ;;
  do cur <- asInterior (Some n);
  (if isNil (rightHash cur) then
     do x <- hashOf (rightChild cur) m;
     updInterior n (with_rightHash (Some x))
   else ret tt) ;;
  do cur <- asInterior (Some n);
  ret (Digest [bytesOf (leftHash cur); bytesOf (rightHash cur)]).

(** [n.hash(m)] on a [merkleNode]: the method of the dynamic type. *)
Fixpoint merkleNode_hash (fuel : nat) (n : ptr) (m : ptr) : M (list byte) :=
  match fuel with
  | O => outOfFuel
  | S fuel' =>
      do a <- liftOpt n;
      do o <- deref (Some a);
      match o with
      | ObjInterior _ => interiorNode_hash (merkleNode_hash fuel') a m
      | ObjUserLeaf u => userLeafNode_hash u m
      | ObjEmpty e => emptyNode_hash e m
      | ObjTree _ => panic
      end
  end.

Definition userLeafNode_clone (n : userLeafNode) (parent : ptr) : M ptr :=
  do a <- new (ObjUserLeaf
       {| u_node := {| parent := parent; level := level (u_node n) |};
          key := key n;
          value := copyOfBs (value n);
          index := copyOfBs (index n);
          commitment := commitment n |});
  ret (Some a).

Definition emptyNode_clone (n : emptyNode) (parent : ptr) : M ptr :=
  do a <- new (ObjEmpty
       {| e_node := {| parent := parent; level := level (e_node n) |};
          e_index := copyOfBs (e_index n) |});
  ret (Some a).

(** [interiorNode.clone]; [cloneOf] is the dynamic dispatch of [clone].
    (For the root, [parent] is a nil [*interiorNode], stored in the
    interface-typed field; no code compares the parent of an interior node
    with nil, so it is [None] here as well.) *)
Definition interiorNode_clone (cloneOf : ptr → ptr → M ptr)
    (n : loc) (parent : ptr) : M ptr :=
  do cur <- asInterior (Some n);
  do newNode <- new (ObjInterior
       {| i_node := {| parent := parent; level := level (i_node cur) |};
          leftChild := None;
          rightChild := None;
          leftHash := copyOfBs (leftHash cur);
          rightHash := copyOfBs (rightHash cur) |});
  do cur <- asInterior (Some n);
  if bool_decide (leftChild cur = None) || bool_decide (rightChild cur = None)
  then panic
  else
    do l <- cloneOf (leftChild cur) (Some newNode);
    updInterior newNode (with_leftChild l) ;;
    do cur <- asInterior (Some n);
    do r <- cloneOf (rightChild cur) (Some newNode);
    updInterior newNode (with_rightChild r) ;;
    ret (Some newNode).

Fixpoint merkleNode_clone (fuel : nat) (n : ptr) (parent : ptr) : M ptr :=
  match fuel with
  | O => outOfFuel
  | S fuel' =>
      do a <- liftOpt n;
      do o <- deref (Some a);
      match o with
      | ObjInterior _ => interiorNode_clone (merkleNode_clone fuel') a parent
      | ObjUserLeaf u => userLeafNode_clone u parent
      | ObjEmpty e => emptyNode_clone e parent
      | ObjTree _ => panic
      end
  end.

End Nodes.

(** ** Package merkletree: the tree (merkletree/str.go, second file) *)

Record ProofNode := mkProofNode {
  Level : Z;
  Index : slice;
  Value : slice;
  IsEmpty : bool;
  Commitment : Commit
}.

(** [Leaf] is set by [Get] on every path that returns. *)
Record AuthenticationPath := mkAuthenticationPath {
  TreeNonce : slice;
  LookupIndex : slice;
  PrunedTree : list (list byte);
  Leaf : ProofNode
}.

(** [var hashArr [32]byte; copy(hashArr[:], s)]. *)
Definition copyToHashArr (s : slice) : list byte :=
  take 32 (bytesOf s ++ replicate 32 x00).

Section Tree.
Context {platform : Platform} {crypto : Crypto}.

(** [NewMerkleTree]; the draw of [RandSlice] is the argument. *)
Definition NewMerkleTree (rand : list byte) : M ptr :=
  do root <- newInteriorNode None 0 [];
  let nonce := Some rand in
  do m <- new (ObjTree {| nonce := nonce; root := Some root; hash := None |});
  ret (Some m).

(** The [searchLoop] of [Get]: the node it stops at and the sibling hashes
    appended on the way. *)
Fixpoint Get_searchLoop (fuel : nat) (lookupIndexBits : list bool)
    (depth : Z) (nodePointer : ptr) (prunedTree : list (list byte))
  : M (ptr * list (list byte)) :=
  match fuel with
  | O => outOfFuel
  | S fuel' =>
      do k <- kind nodePointer;
      match k with
      | userLeafNodeKind | emptyNodeKind => ret (nodePointer, prunedTree)
      | interiorNodeKind =>
          do direction <- at_index lookupIndexBits depth;
          do cur <- asInterior nodePointer;
          if direction : bool then
            let hashArr := copyToHashArr (leftHash cur) in
            Get_searchLoop fuel' lookupIndexBits (depth + 1)
              (rightChild cur) (prunedTree ++ [hashArr])
          else
            let hashArr := copyToHashArr (rightHash cur) in
            Get_searchLoop fuel' lookupIndexBits (depth + 1)
              (leftChild cur) (prunedTree ++ [hashArr])
      end
  end.

(** Every pass of the loop reads [lookupIndexBits[depth]] and adds one to
    [depth], so it makes at most one pass more than there are bits. *)
Definition MerkleTree_Get (m : ptr) (lookupIndex : slice)
  : M AuthenticationPath :=
  let lookupIndexBits := ToBits (bytesOf lookupIndex) in
  do t <- asTree m;
  do found <- Get_searchLoop (S (length lookupIndexBits)) lookupIndexBits 0
                (root t) [];
  let nodePointer := fst found in
  let authPath :=
    {| TreeNonce := nonce t; LookupIndex := lookupIndex;
       PrunedTree := snd found;
       Leaf := mkProofNode 0 None None false (mkCommit None None) |} in
  do k <- kind nodePointer;
  match k with
  | userLeafNodeKind =>
      do pNode <- asUserLeaf nodePointer;
      let leaf :=
        {| Level := level (u_node pNode); Index := index pNode;
           Value := value pNode; IsEmpty := false;
           Commitment := commitment pNode |} in
      if bytes_Equal (index pNode) lookupIndex then
        ret {| TreeNonce := TreeNonce authPath;
               LookupIndex := LookupIndex authPath;
               PrunedTree := PrunedTree authPath; Leaf := leaf |}
      else
        ret {| TreeNonce := TreeNonce authPath;
               LookupIndex := LookupIndex authPath;
               PrunedTree := PrunedTree authPath;
               Leaf := {| Level := Level leaf; Index := Index leaf;
                          Value := None; IsEmpty := false;
                          Commitment :=
                            {| Salt := None;
                               Hash := Hash (Commitment leaf) |} |} |}
  | emptyNodeKind =>
      do pNode <- asEmpty nodePointer;
      ret {| TreeNonce := TreeNonce authPath;
             LookupIndex := LookupIndex authPath;
             PrunedTree := PrunedTree authPath;
             Leaf := {| Level := level (e_node pNode);
                        Index := e_index pNode; Value := None;
                        IsEmpty := true;
                        Commitment := mkCommit None None |} |}
  | interiorNodeKind => panic
  end.

(** The [insertLoop] of [insertNode].  [toAdd] is the address of the leaf
    to insert; [depth] is a [uint32]. *)
Fixpoint insertLoop (fuel : nat) (indexBits : list bool) (toAdd : loc)
    (depth : Z) (nodePointer : ptr) : M unit :=
  match fuel with
  | O => outOfFuel
  | S fuel' =>
      do k <- kind nodePointer;
      match k with
      | userLeafNodeKind =>
          do currentNodeUL <- liftOpt nodePointer;
          do cur <- asUserLeaf (Some currentNodeUL);
          if bool_decide (parent (u_node cur) = None) then panic
          else
            do add <- asUserLeaf (Some toAdd);
            if bytes_Equal (index cur) (index add) then
              (* replace the value *)
              updUserLeaf toAdd
                (with_u_node (fun n => set_parent n (parent (u_node cur)))) ;;
              do cur <- asUserLeaf (Some currentNodeUL);
              updUserLeaf toAdd
                (with_u_node (fun n => set_level n (level (u_node cur)))) ;;
              do add <- asUserLeaf (Some toAdd);
              assign currentNodeUL (ObjUserLeaf add)
            else
              do prefixBits <- slice_to indexBits depth;
              do newInterior <-
                newInteriorNode (parent (u_node cur)) depth prefixBits;
              do cur <- asUserLeaf (Some currentNodeUL);
              do direction <- liftOpt (GetNthBit (bytesOf (index cur)) depth);
              (if direction : bool then
                 updInterior newInterior (with_rightChild (Some currentNodeUL))
               else
                 updInterior newInterior (with_leftChild (Some currentNodeUL))) ;;
              updUserLeaf currentNodeUL
                (with_u_node (fun n => set_level n (wrap32 (depth + 1)))) ;;
              updUserLeaf currentNodeUL
                (with_u_node (fun n => set_parent n (Some newInterior))) ;;
              do new <- asInterior (Some newInterior);
              do parentAddr <- liftOpt (parent (i_node new));
              do par <- asInterior (Some parentAddr);
              (if bool_decide (leftChild par = nodePointer) then
                 updInterior parentAddr (with_leftChild (Some newInterior))
               else
                 updInterior parentAddr (with_rightChild (Some newInterior))) ;;
              insertLoop fuel' indexBits toAdd depth (Some newInterior)
      | interiorNodeKind =>
          do currentNodeI <- liftOpt nodePointer;
          do direction <- at_index indexBits depth;
          if direction : bool then
            (* go right *)
            updInterior currentNodeI (with_rightHash None) ;;
            do cur <- asInterior (Some currentNodeI);
            do empty <- isEmpty (rightChild cur);
            if empty : bool then
              updInterior currentNodeI (with_rightChild (Some toAdd)) ;;
              updUserLeaf toAdd
                (with_u_node (fun n => set_level n (wrap32 (depth + 1)))) ;;
              updUserLeaf toAdd
                (with_u_node (fun n => set_parent n (Some currentNodeI)))
            else
              do cur <- asInterior (Some currentNodeI);
              insertLoop fuel' indexBits toAdd (wrap32 (depth + 1))
                (rightChild cur)
          else
            (* go left *)
            updInterior currentNodeI (with_leftHash None) ;;
            do cur <- asInterior (Some currentNodeI);
            do empty <- isEmpty (leftChild cur);
            if empty : bool then
              updInterior currentNodeI (with_leftChild (Some toAdd)) ;;
              updUserLeaf toAdd
                (with_u_node (fun n => set_level n (wrap32 (depth + 1)))) ;;
              updUserLeaf toAdd
                (with_u_node (fun n => set_parent n (Some currentNodeI)))
            else
              do cur <- asInterior (Some currentNodeI);
              insertLoop fuel' indexBits toAdd (wrap32 (depth + 1))
                (leftChild cur)
      | emptyNodeKind => panic
      end
  end.

(** A pass at a leaf either returns or hands an interior node to the next
    pass; a pass at an interior node either stops or reads
    [indexBits[depth]] and adds one to [depth].  Two passes for every bit
    and two more are enough. *)
Definition insertFuel (indexBits : list bool) : nat :=
  2 * length indexBits + 2.

Definition MerkleTree_insertNode (m : ptr) (index : slice) (toAdd : loc)
  : M unit :=
  let indexBits := ToBits (bytesOf index) in
  do t <- asTree m;
  insertLoop (insertFuel indexBits) indexBits toAdd 0 (root t).

(** [MerkleTree.Set]; [salt] is the draw of [RandSlice] in [NewCommit]. *)
Definition MerkleTree_Set (salt : list byte) (m : ptr) (index : slice)
    (key : string) (value : slice) : M unit :=
  let commitment :=
    NewCommit salt [list_byte_of_string key; bytesOf value] in
  do toAdd <- new (ObjUserLeaf
       {| u_node := {| parent := None; level := 0 |};
          key := key;
          value := copyOfBs value;
          index := index;
          commitment := commitment |});
  MerkleTree_insertNode m index toAdd.

Definition MerkleTree_recomputeHash (fuel : nat) (m : ptr) : M unit :=
  do t <- asTree m;
  do r <- liftOpt (root t);
  do x <- interiorNode_hash (merkleNode_hash fuel) r m;
  do a <- liftOpt m;
  updTree a (with_hash (Some x)).

Definition MerkleTree_Clone (fuel : nat) (m : ptr) : M ptr :=
  do t <- asTree m;
  let nonce' := copyOfBs (nonce t) in
  do r <- liftOpt (root t);
  do root' <- interiorNode_clone (merkleNode_clone fuel) r None;
  do t <- asTree m;
  let hash' := copyOfBs (hash t) in
  do c <- new (ObjTree {| nonce := nonce'; root := root'; hash := hash' |});
  ret (Some c).

End Tree.

(** ** Package merkletree: signed tree roots (merkletree/str.go, first file) *)

(** [AssocData]: associated data hashed into the signed tree root. *)
Class AssocData (A : Type) := { Bytes : A → list byte }.

Record SignedTreeRoot (A : Type) := mkSignedTreeRoot {
  tree : ptr;
  TreeHash : slice;
  Epoch : Z;
  PreviousEpoch : Z;
  PreviousSTRHash : slice;
  Signature : slice;
  Ad : A
}.
Arguments mkSignedTreeRoot {A}.
Arguments tree {A}.
Arguments TreeHash {A}.
Arguments Epoch {A}.
Arguments PreviousEpoch {A}.
Arguments PreviousSTRHash {A}.
Arguments Signature {A}.
Arguments Ad {A}.

Section STR.
Context {platform : Platform} {crypto : Crypto}.
Context {A : Type} {assocData : AssocData A}.

Definition SignedTreeRoot_SerializeInternal (str : SignedTreeRoot A)
  : list byte :=
  let strBytes := [] in
  let strBytes := strBytes ++ ULongToBytes (Epoch str) in
  let strBytes :=
    if 0 <? Epoch str then strBytes ++ ULongToBytes (PreviousEpoch str)
    else strBytes in
  let strBytes := strBytes ++ bytesOf (TreeHash str) in
  let strBytes := strBytes ++ bytesOf (PreviousSTRHash str) in
  strBytes.

Definition SignedTreeRoot_Bytes (str : SignedTreeRoot A) : list byte :=
  SignedTreeRoot_SerializeInternal str ++ Bytes (Ad str).

(** [NewSTR]; [epoch] is a [uint64], [key] the private signing key. *)
Definition NewSTR (key : list byte) (ad : A) (m : ptr) (epoch : Z)
    (prevHash : slice) : M (SignedTreeRoot A) :=
  let prevEpoch := wrap64 (epoch - 1) in
  let prevEpoch := if epoch =? 0 then 0 else prevEpoch in
  do t <- asTree m;
  let str :=
    {| tree := m; TreeHash := hash t; Epoch := epoch;
       PreviousEpoch := prevEpoch; PreviousSTRHash := prevHash;
       Signature := None; Ad := ad |} in
  let bytesPreSig := SignedTreeRoot_Bytes str in
  ret {| tree := tree str; TreeHash := TreeHash str; Epoch := Epoch str;
         PreviousEpoch := PreviousEpoch str;
         PreviousSTRHash := PreviousSTRHash str;
         Signature := Some (ed25519_Sign key bytesPreSig);
         Ad := Ad str |}.

Definition SignedTreeRoot_VerifyHashChain (str savedSTR : SignedTreeRoot A)
  : bool :=
  let hash := Digest [bytesOf (Signature savedSTR)] in
  (PreviousEpoch str =? Epoch savedSTR)
  && (Epoch str =? wrap64 (Epoch savedSTR + 1))
  && bytes_Equal (Some hash) (PreviousSTRHash str).

End STR.

(** ** Package directory (directory/tree.go, directory/str.go,
       directory/temp_binding.go) *)

(** The [Config] with an update interval, the one [tree.go] builds. *)
Record Config := mkConfig {
  Version : slice;
  HashID : slice;
  VrfPublicKey : slice;
  UpdateInterval : Z
}.

Definition Config_Bytes `{Platform} (p : Config) : list byte :=
  let bs := [] in
  let bs := bs ++ bytesOf (Version p) in
  let bs := bs ++ bytesOf (HashID p) in
  let bs := bs ++ bytesOf (VrfPublicKey p) in
  let bs := bs ++ ULongToBytes (wrap64 (UpdateInterval p)) in
  bs.

#[global] Instance Config_AssocData `{Platform} : AssocData Config :=
  {| Bytes := Config_Bytes |}.

Module TemporaryBinding.
Record t := mk { Index : slice; Value : slice; Signature : slice }.

(** [TemporaryBinding.Bytes] *)
Definition Bytes (tb : t) (strSig : slice) : list byte :=
  bytesOf strSig ++ bytesOf (Index tb) ++ bytesOf (Value tb).
End TemporaryBinding.

Module RegistrationRequest.
Record t := mk { Username : string; Key : slice }.
End RegistrationRequest.

Module KeyLookupRequest.
Record t := mk { Username : string }.
End KeyLookupRequest.

Module MonitoringRequest.
Record t := mk { Username : string; StartEpoch : Z; EndEpoch : Z }.
End MonitoringRequest.

(** directory/str.go: the directory's [SignedTreeRoot]. *)
Record DirSTR := mkDirSTR {
  STR : SignedTreeRoot Config;
  Policies : Config
}.

Definition NewDirSTR (str : SignedTreeRoot Config) : DirSTR :=
  {| STR := str; Policies := Ad str |}.

Definition DirSTR_Bytes `{Platform} (str : DirSTR) : list byte :=
  SignedTreeRoot_SerializeInternal (STR str) ++ Config_Bytes (Policies str).

Definition DirSTR_VerifyHashChain `{Crypto} (str savedSTR : DirSTR) : bool :=
  SignedTreeRoot_VerifyHashChain (STR str) (STR savedSTR).

(** The error codes of package [protocol] that [tree.go] returns. *)
Inductive ErrorCode :=
| ReqSuccess
| ReqNameExisted
| ReqNameNotFound
| ErrMalformedMessage
| ErrDirectory.

(** The responses [tree.go] builds; their constructors are in package
    [protocol] and only carry their arguments. *)
Inductive Response :=
| NewErrorResponse (e : ErrorCode)
| NewRegistrationProof (ap : AuthenticationPath) (str : DirSTR)
    (tb : option TemporaryBinding.t) (e : ErrorCode)
| NewKeyLookupProof (ap : AuthenticationPath) (str : DirSTR)
    (tb : option TemporaryBinding.t) (e : ErrorCode)
| NewMonitoringProof (aps : list AuthenticationPath) (strs : list DirSTR).

Inductive error := mkError (msg : string).

(** The methods of [merkletree.PAD] that [tree.go] calls.  The PAD itself is
    not among the sources: it enters as an interface.  A lookup returns its
    path when the error is nil; [PAD_Set] returns the PAD it leaves behind. *)
Class PADMethods (PAD : Type) := {
  PAD_Lookup : PAD → string → AuthenticationPath + error;
  PAD_LookupInEpoch : PAD → string → Z → AuthenticationPath + error;
  PAD_Set : PAD → string → slice → PAD * option error;
  PAD_LatestSTR : PAD → SignedTreeRoot Config;
  PAD_GetSTR : PAD → Z → option (SignedTreeRoot Config);
  PAD_Index : PAD → string → slice;
  PAD_Sign : PAD → list slice → slice
}.

Section Directory.
Context {PAD : Type} {padMethods : PADMethods PAD}.

Record Tree := mkTree {
  pad : PAD;
  tbs : gmap string TemporaryBinding.t;
  policies : Config
}.

Definition Tree_LatestSTR (d : Tree) : DirSTR :=
  NewDirSTR (PAD_LatestSTR (pad d)).

Definition Tree_NewTB (d : Tree) (name : string) (key : slice)
  : TemporaryBinding.t :=
  let index := PAD_Index (pad d) name in
  {| TemporaryBinding.Index := index;
     TemporaryBinding.Value := key;
     TemporaryBinding.Signature :=
       PAD_Sign (pad d) [Signature (STR (Tree_LatestSTR d)); index; key] |}.

(** [Tree.Register]: the directory it leaves behind and the response. *)
Definition Tree_Register (d : Tree) (req : RegistrationRequest.t)
  : Tree * Response :=
  let Username := RegistrationRequest.Username req in
  let Key := RegistrationRequest.Key req in
  if (Z.of_nat (String.length Username) <=? 0) || (len Key <=? 0) then
    (d, NewErrorResponse ErrMalformedMessage)
  else
    match PAD_Lookup (pad d) Username with
    | inr _ => (d, NewErrorResponse ErrDirectory)
    | inl ap =>
        if bytes_Equal (LookupIndex ap) (Index (Leaf ap)) then
          (d, NewRegistrationProof ap (Tree_LatestSTR d) None ReqNameExisted)
        else
          match tbs d !! Username with
          | Some tb =>
              (d, NewRegistrationProof ap (Tree_LatestSTR d) (Some tb)
                    ReqNameExisted)
          | None =>
              let tb := Tree_NewTB d Username Key in
              let '(pad', err) := PAD_Set (pad d) Username Key in
              let d := {| pad := pad'; tbs := tbs d;
                          policies := policies d |} in
              match err with
              | Some _ => (d, NewErrorResponse ErrDirectory)
              | None =>
                  let d := {| pad := pad d;
                              tbs := <[Username := tb]> (tbs d);
                              policies := policies d |} in
                  (d, NewRegistrationProof ap (Tree_LatestSTR d) (Some tb)
                        ReqSuccess)
              end
          end
    end.

Definition Tree_KeyLookup (d : Tree) (req : KeyLookupRequest.t) : Response :=
  let Username := KeyLookupRequest.Username req in
  if Z.of_nat (String.length Username) <=? 0 then
    NewErrorResponse ErrMalformedMessage
  else
    match PAD_Lookup (pad d) Username with
    | inr _ => NewErrorResponse ErrDirectory
    | inl ap =>
        if bytes_Equal (LookupIndex ap) (Index (Leaf ap)) then
          NewKeyLookupProof ap (Tree_LatestSTR d) None ReqSuccess
        else
          match tbs d !! Username with
          | Some tb => NewKeyLookupProof ap (Tree_LatestSTR d) (Some tb)
                         ReqSuccess
          | None => NewKeyLookupProof ap (Tree_LatestSTR d) None
                      ReqNameNotFound
          end
    end.

(** The loop of [Monitor]: [for ep := startEp; ep <= endEp; ep++] over
    [uint64].  [NewDirSTR] dereferences the STR, so a nil STR panics. *)
Fixpoint Monitor_loop (fuel : nat) (d : Tree) (Username : string)
    (ep endEp : Z) (aps : list AuthenticationPath) (strs : list DirSTR)
  : res Response :=
  match fuel with
  | O => OutOfFuel
  | S fuel' =>
      if ep <=? endEp then
        match PAD_LookupInEpoch (pad d) Username ep with
        | inr _ => Val (NewErrorResponse ErrDirectory)
        | inl ap =>
            let aps := aps ++ [ap] in
            match PAD_GetSTR (pad d) ep with
            | None => Panic
            | Some s =>
                let strs := strs ++ [NewDirSTR s] in
                Monitor_loop fuel' d Username (wrap64 (ep + 1)) endEp
                  aps strs
            end
        end
      else Val (NewMonitoringProof aps strs)
  end.

(** [Tree.Monitor].  The loop tests its condition once more than it runs
    its body; it runs forever only when [endEp] is the largest [uint64]. *)
Definition Tree_Monitor (d : Tree) (req : MonitoringRequest.t) : res Response :=
  let Username := MonitoringRequest.Username req in
  let StartEpoch := MonitoringRequest.StartEpoch req in
  let EndEpoch := MonitoringRequest.EndEpoch req in
  if (Z.of_nat (String.length Username) <=? 0)
     || (Epoch (STR (Tree_LatestSTR d)) <? StartEpoch)
     || (EndEpoch <? StartEpoch)
  then Val (NewErrorResponse ErrMalformedMessage)
  else
    let startEp := StartEpoch in
    let endEp := EndEpoch in
    let endEp :=
      if Epoch (STR (Tree_LatestSTR d)) <? endEp
      then Epoch (STR (Tree_LatestSTR d)) else endEp in
    Monitor_loop (Z.to_nat (endEp - startEp + 2)) d Username startEp endEp
      [] [].

End Directory.
Arguments Tree PAD : clear implicits.

(** ** Instances of the interfaces, for running the model *)

(** A stand-in for the hash: a 32-byte polynomial checksum.  It only serves
    to evaluate the model on concrete stores; no general theorem depends on
    it. *)
Definition checksum (bs : list byte) : list byte :=
  le_bytes 32
    (fold_left (fun acc b => (acc * 257 + Z_of_byte b + 1) mod 2 ^ 256) bs 0).

Definition demoPlatform : Platform := {| nativeEndian := LittleEndian |}.

Definition demoCrypto : Crypto :=
  {| blake3_Sum := checksum;
     blake3_KeyedSum := fun ctx material msg =>
       checksum (list_byte_of_string ctx ++ material ++ msg);
     ed25519_Sign := fun sk msg => checksum (sk ++ msg) ++ checksum (msg ++ sk) |}.

(** A one-epoch stand-in for the PAD: the names it binds with their lookup
    paths, one path for every other name, and its only signed tree root. *)
Record demoPAD := mkDemoPAD {
  demo_bound : list (string * AuthenticationPath);
  demo_absent : AuthenticationPath;
  demo_str : SignedTreeRoot Config;
  demo_pending : list (string * slice)
}.

Definition demoPAD_Lookup (p : demoPAD) (name : string)
  : AuthenticationPath + error :=
  match list_find (fun e => bool_decide (fst e = name)) (demo_bound p) with
  | Some (_, e) => inl (snd e)
  | None => inl (demo_absent p)
  end.

#[global] Instance demoPAD_methods : PADMethods demoPAD :=
  {| PAD_Lookup := demoPAD_Lookup;
     PAD_LookupInEpoch := fun p name ep =>
       if ep =? Epoch (demo_str p) then demoPAD_Lookup p name
       else inr (mkError "STR not found");
     PAD_Set := fun p name v =>
       (mkDemoPAD (demo_bound p) (demo_absent p) (demo_str p)
          (demo_pending p ++ [(name, v)]), None);
     PAD_LatestSTR := demo_str;
     PAD_GetSTR := fun p ep =>
       if ep =? Epoch (demo_str p) then Some (demo_str p) else None;
     PAD_Index := fun p name => Some (checksum (list_byte_of_string name));
     PAD_Sign := fun p ms => Some (checksum (concat (map bytesOf ms))) |}.

(* ===================================================================== *)
(** * Part II: definitions used to state and prove the properties        *)
(* ===================================================================== *)

(** ** Reading integers back from memory *)

Fixpoint le_value (bs : list byte) : Z :=
  match bs with
  | [] => 0
  | b :: r => Z_of_byte b + 256 * le_value r
  end.

Definition memory_value (e : Endianness) (bs : list byte) : Z :=
  match e with
  | LittleEndian => le_value bs
  | BigEndian => le_value (rev bs)
  end.

(** ** Regions of the store *)

(** The pointers a struct holds. *)
Definition obj_ptrs (o : object) : list ptr :=
  match o with
  | ObjInterior n => [parent (i_node n); leftChild n; rightChild n]
  | ObjUserLeaf n => [parent (u_node n)]
  | ObjEmpty n => [parent (e_node n)]
  | ObjTree m => [root m]
  end.

Definition ptr_in (P : loc → Prop) (p : ptr) : Prop :=
  match p with None => True | Some a => P a end.

Definition obj_in (P : loc → Prop) (o : object) : Prop :=
  Forall (ptr_in P) (obj_ptrs o).

(** A region [P] is closed in [h] when the structs it holds point into it. *)
Definition closed (P : loc → Prop) (h : heap) : Prop :=
  ∀ a o, P a → h !! a = Some o → obj_in P o.

(** No struct of the store holds a pointer to an address outside the store:
    the stores a Go program can build. *)
Definition no_dangling (h : heap) : Prop :=
  closed (fun a => (a < length h)%nat) h.

(** [region_inv P G h0 h]: starting from [h0], only the region [P] was
    written and extended; [P] holds every address not yet allocated and the
    structs it holds satisfy [G].  With [G := obj_in P] the region is closed. *)
Record region_inv (P : loc → Prop) (G : object → Prop) (h0 h : heap)
  : Prop := mkRegionInv {
  ri_closed : ∀ a o, P a → h !! a = Some o → G o;
  ri_outside : ∀ a, ¬ P a → h !! a = h0 !! a;
  ri_fresh : ∀ a, (length h ≤ a)%nat → P a
}.

(** A computation keeps the invariant [I] of the store, also when it panics,
    and returns values that satisfy [Q]. *)
Definition keeps {A} (I : heap → Prop) (c : M A) (Q : A → Prop) : Prop :=
  ∀ h h' r, I h → c h = (h', r) →
    I h' ∧ match r with Val a => Q a | _ => True end.

(** The structs reachable from a pointer through tree roots and children. *)
Inductive reach (h : heap) : ptr → loc → Prop :=
| reach_here a o : h !! a = Some o → reach h (Some a) a
| reach_root a m b : h !! a = Some (ObjTree m) → reach h (root m) b →
    reach h (Some a) b
| reach_left a n b : h !! a = Some (ObjInterior n) → reach h (leftChild n) b →
    reach h (Some a) b
| reach_right a n b : h !! a = Some (ObjInterior n) →
    reach h (rightChild n) b → reach h (Some a) b.

(** ** Sequences of [Set] *)

Record SetCall := mkSetCall {
  call_salt : list byte;
  call_index : slice;
  call_key : string;
  call_value : slice
}.

(** The calls are made in order on the tree [m]; a panic ends the run. *)
Fixpoint runSets `{Crypto} (m : ptr) (calls : list SetCall) : M unit :=
  match calls with
  | [] => ret tt
  | c :: rest =>
      MerkleTree_Set (call_salt c) m (call_index c) (call_key c)
        (call_value c) ;;
      runSets m rest
  end.

(** ** Trees in the store *)

(** The shape of what a node pointer leads to, with the address and the
    content of every node. *)
Inductive shape :=
| SInterior (a : loc) (n : interiorNode) (l r : shape)
| SLeaf (a : loc) (n : userLeafNode)
| SEmpty (a : loc) (n : emptyNode).

Definition saddr (t : shape) : loc :=
  match t with SInterior a _ _ _ | SLeaf a _ | SEmpty a _ => a end.

Fixpoint saddrs (t : shape) : list loc :=
  match t with
  | SInterior a _ l r => a :: saddrs l ++ saddrs r
  | SLeaf a _ | SEmpty a _ => [a]
  end.

Definition sparent (t : shape) : ptr :=
  match t with
  | SInterior _ n _ _ => parent (i_node n)
  | SLeaf _ n => parent (u_node n)
  | SEmpty _ n => parent (e_node n)
  end.

Fixpoint height (t : shape) : nat :=
  match t with
  | SInterior _ _ l r => S (Nat.max (height l) (height r))
  | SLeaf _ _ | SEmpty _ _ => 1
  end.

Definition is_interior (t : shape) : Prop :=
  match t with SInterior _ _ _ _ => True | _ => False end.

(** [repr h t]: the store holds the nodes of [t] at their addresses, linked
    as [t] says, children pointing back to their parent. *)
Fixpoint repr (h : heap) (t : shape) : Prop :=
  match t with
  | SInterior a n l r =>
      h !! a = Some (ObjInterior n)
      ∧ leftChild n = Some (saddr l) ∧ rightChild n = Some (saddr r)
      ∧ sparent l = Some a ∧ sparent r = Some a
      ∧ repr h l ∧ repr h r
  | SLeaf a n => h !! a = Some (ObjUserLeaf n)
  | SEmpty a n => h !! a = Some (ObjEmpty n)
  end.

(** [tree_at h m t]: [m] is a [MerkleTree] whose root leads to the tree [t],
    no node of which is shared. *)
Definition tree_at (h : heap) (m : loc) (t : shape) : Prop :=
  ∃ tr, h !! m = Some (ObjTree tr) ∧ root tr = Some (saddr t)
        ∧ is_interior t ∧ repr h t ∧ NoDup (saddrs t) ∧ (m ∉ saddrs t).

(** The way [Get] takes through a tree for the bits of an index: the node
    it stops at and, for every interior node it walks through, the cached
    hash it reads there and the sibling that hash stands for.  [None] when
    the bits run out. *)
Fixpoint swalk (bits : list bool) (depth : Z) (t : shape)
  : option (shape * list (slice * shape)) :=
  match t with
  | SInterior _ n l r =>
      if depth <? 0 then None
      else
        match bits !! Z.to_nat depth with
        | None => None
        | Some true =>
            match swalk bits (depth + 1) r with
            | Some (term, es) => Some (term, (leftHash n, l) :: es)
            | None => None
            end
        | Some false =>
            match swalk bits (depth + 1) l with
            | Some (term, es) => Some (term, (rightHash n, r) :: es)
            | None => None
            end
        end
  | _ => Some (t, [])
  end.

Section ShapeHash.
Context {platform : Platform} {crypto : Crypto}.

Definition cached_or (cache : slice) (x : list byte) : list byte :=
  match cache with Some c => c | None => x end.

(** The hash [hash] returns on a tree: cached child hashes are used as
    they are. *)
Fixpoint shash (nonce : slice) (t : shape) : list byte :=
  match t with
  | SInterior _ n l r =>
      Digest [cached_or (leftHash n) (shash nonce l);
              cached_or (rightHash n) (shash nonce r)]
  | SLeaf _ n =>
      Digest [emptyLeafBs; bytesOf nonce; bytesOf (index n);
              UInt32ToBytes (level (u_node n));
              bytesOf (Hash (commitment n))]
  | SEmpty _ n =>
      Digest [emptyBranchBs; bytesOf nonce; bytesOf (e_index n);
              UInt32ToBytes (level (e_node n))]
  end.

(** The tree [hash] leaves behind: the cached hashes it had to compute are
    filled in. *)
Fixpoint sfill (nonce : slice) (t : shape) : shape :=
  match t with
  | SInterior a n l r =>
      SInterior a
        (with_rightHash
           (Some (cached_or (rightHash n) (shash nonce r)))
           (with_leftHash
              (Some (cached_or (leftHash n) (shash nonce l))) n))
        (if isNil (leftHash n) then sfill nonce l else l)
        (if isNil (rightHash n) then sfill nonce r else r)
  | _ => t
  end.

(** Every cached hash is present and is the hash of the child. *)
Fixpoint clean (nonce : slice) (t : shape) : Prop :=
  match t with
  | SInterior _ n l r =>
      leftHash n = Some (shash nonce l)
      ∧ rightHash n = Some (shash nonce r)
      ∧ clean nonce l ∧ clean nonce r
  | _ => True
  end.

(** A cached hash is either absent or the hash of the child, and below a
    cached hash that is present nothing is absent. *)
Fixpoint coherent (nonce : slice) (t : shape) : Prop :=
  match t with
  | SInterior _ n l r =>
      (∀ c, leftHash n = Some c → c = shash nonce l ∧ clean nonce l)
      ∧ (∀ c, rightHash n = Some c → c = shash nonce r ∧ clean nonce r)
      ∧ coherent nonce l ∧ coherent nonce r
  | _ => True
  end.

(** The hash [merkleNode_hash] finds for a node now, in the store [h]. *)
Definition currentHash (fuel : nat) (n m : ptr) (h : heap)
  : option (list byte) :=
  match snd (merkleNode_hash fuel n m h) with
  | Val x => Some x
  | _ => None
  end.

(** On the way [Get] takes for [bits], the current hash of the sibling of
    every node it walks through, from the root down. *)
Fixpoint siblingHashes (fuel hfuel : nat) (bits : list bool) (depth : Z)
    (nodePointer m : ptr) (h : heap) : list (option (list byte)) :=
  match fuel with
  | O => []
  | S fuel' =>
      match nodePointer with
      | Some a =>
          match h !! a, bits !! Z.to_nat depth with
          | Some (ObjInterior n), Some true =>
              currentHash hfuel (leftChild n) m h
                :: siblingHashes fuel' hfuel bits (depth + 1)
                     (rightChild n) m h
          | Some (ObjInterior n), Some false =>
              currentHash hfuel (rightChild n) m h
                :: siblingHashes fuel' hfuel bits (depth + 1)
                     (leftChild n) m h
          | _, _ => []
          end
      | None => []
      end
  end.

End ShapeHash.

(** ** The content of a tree, without addresses *)

Inductive ptree :=
| PInterior (lvl : Z) (lh rh : slice) (l r : ptree)
| PLeaf (lvl : Z) (k : string) (v : slice) (i : slice) (c : Commit)
| PEmpty (lvl : Z) (i : slice).

Fixpoint erase (t : shape) : ptree :=
  match t with
  | SInterior _ n l r =>
      PInterior (level (i_node n)) (leftHash n) (rightHash n)
        (erase l) (erase r)
  | SLeaf _ n =>
      PLeaf (level (u_node n)) (key n) (value n) (index n) (commitment n)
  | SEmpty _ n => PEmpty (level (e_node n)) (e_index n)
  end.

Definition is_PEmpty (p : ptree) : bool :=
  match p with PEmpty _ _ => true | _ => false end.

Definition res_map {A B} (f : A → B) (r : res A) : res B :=
  match r with Val a => Val (f a) | Panic => Panic | OutOfFuel => OutOfFuel end.

(** The nodes [newInteriorNode] allocates at [base], [base + 1] and
    [base + 2]. *)
Definition newEmpty (par : loc) (level : Z) (bits : list bool) : emptyNode :=
  {| e_node := {| parent := Some par; level := wrap32 (level + 1) |};
     e_index := Some (ToBytes bits) |}.

Definition newInterior (parent : ptr) (level : Z) (base : loc)
  : interiorNode :=
  {| i_node := {| parent := parent; level := level |};
     leftChild := Some base; rightChild := Some (S base);
     leftHash := None; rightHash := None |}.

(** What [insertNode] does to the content of the tree: the passes of its
    loop, one unit of fuel each, with the subtree that replaces the one the
    pass started at. *)
Fixpoint pinsert (fuel : nat) (bits : list bool) (add : userLeafNode)
    (depth : Z) (p : ptree) : res ptree :=
  match fuel with
  | O => OutOfFuel
  | S fuel' =>
      match p with
      | PLeaf lvl k v i c =>
          if bytes_Equal i (index add) then
            Val (PLeaf lvl (key add) (value add) (index add) (commitment add))
          else if (depth <? 0) || (Z.of_nat (length bits) <? depth) then Panic
          else
            match GetNthBit (bytesOf i) depth with
            | None => Panic
            | Some direction =>
                let prefixBits := take (Z.to_nat depth) bits in
                let moved := PLeaf (wrap32 (depth + 1)) k v i c in
                let left := PEmpty (wrap32 (depth + 1))
                              (Some (ToBytes (prefixBits ++ [false]))) in
                let right := PEmpty (wrap32 (depth + 1))
                               (Some (ToBytes (prefixBits ++ [true]))) in
                pinsert fuel' bits add depth
                  (if direction : bool
                   then PInterior depth None None left moved
                   else PInterior depth None None moved right)
            end
      | PInterior lvl lh rh l r =>
          if depth <? 0 then Panic
          else
            match bits !! Z.to_nat depth with
            | None => Panic
            | Some true =>
                if is_PEmpty r then
                  Val (PInterior lvl lh None l
                         (PLeaf (wrap32 (depth + 1)) (key add) (value add)
                            (index add) (commitment add)))
                else
                  res_map (PInterior lvl lh None l)
                    (pinsert fuel' bits add (wrap32 (depth + 1)) r)
            | Some false =>
                if is_PEmpty l then
                  Val (PInterior lvl None rh
                         (PLeaf (wrap32 (depth + 1)) (key add) (value add)
                            (index add) (commitment add))
                         r)
                else
                  res_map (fun l' => PInterior lvl None rh l' r)
                    (pinsert fuel' bits add (wrap32 (depth + 1)) l)
            end
      | PEmpty _ _ => Panic
      end
  end.

Section PureHash.
Context {platform : Platform} {crypto : Crypto}.

Fixpoint phash (nonce : slice) (p : ptree) : list byte :=
  match p with
  | PInterior _ lh rh l r =>
      Digest [cached_or lh (phash nonce l); cached_or rh (phash nonce r)]
  | PLeaf lvl _ _ i c =>
      Digest [emptyLeafBs; bytesOf nonce; bytesOf i; UInt32ToBytes lvl;
              bytesOf (Hash c)]
  | PEmpty lvl i =>
      Digest [emptyBranchBs; bytesOf nonce; bytesOf i; UInt32ToBytes lvl]
  end.

(** [clean] and [coherent], read off the content. *)
Fixpoint pclean (nonce : slice) (p : ptree) : Prop :=
  match p with
  | PInterior _ lh rh l r =>
      lh = Some (phash nonce l) ∧ rh = Some (phash nonce r)
      ∧ pclean nonce l ∧ pclean nonce r
  | _ => True
  end.

Fixpoint pcoherent (nonce : slice) (p : ptree) : Prop :=
  match p with
  | PInterior _ lh rh l r =>
      (∀ c, lh = Some c → c = phash nonce l ∧ pclean nonce l)
      ∧ (∀ c, rh = Some c → c = phash nonce r ∧ pclean nonce r)
      ∧ pcoherent nonce l ∧ pcoherent nonce r
  | _ => True
  end.

End PureHash.

(** The struct stored for the root node of a shape. *)
Definition sobj (t : shape) : object :=
  match t with
  | SInterior _ n _ _ => ObjInterior n
  | SLeaf _ n => ObjUserLeaf n
  | SEmpty _ n => ObjEmpty n
  end.

(** What a run of the insertion loop from the interior node at the root of
    [t] has to show for its outcome [out]: the loop ends as the insertion
    on the content of [t] ends; when that returns, the store holds a tree
    [t'] with that content in place of [t], made of nodes of [t], the leaf
    [toAdd] and newly allocated nodes, and nothing else that was allocated
    before is written. *)
Definition ins_spec (bits : list bool) (toAdd : loc) (add : userLeafNode)
    (fuel : nat) (t : shape) (depth : Z) (h : heap) (out : heap * res unit)
  : Prop :=
  match pinsert fuel bits add depth (erase t) with
  | Val p' =>
      snd out = Val tt
      ∧ ∃ t', erase t' = p' ∧ repr (fst out) t' ∧ NoDup (saddrs t')
            ∧ saddr t' = saddr t ∧ sparent t' = sparent t ∧ is_interior t'
            ∧ (∀ x, x ∈ saddrs t' →
                 x ∈ saddrs t ∨ x = toAdd ∨ (length h ≤ x)%nat)
            ∧ (length h ≤ length (fst out))%nat
            ∧ (∀ x, (x < length h)%nat → x ∉ saddrs t → x ≠ toAdd →
                 fst out !! x = h !! x)
  | Panic => snd out = Panic
  | OutOfFuel => snd out = OutOfFuel
  end.

(** The leaf [Set] hands to [insertNode], with the commitment made from the
    draw [salt]. *)
Section SetLeaf.
Context {crypto : Crypto}.

Definition Set_toAdd (salt : list byte) (index : slice) (key : string)
    (value : slice) : userLeafNode :=
  {| u_node := {| parent := None; level := 0 |};
     key := key;
     value := copyOfBs value;
     index := index;
     commitment := NewCommit salt [list_byte_of_string key; bytesOf value] |}.

(** The [hash] field of the tree at [m]. *)
Definition hashOf (h : heap) (m : loc) : option slice :=
  match h !! m with
  | Some (ObjTree tr) => Some (hash tr)
  | _ => None
  end.

End SetLeaf.

(** The run the loss of the marker shows in: a new tree, whose root has nil
    cached hashes, is cloned, the root hash is recomputed on the tree and on
    its clone, and the two [hash] fields are read. *)
Definition cloneFreshTree `{Platform} `{Crypto} (rand : list byte)
  : M (slice * slice) :=
  do m <- NewMerkleTree rand;
  do t <- asTree m;
  do r <- asInterior (root t);
  (if isNil (leftHash r) && isNil (rightHash r) then ret tt else panic) ;;
  do c <- MerkleTree_Clone 2 m;
  MerkleTree_recomputeHash 2 m ;;
  MerkleTree_recomputeHash 2 c ;;
  do tm <- asTree m;
  do tc <- asTree c;
  ret (hash tm, hash tc).

(** ** Stores and directories to run the model on *)

(** A check for [no_dangling]. *)
Definition no_dangling_b (h : heap) : bool :=
  forallb
    (fun o =>
       forallb
         (fun p : ptr =>
            match p with
            | None => true
            | Some a => bool_decide (a < length h)%nat
            end)
         (obj_ptrs o))
    h.

(** The tree a node pointer leads to in a store, as far as [fuel] levels
    down. *)
Fixpoint shapeOf (fuel : nat) (h : heap) (a : loc) : option shape :=
  match fuel with
  | O => None
  | S fuel' =>
      match h !! a with
      | Some (ObjInterior n) =>
          match leftChild n, rightChild n with
          | Some l, Some r =>
              match shapeOf fuel' h l, shapeOf fuel' h r with
              | Some sl, Some sr => Some (SInterior a n sl sr)
              | _, _ => None
              end
          | _, _ => None
          end
      | Some (ObjUserLeaf n) => Some (SLeaf a n)
      | Some (ObjEmpty n) => Some (SEmpty a n)
      | _ => None
      end
  end.

Definition shapeOr (fuel : nat) (h : heap) (a : loc) : shape :=
  default (SEmpty a {| e_node := {| parent := None; level := 0 |};
                       e_index := None |})
    (shapeOf fuel h a).

(** The tree [NewMerkleTree] builds in the empty store: the root at 2, its
    empty children at 0 and 1, the [MerkleTree] at 3. *)
Definition demo_m : loc := 3%nat.
Definition demo_index : slice := Some (replicate 32 "000"%byte).
Definition demo_value : slice := Some ["k"%byte].
Definition demo_nonce : list byte := replicate 32 "n"%byte.
Definition demo_new : heap := fst (NewMerkleTree demo_nonce []).

(** Two draws of [RandSlice] for the commitment. *)
Definition demo_salt1 : list byte := replicate 32 "a"%byte.
Definition demo_salt2 : list byte := replicate 32 "b"%byte.

(** One name set in it, and the root hash recomputed. *)
Definition demo_one : heap :=
  fst (MerkleTree_Set (crypto := demoCrypto) demo_salt1 (Some demo_m)
         demo_index "alice" demo_value demo_new).

Definition demo_hashed : heap :=
  fst (MerkleTree_recomputeHash (platform := demoPlatform)
         (crypto := demoCrypto) 2 (Some demo_m) demo_one).

(** The store after the tree with one name is cloned; the clone is at 8. *)
Definition demo_cloned : heap :=
  fst (MerkleTree_Clone 3 (Some demo_m) demo_one).

(** A directory of one epoch: [bob] is in the tree, [alice] has a temporary
    binding, nobody else is known. *)
Definition demo_leaf (index : slice) (empty : bool) : ProofNode :=
  {| Level := 1; Index := index; Value := None; IsEmpty := empty;
     Commitment := {| Salt := None; Hash := None |} |}.

Definition demo_path (lookup leaf : slice) (empty : bool)
  : AuthenticationPath :=
  {| TreeNonce := Some demo_nonce; LookupIndex := lookup; PrunedTree := [];
     Leaf := demo_leaf leaf empty |}.

Definition demo_config : Config :=
  {| Version := Some []; HashID := Some []; VrfPublicKey := Some [];
     UpdateInterval := 1 |}.

Definition demo_STR : SignedTreeRoot Config :=
  {| tree := Some demo_m; TreeHash := Some []; Epoch := 0;
     PreviousEpoch := 0; PreviousSTRHash := Some [];
     Signature := Some ["s"%byte]; Ad := demo_config |}.

Definition demo_bob : slice := Some ["001"%byte].
Definition demo_other : slice := Some ["002"%byte].

Definition demo_PAD : demoPAD :=
  {| demo_bound := [("bob"%string, demo_path demo_bob demo_bob false)];
     demo_absent := demo_path demo_other None true;
     demo_str := demo_STR;
     demo_pending := [] |}.

Definition demo_tb : TemporaryBinding.t :=
  {| TemporaryBinding.Index := demo_other;
     TemporaryBinding.Value := demo_value;
     TemporaryBinding.Signature := Some ["t"%byte] |}.

Definition demo_dir : Tree demoPAD :=
  {| pad := demo_PAD; tbs := {["alice"%string := demo_tb]};
     policies := demo_config |}.

(* ===================================================================== *)
(** * Part III: properties                                                *)
(* ===================================================================== *)

(** ** Bytes and integers *)

Lemma bytes_Equal_spec (a b : slice) :
  bytes_Equal a b = true ↔ bytesOf a = bytesOf b.
Proof. unfold bytes_Equal. apply bool_decide_eq_true. Qed.

Lemma bytes_Equal_refl (a : slice) : bytes_Equal a a = true.
Proof. by apply bytes_Equal_spec. Qed.

Lemma Z_of_byte_range (b : byte) : 0 ≤ Z_of_byte b < 256.
Proof.
  unfold Z_of_byte. pose proof (Byte.to_N_bounded b). lia.
Qed.

Lemma Z_of_byte_of_Z (z : Z) : Z_of_byte (byte_of_Z z) = z mod 256.
Proof.
  unfold Z_of_byte, byte_of_Z.
  assert (Hr : 0 ≤ z mod 256 < 256) by (apply Z.mod_pos_bound; lia).
  destruct (Byte.of_N (Z.to_N (z mod 256))) as [b|] eqn:E.
  - apply Byte.to_of_N in E. simpl. rewrite E. lia.
  - exfalso.
    pose proof (Byte.to_of_N_option_map (Z.to_N (z mod 256))) as Hm.
    rewrite E in Hm. simpl in Hm.
    destruct (N.leb_spec (Z.to_N (z mod 256)) 255); [discriminate | lia].
Qed.

Lemma le_bytes_S (n : nat) (x : Z) :
  le_bytes (S n) x = byte_of_Z x :: le_bytes n (Z.shiftr x 8).
Proof.
  unfold le_bytes. simpl. f_equal.
  rewrite <- seq_shift, map_map. apply map_ext. intros i.
  f_equal. rewrite Z.shiftr_shiftr by lia. f_equal. lia.
Qed.

Lemma length_le_bytes (n : nat) (x : Z) : length (le_bytes n x) = n.
Proof. unfold le_bytes. by rewrite length_map, length_seq. Qed.

Lemma length_memory_bytes e (n : nat) (x : Z) :
  length (memory_bytes e n x) = n.
Proof.
  destruct e; simpl; rewrite ?length_rev; apply length_le_bytes.
Qed.

Lemma le_value_le_bytes (n : nat) (x : Z) :
  le_value (le_bytes n x) = x mod 2 ^ (8 * Z.of_nat n).
Proof.
  revert x. induction n as [|n IH]; intros x.
  - simpl. by rewrite Z.mod_1_r.
  - rewrite le_bytes_S. simpl le_value. rewrite IH, Z_of_byte_of_Z.
    rewrite Z.shiftr_div_pow2 by lia.
    replace (8 * Z.of_nat (S n)) with (8 + 8 * Z.of_nat n) by lia.
    rewrite Z.pow_add_r by lia.
    change (2 ^ 8) with 256.
    rewrite Z.rem_mul_r by lia. lia.
Qed.

Lemma memory_value_memory_bytes e (n : nat) (x : Z) :
  memory_value e (memory_bytes e n x) = x mod 2 ^ (8 * Z.of_nat n).
Proof.
  destruct e; simpl; rewrite ?rev_involutive; apply le_value_le_bytes.
Qed.

Lemma int64_mod (num : Z) : int64 num mod 2 ^ 64 = wrap64 num.
Proof.
  unfold int64.
  assert (0 ≤ wrap64 num < 2 ^ 64) by (apply Z.mod_pos_bound; lia).
  destruct (wrap64 num <? 2 ^ 63).
  - apply Z.mod_small; lia.
  - replace (wrap64 num - 2 ^ 64) with (wrap64 num + (-1) * 2 ^ 64) by lia.
    rewrite Z.mod_add by lia. apply Z.mod_small; lia.
Qed.

(** [ULongToBytes] writes eight bytes that read back, in the byte order of
    the host, as the number. *)
Lemma ULongToBytes_encoding `{Platform} (num : Z) :
  length (ULongToBytes num) = 8%nat
  ∧ memory_value nativeEndian (ULongToBytes num) = wrap64 num.
Proof.
  unfold ULongToBytes, LongToBytes. split.
  - apply length_memory_bytes.
  - rewrite memory_value_memory_bytes. apply int64_mod.
Qed.

Lemma UInt32ToBytes_encoding `{Platform} (num : Z) :
  length (UInt32ToBytes num) = 4%nat
  ∧ memory_value nativeEndian (UInt32ToBytes num) = wrap32 num.
Proof.
  unfold UInt32ToBytes. split.
  - apply length_memory_bytes.
  - by rewrite memory_value_memory_bytes.
Qed.

(** ** Signed tree roots *)

Section STRProperties.
Context {platform : Platform} {crypto : Crypto}.
Context {A : Type} {assocData : AssocData A}.

(** C1: [b.VerifyHashChain(a)] returns true exactly when the previous-STR
    hash of [b] is the digest of the signature of [a], the previous epoch of
    [b] is the epoch of [a], and the epoch of [b] is the epoch of [a] plus
    one (the sum taken in [uint64], as the code takes it). *)
Theorem VerifyHashChain_iff (a b : SignedTreeRoot A) :
  SignedTreeRoot_VerifyHashChain b a = true ↔
    bytesOf (PreviousSTRHash b) = Digest [bytesOf (Signature a)]
    ∧ PreviousEpoch b = Epoch a
    ∧ Epoch b = wrap64 (Epoch a + 1).
Proof.
  unfold SignedTreeRoot_VerifyHashChain.
  rewrite !andb_true_iff, !Z.eqb_eq, bytes_Equal_spec. simpl.
  split.
  - intros [[Hp He] Hh]. by rewrite <- Hh.
  - intros (Hh & Hp & He). by rewrite Hh.
Qed.

(** Below the largest [uint64] the sum does not wrap. *)
Lemma VerifyHashChain_successor (a b : SignedTreeRoot A) :
  0 ≤ Epoch a < 2 ^ 64 - 1 →
  SignedTreeRoot_VerifyHashChain b a = true →
  Epoch b = Epoch a + 1.
Proof.
  intros Hr Hv. apply VerifyHashChain_iff in Hv as (_ & _ & ->).
  unfold wrap64. apply Z.mod_small. lia.
Qed.

(** C2: the bytes that are signed, and that a verifier rebuilds, are the
    epoch, then the previous epoch when the epoch is positive, then the tree
    hash, the previous-STR hash and the bytes of the associated data; the
    integers are written as eight bytes in the byte order of the host, and
    [NewSTR] signs exactly this string. *)
Theorem SignedTreeRoot_Bytes_layout (str : SignedTreeRoot A) :
  SignedTreeRoot_Bytes str =
    ULongToBytes (Epoch str)
    ++ (if 0 <? Epoch str then ULongToBytes (PreviousEpoch str) else [])
    ++ bytesOf (TreeHash str)
    ++ bytesOf (PreviousSTRHash str)
    ++ Bytes (Ad str)
  ∧ (∀ num, length (ULongToBytes num) = 8%nat
            ∧ memory_value nativeEndian (ULongToBytes num) = wrap64 num)
  ∧ (∀ key ad (m : loc) tr epoch prevHash (h : heap),
       h !! m = Some (ObjTree tr) →
       ∃ s, NewSTR key ad (Some m) epoch prevHash h = (h, Val s)
            ∧ Signature s
              = Some (ed25519_Sign key (SignedTreeRoot_Bytes s))).
Proof.
  split; [|split].
  - unfold SignedTreeRoot_Bytes, SignedTreeRoot_SerializeInternal.
    destruct (0 <? Epoch str); simpl; by rewrite <- ?app_assoc.
  - intros num. apply ULongToBytes_encoding.
  - intros key ad m tr epoch prevHash h Hm.
    unfold NewSTR, bind, asTree, bind, deref. rewrite Hm. simpl.
    eexists. split; reflexivity.
Qed.

End STRProperties.

(** The directory's own [Bytes] serializes the same string. *)
Lemma DirSTR_Bytes_eq `{Platform} (s : SignedTreeRoot Config) :
  DirSTR_Bytes (NewDirSTR s) = SignedTreeRoot_Bytes s.
Proof. reflexivity. Qed.

(** ** The directory facade *)

Section DirectoryProperties.
Context {PAD : Type} {padMethods : PADMethods PAD}.

Lemma length_nonempty (s : string) :
  s ≠ EmptyString → (Z.of_nat (String.length s) <=? 0) = false.
Proof. destruct s; [done | intros _; apply Z.leb_gt; simpl; lia]. Qed.

(** C6: [KeyLookup] answers a request without a username with
    [ErrMalformedMessage]; otherwise, with the authentication path the PAD
    returned, it answers [ReqSuccess] with that path and no temporary
    binding when the leaf index of the path equals the lookup index, else
    [ReqSuccess] with the path and the temporary binding stored for the
    username when there is one, else [ReqNameNotFound] with the path. *)
Theorem KeyLookup_cases (d : Tree PAD) (req : KeyLookupRequest.t) :
  let name := KeyLookupRequest.Username req in
  (name = EmptyString →
     Tree_KeyLookup d req = NewErrorResponse ErrMalformedMessage)
  ∧ (∀ ap, name ≠ EmptyString → PAD_Lookup (pad d) name = inl ap →
       (bytes_Equal (LookupIndex ap) (Index (Leaf ap)) = true →
          Tree_KeyLookup d req =
            NewKeyLookupProof ap (Tree_LatestSTR d) None ReqSuccess)
       ∧ (bytes_Equal (LookupIndex ap) (Index (Leaf ap)) = false →
            (∀ tb, tbs d !! name = Some tb →
               Tree_KeyLookup d req =
                 NewKeyLookupProof ap (Tree_LatestSTR d) (Some tb)
                   ReqSuccess)
            ∧ (tbs d !! name = None →
                 Tree_KeyLookup d req =
                   NewKeyLookupProof ap (Tree_LatestSTR d) None
                     ReqNameNotFound))).
Proof.
  intros name. unfold Tree_KeyLookup. fold name. split.
  - intros ->. reflexivity.
  - intros ap Hne Hap. rewrite (length_nonempty _ Hne), Hap.
    split; [intros -> | intros ->; split; [intros tb -> | intros ->]];
      reflexivity.
Qed.

(** A request with an empty username or an empty key is malformed, whatever
    the directory holds, and leaves the directory as it was. *)
Lemma Register_malformed (d : Tree PAD) (req : RegistrationRequest.t) :
  RegistrationRequest.Username req = EmptyString
  ∨ bytesOf (RegistrationRequest.Key req) = [] →
  Tree_Register d req = (d, NewErrorResponse ErrMalformedMessage).
Proof.
  unfold Tree_Register, len. intros [-> | ->]; simpl.
  - reflexivity.
  - by rewrite orb_true_r.
Qed.

(** C7 (amended): a registration request with a username and a key, for a
    name that the PAD's lookup finds in the tree or that has a temporary
    binding, is answered [ReqNameExisted], with the path of the lookup and
    no binding in the first case and with the path and the stored binding in
    the second; the PAD and the temporary bindings are left as they were. *)
Theorem Register_name_existed (d : Tree PAD) (req : RegistrationRequest.t)
    (ap : AuthenticationPath) :
  let name := RegistrationRequest.Username req in
  name ≠ EmptyString →
  bytesOf (RegistrationRequest.Key req) ≠ [] →
  PAD_Lookup (pad d) name = inl ap →
  (bytes_Equal (LookupIndex ap) (Index (Leaf ap)) = true →
     Tree_Register d req =
       (d, NewRegistrationProof ap (Tree_LatestSTR d) None ReqNameExisted))
  ∧ (∀ tb, bytes_Equal (LookupIndex ap) (Index (Leaf ap)) = false →
       tbs d !! name = Some tb →
       Tree_Register d req =
         (d, NewRegistrationProof ap (Tree_LatestSTR d) (Some tb)
               ReqNameExisted)).
Proof.
  intros name Hne Hkey Hap. unfold Tree_Register. fold name.
  rewrite (length_nonempty _ Hne), Hap.
  assert (Hk : (len (RegistrationRequest.Key req) <=? 0) = false).
  { unfold len. apply Z.leb_gt. destruct (bytesOf _); [done | simpl; lia]. }
  rewrite Hk. simpl. split.
  - intros ->. reflexivity.
  - intros tb -> ->. reflexivity.
Qed.

(** A new name is set in the PAD and gets a temporary binding. *)
Lemma Register_new_name (d : Tree PAD) (req : RegistrationRequest.t)
    (ap : AuthenticationPath) pad' :
  let name := RegistrationRequest.Username req in
  let key := RegistrationRequest.Key req in
  name ≠ EmptyString →
  bytesOf key ≠ [] →
  PAD_Lookup (pad d) name = inl ap →
  bytes_Equal (LookupIndex ap) (Index (Leaf ap)) = false →
  tbs d !! name = None →
  PAD_Set (pad d) name key = (pad', None) →
  ∃ d', Tree_Register d req =
          (d', NewRegistrationProof ap (Tree_LatestSTR d')
                 (Some (Tree_NewTB d name key)) ReqSuccess)
        ∧ pad d' = pad'
        ∧ tbs d' = <[name := Tree_NewTB d name key]> (tbs d).
Proof.
  intros name key Hne Hkey Hap Hidx Htb Hset. unfold Tree_Register.
  fold name key. rewrite (length_nonempty _ Hne), Hap, Hidx, Htb, Hset.
  assert (Hk : (len key <=? 0) = false).
  { unfold len. apply Z.leb_gt. destruct (bytesOf _); [done | simpl; lia]. }
  rewrite Hk. simpl. eexists. split; [reflexivity|]. done.
Qed.

Lemma Monitor_loop_count (d : Tree PAD) name (endEp : Z) :
  endEp < 2 ^ 64 - 1 →
  ∀ (n : nat) (ep : Z) aps strs fuel,
    0 ≤ ep →
    ep + Z.of_nat n = endEp + 1 →
    (n < fuel)%nat →
    (∀ e, ep ≤ e ≤ endEp →
       (∃ ap, PAD_LookupInEpoch (pad d) name e = inl ap)
       ∧ is_Some (PAD_GetSTR (pad d) e)) →
    ∃ aps' strs',
      Monitor_loop fuel d name ep endEp aps strs =
        Val (NewMonitoringProof (aps ++ aps') (strs ++ strs'))
      ∧ length aps' = n ∧ length strs' = n.
Proof.
  intros Hmax n. induction n as [|n IH]; intros ep aps strs fuel Hep Hn Hf Hok.
  - destruct fuel as [|fuel]; [lia|]. simpl.
    destruct (Z.leb_spec ep endEp); [lia|].
    exists [], []. by rewrite !app_nil_r.
  - destruct fuel as [|fuel]; [lia|]. simpl.
    destruct (Z.leb_spec ep endEp); [|lia].
    destruct (Hok ep ltac:(lia)) as [[ap Hap] [s Hs]].
    rewrite Hap, Hs.
    assert (Hw : wrap64 (ep + 1) = ep + 1).
    { unfold wrap64. apply Z.mod_small. lia. }
    rewrite Hw.
    destruct (IH (ep + 1) (aps ++ [ap]) (strs ++ [NewDirSTR s]) fuel)
      as (aps' & strs' & Hrun & Ha & Hs'); [lia | lia | lia | |].
    { intros e He. apply Hok. lia. }
    exists (ap :: aps'), (NewDirSTR s :: strs').
    rewrite Hrun, <- !app_assoc. simpl. by rewrite Ha, Hs'.
Qed.

(** C8 (amended): for a monitoring request with a username, a start epoch
    [s] not above the latest epoch and [s ≤ e], the response holds exactly
    [min e latest − s + 1] authentication paths and as many STRs: the end
    of the range is the requested end epoch [e] cut down to the latest
    epoch.  The PAD has to answer the lookup and hold an STR for every
    epoch of that range, and the latest epoch has to be below the largest
    [uint64]. *)
Theorem Monitor_count (d : Tree PAD) (req : MonitoringRequest.t) :
  let name := MonitoringRequest.Username req in
  let s := MonitoringRequest.StartEpoch req in
  let e := MonitoringRequest.EndEpoch req in
  let latest := Epoch (STR (Tree_LatestSTR d)) in
  name ≠ EmptyString →
  0 ≤ s → s ≤ latest → s ≤ e → latest < 2 ^ 64 - 1 →
  (∀ ep, s ≤ ep ≤ Z.min e latest →
     (∃ ap, PAD_LookupInEpoch (pad d) name ep = inl ap)
     ∧ is_Some (PAD_GetSTR (pad d) ep)) →
  ∃ aps strs,
    Tree_Monitor d req = Val (NewMonitoringProof aps strs)
    ∧ Z.of_nat (length aps) = Z.min e latest - s + 1
    ∧ Z.of_nat (length strs) = Z.min e latest - s + 1.
Proof.
  intros name s e latest Hne Hs0 Hsl Hse Hmax Hok.
  unfold Tree_Monitor. fold name s e latest.
  rewrite (length_nonempty _ Hne). simpl.
  destruct (Z.ltb_spec latest s); [lia|].
  destruct (Z.ltb_spec e s); [lia|]. simpl.
  set (endEp := if latest <? e then latest else e).
  assert (HendEp : endEp = Z.min e latest).
  { unfold endEp. destruct (Z.ltb_spec latest e); lia. }
  destruct (Monitor_loop_count d name endEp ltac:(lia)
              (Z.to_nat (endEp - s + 1)) s [] []
              (Z.to_nat (endEp - s + 2)))
    as (aps & strs & Hrun & Ha & Hs'); [lia | lia | lia | |].
  { intros ep Hep. apply Hok. lia. }
  exists aps, strs. rewrite Hrun. simpl. split; [done|]. lia.
Qed.

End DirectoryProperties.

(** ** Computations on the store *)

Lemma bind_eq {A B} (c : M A) (k : A → M B) h h1 a :
  c h = (h1, Val a) → bind c k h = k a h1.
Proof. unfold bind. by intros ->. Qed.

Lemma bind_ret {A B} (a : A) (k : A → M B) h : bind (ret a) k h = k a h.
Proof. reflexivity. Qed.

Lemma bind_res {A B} (c : M A) (k : A → M B) h h1 r :
  c h = (h1, r) →
  bind c k h =
    match r with
    | Val a => k a h1
    | Panic => (h1, Panic)
    | OutOfFuel => (h1, OutOfFuel)
    end.
Proof. unfold bind. by intros ->. Qed.

Lemma bind_inv {A B} (c : M A) (k : A → M B) h h' r :
  bind c k h = (h', r) →
  (∃ h1 a, c h = (h1, Val a) ∧ k a h1 = (h', r))
  ∨ (c h = (h', Panic) ∧ r = Panic)
  ∨ (c h = (h', OutOfFuel) ∧ r = OutOfFuel).
Proof.
  unfold bind. destruct (c h) as [h1 [a| |]]; intros Hk.
  - left. eauto.
  - right. left. by inversion Hk.
  - right. right. by inversion Hk.
Qed.

Lemma bind_val_inv {A B} (c : M A) (k : A → M B) h h' b :
  bind c k h = (h', Val b) →
  ∃ h1 a, c h = (h1, Val a) ∧ k a h1 = (h', Val b).
Proof.
  intros Hb. apply bind_inv in Hb as [?|[[_ ?]|[_ ?]]]; [done | done | done].
Qed.

Lemma deref_eq h a o : h !! a = Some o → deref (Some a) h = (h, Val o).
Proof. unfold deref. by intros ->. Qed.

Lemma deref_val_inv p h h' o :
  deref p h = (h', Val o) → h' = h ∧ ∃ a, p = Some a ∧ h !! a = Some o.
Proof.
  unfold deref. destruct p as [a|]; [|done].
  destruct (h !! a) eqn:E; [|done]. intros [= -> ->]. eauto.
Qed.

Lemma asInterior_eq h a n :
  h !! a = Some (ObjInterior n) → asInterior (Some a) h = (h, Val n).
Proof. intros E. unfold asInterior. by rewrite (bind_eq _ _ _ _ _ (deref_eq _ _ _ E)). Qed.

Lemma asUserLeaf_eq h a n :
  h !! a = Some (ObjUserLeaf n) → asUserLeaf (Some a) h = (h, Val n).
Proof. intros E. unfold asUserLeaf. by rewrite (bind_eq _ _ _ _ _ (deref_eq _ _ _ E)). Qed.

Lemma asEmpty_eq h a n :
  h !! a = Some (ObjEmpty n) → asEmpty (Some a) h = (h, Val n).
Proof. intros E. unfold asEmpty. by rewrite (bind_eq _ _ _ _ _ (deref_eq _ _ _ E)). Qed.

Lemma asTree_eq h a m :
  h !! a = Some (ObjTree m) → asTree (Some a) h = (h, Val m).
Proof. intros E. unfold asTree. by rewrite (bind_eq _ _ _ _ _ (deref_eq _ _ _ E)). Qed.

Lemma asInterior_val_inv p h h' n :
  asInterior p h = (h', Val n) →
  h' = h ∧ ∃ a, p = Some a ∧ h !! a = Some (ObjInterior n).
Proof.
  unfold asInterior. intros Hb.
  apply bind_val_inv in Hb as (h1 & o & Hd & Hk).
  apply deref_val_inv in Hd as (-> & a & -> & Ha).
  destruct o; inversion Hk; subst. eauto.
Qed.

Lemma asUserLeaf_val_inv p h h' n :
  asUserLeaf p h = (h', Val n) →
  h' = h ∧ ∃ a, p = Some a ∧ h !! a = Some (ObjUserLeaf n).
Proof.
  unfold asUserLeaf. intros Hb.
  apply bind_val_inv in Hb as (h1 & o & Hd & Hk).
  apply deref_val_inv in Hd as (-> & a & -> & Ha).
  destruct o; inversion Hk; subst. eauto.
Qed.

Lemma asEmpty_val_inv p h h' n :
  asEmpty p h = (h', Val n) →
  h' = h ∧ ∃ a, p = Some a ∧ h !! a = Some (ObjEmpty n).
Proof.
  unfold asEmpty. intros Hb.
  apply bind_val_inv in Hb as (h1 & o & Hd & Hk).
  apply deref_val_inv in Hd as (-> & a & -> & Ha).
  destruct o; inversion Hk; subst. eauto.
Qed.

Lemma asTree_val_inv p h h' m :
  asTree p h = (h', Val m) →
  h' = h ∧ ∃ a, p = Some a ∧ h !! a = Some (ObjTree m).
Proof.
  unfold asTree. intros Hb.
  apply bind_val_inv in Hb as (h1 & o & Hd & Hk).
  apply deref_val_inv in Hd as (-> & a & -> & Ha).
  destruct o; inversion Hk; subst. eauto.
Qed.

Lemma updInterior_eq h a n f :
  h !! a = Some (ObjInterior n) →
  updInterior a f h = (<[a := ObjInterior (f n)]> h, Val tt).
Proof. intros E. unfold updInterior. by rewrite (bind_eq _ _ _ _ _ (asInterior_eq _ _ _ E)). Qed.

Lemma updUserLeaf_eq h a n f :
  h !! a = Some (ObjUserLeaf n) →
  updUserLeaf a f h = (<[a := ObjUserLeaf (f n)]> h, Val tt).
Proof. intros E. unfold updUserLeaf. by rewrite (bind_eq _ _ _ _ _ (asUserLeaf_eq _ _ _ E)). Qed.

Lemma updEmpty_eq h a n f :
  h !! a = Some (ObjEmpty n) →
  updEmpty a f h = (<[a := ObjEmpty (f n)]> h, Val tt).
Proof. intros E. unfold updEmpty. by rewrite (bind_eq _ _ _ _ _ (asEmpty_eq _ _ _ E)). Qed.

Lemma updTree_eq h a m f :
  h !! a = Some (ObjTree m) →
  updTree a f h = (<[a := ObjTree (f m)]> h, Val tt).
Proof. intros E. unfold updTree. by rewrite (bind_eq _ _ _ _ _ (asTree_eq _ _ _ E)). Qed.

Lemma kind_eq h a o :
  h !! a = Some o →
  kind (Some a) h =
    (h, match o with
        | ObjUserLeaf _ => Val userLeafNodeKind
        | ObjInterior _ => Val interiorNodeKind
        | ObjEmpty _ => Val emptyNodeKind
        | ObjTree _ => Panic
        end).
Proof.
  intros E. unfold kind. rewrite (bind_eq _ _ _ _ _ (deref_eq _ _ _ E)).
  by destruct o.
Qed.

(** ** Invariants of the store *)

Section Keeps.
Context {I : heap → Prop}.

Lemma keeps_ret {A} (a : A) (Q : A → Prop) : Q a → keeps I (ret a) Q.
Proof. intros Hq h h' r Hi [= <- <-]. done. Qed.

Lemma keeps_panic {A} (Q : A → Prop) : keeps I panic Q.
Proof. intros h h' r Hi [= <- <-]. done. Qed.

Lemma keeps_outOfFuel {A} (Q : A → Prop) : keeps I outOfFuel Q.
Proof. intros h h' r Hi [= <- <-]. done. Qed.

Lemma keeps_bind {A B} (c : M A) (k : A → M B) (Q1 : A → Prop)
    (Q2 : B → Prop) :
  keeps I c Q1 → (∀ a, Q1 a → keeps I (k a) Q2) → keeps I (bind c k) Q2.
Proof.
  intros Hc Hk h h' r Hi Hb.
  apply bind_inv in Hb as [(h1 & a & Hc1 & Hk1)|[[Hc1 ->]|[Hc1 ->]]].
  - destruct (Hc _ _ _ Hi Hc1) as [Hi1 Hq]. by apply (Hk a Hq h1).
  - by destruct (Hc _ _ _ Hi Hc1).
  - by destruct (Hc _ _ _ Hi Hc1).
Qed.

Lemma keeps_weaken {A} (c : M A) (Q1 Q2 : A → Prop) :
  keeps I c Q1 → (∀ a, Q1 a → Q2 a) → keeps I c Q2.
Proof.
  intros Hc Hw h h' r Hi Hr. destruct (Hc _ _ _ Hi Hr) as [? Hq].
  split; [done|]. destruct r; auto.
Qed.

Lemma keeps_liftOpt {A} (o : option A) (Q : A → Prop) :
  (∀ a, o = Some a → Q a) → keeps I (liftOpt o) Q.
Proof.
  intros Hq. destruct o; simpl; [apply keeps_ret; auto | apply keeps_panic].
Qed.

Lemma keeps_at_index {A} (l : list A) i : keeps I (at_index l i) (fun _ => True).
Proof.
  unfold at_index. destruct (i <? 0); [apply keeps_panic|].
  destruct (l !! Z.to_nat i); [by apply keeps_ret | apply keeps_panic].
Qed.

Lemma keeps_slice_to {A} (l : list A) i : keeps I (slice_to l i) (fun _ => True).
Proof.
  unfold slice_to. destruct (_ || _); [apply keeps_panic | by apply keeps_ret].
Qed.

(** Reading never changes the store. *)
Lemma keeps_deref_any p : keeps I (deref p) (fun _ => True).
Proof.
  intros h h' r Hi Hd. unfold deref in Hd.
  destruct p as [a|]; [destruct (h !! a)|]; inversion Hd; subst; done.
Qed.

Lemma keeps_asInterior_any p : keeps I (asInterior p) (fun _ => True).
Proof.
  unfold asInterior. eapply keeps_bind; [apply keeps_deref_any|].
  intros [] _; first [by apply keeps_ret | apply keeps_panic].
Qed.

Lemma keeps_asTree_any p : keeps I (asTree p) (fun _ => True).
Proof.
  unfold asTree. eapply keeps_bind; [apply keeps_deref_any|].
  intros [] _; first [by apply keeps_ret | apply keeps_panic].
Qed.

End Keeps.

Section Region.
Context (P : loc → Prop) (G : object → Prop) (h0 : heap).

Abbreviation I := (region_inv P G h0).

Lemma obj_in_interior n :
  obj_in P (ObjInterior n) ↔
    ptr_in P (parent (i_node n)) ∧ ptr_in P (leftChild n)
    ∧ ptr_in P (rightChild n).
Proof.
  unfold obj_in. simpl. rewrite !Forall_cons, Forall_nil. tauto.
Qed.

Lemma obj_in_leaf n : obj_in P (ObjUserLeaf n) ↔ ptr_in P (parent (u_node n)).
Proof. unfold obj_in. simpl. rewrite !Forall_cons, Forall_nil. tauto. Qed.

Lemma obj_in_empty n : obj_in P (ObjEmpty n) ↔ ptr_in P (parent (e_node n)).
Proof. unfold obj_in. simpl. rewrite !Forall_cons, Forall_nil. tauto. Qed.

Lemma obj_in_tree m : obj_in P (ObjTree m) ↔ ptr_in P (root m).
Proof. unfold obj_in. simpl. rewrite !Forall_cons, Forall_nil. tauto. Qed.

Lemma keeps_deref p : ptr_in P p → keeps I (deref p) G.
Proof.
  intros Hp h h' r Hi Hd. unfold deref in Hd.
  destruct p as [a|]; [|by inversion Hd; subst].
  destruct (h !! a) as [o|] eqn:E; inversion Hd; subst; [|done].
  split; [done|]. by apply (ri_closed _ _ _ _ Hi a).
Qed.

Lemma keeps_asInterior p :
  ptr_in P p → keeps I (asInterior p) (fun n => G (ObjInterior n)).
Proof.
  intros Hp. unfold asInterior. eapply keeps_bind; [by apply keeps_deref|].
  intros [] Ho; first [by apply keeps_ret | apply keeps_panic].
Qed.

Lemma keeps_asUserLeaf p :
  ptr_in P p → keeps I (asUserLeaf p) (fun n => G (ObjUserLeaf n)).
Proof.
  intros Hp. unfold asUserLeaf. eapply keeps_bind; [by apply keeps_deref|].
  intros [] Ho; first [by apply keeps_ret | apply keeps_panic].
Qed.

Lemma keeps_asEmpty p :
  ptr_in P p → keeps I (asEmpty p) (fun n => G (ObjEmpty n)).
Proof.
  intros Hp. unfold asEmpty. eapply keeps_bind; [by apply keeps_deref|].
  intros [] Ho; first [by apply keeps_ret | apply keeps_panic].
Qed.

Lemma keeps_asTree p :
  ptr_in P p → keeps I (asTree p) (fun m => G (ObjTree m)).
Proof.
  intros Hp. unfold asTree. eapply keeps_bind; [by apply keeps_deref|].
  intros [] Ho; first [by apply keeps_ret | apply keeps_panic].
Qed.

Lemma keeps_kind p : keeps I (kind p) (fun _ => True).
Proof.
  unfold kind. eapply keeps_bind; [apply keeps_deref_any|].
  intros [] _; first [by apply keeps_ret | apply keeps_panic].
Qed.

Lemma keeps_isEmpty p : keeps I (isEmpty p) (fun _ => True).
Proof.
  unfold isEmpty. eapply keeps_bind; [apply keeps_kind|].
  intros; by apply keeps_ret.
Qed.

Lemma keeps_assign a o :
  P a → G o → keeps I (assign a o) (fun _ => True).
Proof.
  intros Ha Ho h h' r [Hc Hout Hfr] [= <- <-]. split; [|done]. split.
  - intros b o' Hb Hl.
    destruct (decide (a = b)) as [<-|Hne].
    + destruct (decide (a < length h)%nat).
      * rewrite list_lookup_insert_eq in Hl by done. by inversion Hl; subst.
      * rewrite list_insert_ge in Hl by lia. by apply (Hc a).
    + rewrite list_lookup_insert_ne in Hl by done. by apply (Hc b).
  - intros b Hb. rewrite list_lookup_insert_ne; [by apply Hout|].
    by intros <-.
  - intros b Hb. rewrite length_insert in Hb. by apply Hfr.
Qed.

Lemma keeps_new o : G o → keeps I (new o) P.
Proof.
  intros Ho h h' r [Hc Hout Hfr] [= <- <-]. split; [split|].
  - intros b o' Hb Hl.
    destruct (decide (b < length h)%nat).
    + rewrite lookup_app_l in Hl by done. by apply (Hc b).
    + rewrite lookup_app_r in Hl by lia.
      destruct (b - length h)%nat; simpl in Hl; [|done].
      by inversion Hl; subst.
  - intros b Hb. rewrite lookup_app_l; [by apply Hout|].
    destruct (decide (b < length h)%nat); [done|].
    exfalso. apply Hb, Hfr. lia.
  - intros b Hb. rewrite length_app in Hb. apply Hfr. lia.
  - apply Hfr. lia.
Qed.

Lemma keeps_updInterior a f :
  P a →
  (∀ n, G (ObjInterior n) → G (ObjInterior (f n))) →
  keeps I (updInterior a f) (fun _ => True).
Proof.
  intros Ha Hf. unfold updInterior.
  eapply keeps_bind; [by apply keeps_asInterior|].
  intros n Hn. apply keeps_assign; auto.
Qed.

Lemma keeps_updUserLeaf a f :
  P a →
  (∀ n, G (ObjUserLeaf n) → G (ObjUserLeaf (f n))) →
  keeps I (updUserLeaf a f) (fun _ => True).
Proof.
  intros Ha Hf. unfold updUserLeaf.
  eapply keeps_bind; [by apply keeps_asUserLeaf|].
  intros n Hn. apply keeps_assign; auto.
Qed.

Lemma keeps_updEmpty a f :
  P a →
  (∀ n, G (ObjEmpty n) → G (ObjEmpty (f n))) →
  keeps I (updEmpty a f) (fun _ => True).
Proof.
  intros Ha Hf. unfold updEmpty.
  eapply keeps_bind; [by apply keeps_asEmpty|].
  intros n Hn. apply keeps_assign; auto.
Qed.

Lemma keeps_updTree a f :
  P a →
  (∀ n, G (ObjTree n) → G (ObjTree (f n))) →
  keeps I (updTree a f) (fun _ => True).
Proof.
  intros Ha Hf. unfold updTree.
  eapply keeps_bind; [by apply keeps_asTree|].
  intros n Hn. apply keeps_assign; auto.
Qed.

End Region.

(** ** Code that stays in a region *)

Lemma keeps_liftOpt_ptr {I : heap → Prop} (P : loc → Prop) (p : ptr) :
  ptr_in P p → keeps I (liftOpt p) P.
Proof. intros Hp. apply keeps_liftOpt. by intros a ->. Qed.

Lemma keeps_liftOpt_any {I : heap → Prop} {A} (o : option A) :
  keeps I (liftOpt o) (fun _ => True).
Proof. by apply keeps_liftOpt. Qed.

Ltac region_norm :=
  cbv beta in *;
  repeat match goal with
  | H : obj_in _ (ObjInterior _) |- _ =>
      apply obj_in_interior in H; destruct H as (? & ? & ?)
  | H : obj_in _ (ObjUserLeaf _) |- _ => apply obj_in_leaf in H
  | H : obj_in _ (ObjEmpty _) |- _ => apply obj_in_empty in H
  | H : obj_in _ (ObjTree _) |- _ => apply obj_in_tree in H
  end.

Ltac region_solve :=
  intros; region_norm;
  rewrite ?obj_in_interior, ?obj_in_leaf, ?obj_in_empty, ?obj_in_tree;
  simpl in *; subst; auto.

(** One step of a computation whose reads and writes stay in the region
    [P]; [extra] closes the calls of functions proved before. *)
Ltac keeps_step P extra :=
  first
    [ apply keeps_ret; solve [region_solve]
    | apply keeps_panic
    | apply keeps_outOfFuel
    | apply keeps_kind
    | apply keeps_isEmpty
    | apply keeps_at_index
    | apply keeps_slice_to
    | apply keeps_asInterior; solve [region_solve]
    | apply keeps_asUserLeaf; solve [region_solve]
    | apply keeps_asEmpty; solve [region_solve]
    | apply keeps_asTree; solve [region_solve]
    | apply keeps_new; solve [region_solve]
    | apply keeps_assign; solve [region_solve]
    | apply keeps_updInterior; solve [region_solve]
    | apply keeps_updUserLeaf; solve [region_solve]
    | apply keeps_updEmpty; solve [region_solve]
    | apply keeps_updTree; solve [region_solve]
    | apply (keeps_liftOpt_ptr P); solve [region_solve]
    | apply keeps_liftOpt_any
    | extra ].

Ltac keeps_go P extra :=
  lazymatch goal with
  | |- keeps _ (bind _ _) _ =>
      eapply keeps_bind; [ keeps_go P extra | intros ? ?; keeps_go P extra ]
  | |- keeps _ (if ?b then _ else _) _ => destruct b eqn:?; keeps_go P extra
  | |- keeps _ (match ?k with userLeafNodeKind => _ | _ => _ end) _ =>
      destruct k; keeps_go P extra
  | |- _ => keeps_step P extra
  end.

Section RegionCode.
Context {platform : Platform} {crypto : Crypto}.
Context (P : loc → Prop) (h0 : heap).

Abbreviation I := (region_inv P (obj_in P) h0).

Lemma keeps_newInteriorNode parent level prefixBits :
  ptr_in P parent → keeps I (newInteriorNode parent level prefixBits) P.
Proof.
  intros Hp. unfold newInteriorNode. keeps_go P fail.
Qed.

Lemma keeps_insertLoop fuel indexBits toAdd :
  P toAdd →
  ∀ depth nodePointer, ptr_in P nodePointer →
    keeps I (insertLoop fuel indexBits toAdd depth nodePointer)
      (fun _ => True).
Proof.
  intros Ht. induction fuel as [|fuel IH]; intros depth nodePointer Hn.
  - apply keeps_outOfFuel.
  - simpl.
    keeps_go P ltac:(first
      [ apply keeps_newInteriorNode; solve [region_solve]
      | apply IH; solve [region_solve] ]).
Qed.

Lemma keeps_insertNode m index toAdd :
  ptr_in P m → P toAdd →
  keeps I (MerkleTree_insertNode m index toAdd) (fun _ => True).
Proof.
  intros Hm Ht. unfold MerkleTree_insertNode.
  keeps_go P ltac:(apply keeps_insertLoop; solve [region_solve]).
Qed.

Lemma keeps_Set salt m index key value :
  ptr_in P m →
  keeps I (MerkleTree_Set salt m index key value) (fun _ => True).
Proof.
  intros Hm. unfold MerkleTree_Set.
  keeps_go P ltac:(apply keeps_insertNode; solve [region_solve]).
Qed.

Lemma keeps_runSets m calls :
  ptr_in P m → keeps I (runSets m calls) (fun _ => True).
Proof.
  intros Hm. induction calls as [|c calls IH]; simpl.
  - by apply keeps_ret.
  - keeps_go P ltac:(first [ apply keeps_Set; solve [region_solve]
                           | apply IH ]).
Qed.

(** Cloning reads anywhere and writes only what it allocates. *)
Lemma keeps_interiorNode_clone (cloneOf : ptr → ptr → M ptr) n parent :
  (∀ n parent, ptr_in P parent → keeps I (cloneOf n parent) (ptr_in P)) →
  ptr_in P parent →
  keeps I (interiorNode_clone cloneOf n parent) (ptr_in P).
Proof.
  intros IH Hp. unfold interiorNode_clone.
  eapply keeps_bind; [apply keeps_asInterior_any|]. intros cur _.
  eapply keeps_bind; [apply keeps_new; region_solve|]. intros newNode Hnew.
  eapply keeps_bind; [apply keeps_asInterior_any|]. intros cur' _.
  destruct (_ || _); [apply keeps_panic|].
  eapply keeps_bind; [by apply IH|]. intros l Hl.
  eapply keeps_bind; [apply keeps_updInterior; region_solve|]. intros _ _.
  eapply keeps_bind; [apply keeps_asInterior_any|]. intros cur'' _.
  eapply keeps_bind; [by apply IH|]. intros r Hr.
  eapply keeps_bind; [apply keeps_updInterior; region_solve|]. intros _ _.
  by apply keeps_ret.
Qed.

Lemma keeps_merkleNode_clone fuel :
  ∀ n parent, ptr_in P parent →
    keeps I (merkleNode_clone fuel n parent) (ptr_in P).
Proof.
  induction fuel as [|fuel IH]; intros n parent Hp.
  - apply keeps_outOfFuel.
  - simpl.
    eapply keeps_bind; [apply keeps_liftOpt_any|]. intros a _.
    eapply keeps_bind; [apply keeps_deref_any|]. intros o _.
    destruct o as [i|u|e|t].
    + by apply keeps_interiorNode_clone.
    + unfold userLeafNode_clone. keeps_go P fail.
    + unfold emptyNode_clone. keeps_go P fail.
    + apply keeps_panic.
Qed.

Lemma keeps_Clone fuel m :
  keeps I (MerkleTree_Clone fuel m) (ptr_in P).
Proof.
  unfold MerkleTree_Clone.
  eapply keeps_bind; [apply keeps_asTree_any|]. intros t _.
  eapply keeps_bind; [apply keeps_liftOpt_any|]. intros r _.
  eapply keeps_bind;
    [apply keeps_interiorNode_clone; [apply keeps_merkleNode_clone | done]|].
  intros root' Hr.
  eapply keeps_bind; [apply keeps_asTree_any|]. intros t' _.
  keeps_go P fail.
Qed.

(** Hashing writes the cached hashes of the nodes it visits. *)
Lemma keeps_interiorNode_hash (hashOf : ptr → ptr → M (list byte)) n m :
  (∀ n, ptr_in P n → keeps I (hashOf n m) (fun _ => True)) →
  P n →
  keeps I (interiorNode_hash hashOf n m) (fun _ => True).
Proof.
  intros IH Hn. unfold interiorNode_hash.
  keeps_go P ltac:(apply IH; solve [region_solve]).
Qed.

Lemma keeps_merkleNode_hash fuel m :
  ∀ n, ptr_in P n → keeps I (merkleNode_hash fuel n m) (fun _ => True).
Proof.
  induction fuel as [|fuel IH]; intros n Hn.
  - apply keeps_outOfFuel.
  - simpl.
    eapply keeps_bind; [by apply (keeps_liftOpt_ptr P)|]. intros a Ha.
    eapply keeps_bind; [apply keeps_deref_any|]. intros o _.
    destruct o as [i|u|e|t].
    + by apply keeps_interiorNode_hash.
    + unfold userLeafNode_hash.
      eapply keeps_bind; [apply keeps_asTree_any|]. intros; by apply keeps_ret.
    + unfold emptyNode_hash.
      eapply keeps_bind; [apply keeps_asTree_any|]. intros; by apply keeps_ret.
    + apply keeps_panic.
Qed.

Lemma keeps_recomputeHash fuel m :
  ptr_in P m → keeps I (MerkleTree_recomputeHash fuel m) (fun _ => True).
Proof.
  intros Hm. unfold MerkleTree_recomputeHash.
  keeps_go P ltac:(apply keeps_interiorNode_hash;
                   [ intros; apply keeps_merkleNode_hash | ];
                   solve [region_solve]).
Qed.

End RegionCode.

Section FrameCode.
Context {platform : Platform} {crypto : Crypto}.
Context (P : loc → Prop) (h0 : heap).

Abbreviation F := (region_inv P (fun _ => True) h0).

(** Whatever it is given, cloning writes only what it allocates. *)
Lemma frame_interiorNode_clone (cloneOf : ptr → ptr → M ptr) n parent :
  (∀ n parent, keeps F (cloneOf n parent) (fun _ => True)) →
  keeps F (interiorNode_clone cloneOf n parent) (fun _ => True).
Proof.
  intros IH. unfold interiorNode_clone.
  eapply keeps_bind; [apply keeps_asInterior_any|]. intros cur _.
  eapply keeps_bind; [by apply keeps_new|]. intros newNode Hnew.
  eapply keeps_bind; [apply keeps_asInterior_any|]. intros cur' _.
  destruct (_ || _); [apply keeps_panic|].
  eapply keeps_bind; [by apply IH|]. intros l Hl.
  eapply keeps_bind; [by apply keeps_updInterior|]. intros _ _.
  eapply keeps_bind; [apply keeps_asInterior_any|]. intros cur'' _.
  eapply keeps_bind; [by apply IH|]. intros r Hr.
  eapply keeps_bind; [by apply keeps_updInterior|]. intros _ _.
  by apply keeps_ret.
Qed.

Lemma frame_merkleNode_clone fuel :
  ∀ n parent, keeps F (merkleNode_clone fuel n parent) (fun _ => True).
Proof.
  induction fuel as [|fuel IH]; intros n parent.
  - apply keeps_outOfFuel.
  - simpl.
    eapply keeps_bind; [apply keeps_liftOpt_any|]. intros a _.
    eapply keeps_bind; [apply keeps_deref_any|]. intros o _.
    destruct o as [i|u|e|t].
    + by apply frame_interiorNode_clone.
    + unfold userLeafNode_clone.
      eapply keeps_bind; [by apply keeps_new|]. intros; by apply keeps_ret.
    + unfold emptyNode_clone.
      eapply keeps_bind; [by apply keeps_new|]. intros; by apply keeps_ret.
    + apply keeps_panic.
Qed.

End FrameCode.

(** ** Clone isolation *)

Lemma ptr_in_mono (P Q : loc → Prop) p :
  (∀ a, P a → Q a) → ptr_in P p → ptr_in Q p.
Proof. destruct p; simpl; auto. Qed.

Lemma obj_in_mono (P Q : loc → Prop) o :
  (∀ a, P a → Q a) → obj_in P o → obj_in Q o.
Proof.
  intros HPQ Ho. unfold obj_in in *. eapply Forall_impl; [exact Ho|].
  intros p. by apply ptr_in_mono.
Qed.

(** What is reachable from a pointer into a closed region lies in it. *)
Lemma reach_closed (P : loc → Prop) h p a :
  closed P h → ptr_in P p → reach h p a → P a.
Proof.
  intros Hc Hp Hr. induction Hr as [a o Ho|a m b Ho Hr IH|a n b Ho Hr IH|a n b Ho Hr IH].
  - done.
  - apply IH. by apply (obj_in_tree P), (Hc a).
  - apply IH. by apply (obj_in_interior P), (Hc a).
  - apply IH. by apply (obj_in_interior P), (Hc a).
Qed.

Lemma reach_allocated h p a : reach h p a → is_Some (h !! a).
Proof. induction 1; eauto. Qed.

(** Reachability only looks at the structs it passes. *)
Lemma reach_agree h h' p a :
  (∀ b, reach h p b → h' !! b = h !! b) → reach h p a → reach h' p a.
Proof.
  intros Hag Hr. induction Hr as [a o Ho|a m b Ho Hr IH|a n b Ho Hr IH|a n b Ho Hr IH].
  - apply reach_here with o. rewrite Hag; [done|]. by eapply reach_here.
  - eapply reach_root.
    + rewrite Hag; [done|]. by eapply reach_here.
    + apply IH. intros c Hc. apply Hag. by eapply reach_root.
  - eapply reach_left.
    + rewrite Hag; [done|]. by eapply reach_here.
    + apply IH. intros c Hc. apply Hag. by eapply reach_left.
  - eapply reach_right.
    + rewrite Hag; [done|]. by eapply reach_here.
    + apply IH. intros c Hc. apply Hag. by eapply reach_right.
Qed.

Lemma region_inv_start_high (G : object → Prop) (h : heap) :
  region_inv (fun a => (length h ≤ a)%nat) G h h.
Proof.
  split.
  - intros a o Ha Ho. apply lookup_lt_Some in Ho. lia.
  - done.
  - done.
Qed.

Section CloneIsolation.
Context {platform : Platform} {crypto : Crypto}.

(** The clone lies above the store it was made in, which it leaves as it
    was. *)
Lemma Clone_region fuel (m : ptr) (h h1 : heap) (m' : ptr) :
  MerkleTree_Clone fuel m h = (h1, Val m') →
  region_inv (fun a => (length h ≤ a)%nat)
    (obj_in (fun a => (length h ≤ a)%nat)) h h1
  ∧ ptr_in (fun a => (length h ≤ a)%nat) m'
  ∧ ptr_in (fun a => (a < length h)%nat) m.
Proof.
  intros Hc.
  destruct (keeps_Clone _ h fuel m h h1 (Val m') (region_inv_start_high _ h) Hc)
    as [Hi Hm'].
  split; [done|]. split; [done|].
  unfold MerkleTree_Clone in Hc.
  apply bind_val_inv in Hc as (h2 & t & Ht & _).
  apply asTree_val_inv in Ht as (_ & a & -> & Ha).
  simpl. by apply lookup_lt_Some in Ha.
Qed.

(** C9: after [Clone], no sequence of [Set] calls on one of the two trees
    changes a struct of the other: the other tree's [MerkleTree] struct
    (nonce, root, hash) and every node reachable from its root (with its
    value, index, level and commitment) are the same before and after, and
    so is the set of reachable nodes.  This holds for the store as a run
    leaves it, also when a [Set] panics.  [h] is any store without
    dangling pointers. *)
Theorem Clone_isolation fuel (m m' : ptr) (h h1 : heap) :
  no_dangling h →
  MerkleTree_Clone fuel m h = (h1, Val m') →
  ∀ calls (h2 : heap) r,
    (runSets m' calls h1 = (h2, r) →
       ∀ a, reach h1 m a → h2 !! a = h1 !! a ∧ reach h2 m a)
    ∧ (runSets m calls h1 = (h2, r) →
         ∀ a, reach h1 m' a → h2 !! a = h1 !! a ∧ reach h2 m' a).
Proof.
  intros Hnd Hclone calls h2 r.
  destruct (Clone_region _ _ _ _ _ Hclone) as (Hi1 & Hm' & Hm).
  assert (Hlow1 : ∀ a, (a < length h)%nat → h1 !! a = h !! a).
  { intros a Ha. apply (ri_outside _ _ _ _ Hi1). simpl. lia. }
  assert (Hclosed_low : closed (fun a => (a < length h)%nat) h1).
  { intros a o Ha Ho. rewrite Hlow1 in Ho by done. by apply (Hnd a). }
  split; intros Hrun.
  - (* the calls are made on the clone *)
    destruct (keeps_runSets _ h m' calls Hm' h1 h2 r Hi1 Hrun) as [Hi2 _].
    assert (Hsame : ∀ a, reach h1 m a → h2 !! a = h1 !! a).
    { intros a Ha.
      pose proof (reach_closed _ _ _ _ Hclosed_low Hm Ha) as Hlt.
      simpl in Hlt. rewrite Hlow1 by done. apply (ri_outside _ _ _ _ Hi2).
      simpl. lia. }
    intros a Ha. split; [by apply Hsame | by apply (reach_agree h1)].
  - (* the calls are made on the original *)
    set (P := fun a => (a < length h)%nat ∨ (length h1 ≤ a)%nat).
    assert (Hi : region_inv P (obj_in P) h1 h1).
    { split.
      - intros a o [Ha|Ha] Ho.
        + eapply obj_in_mono; [|by apply (Hclosed_low a)].
          intros b Hb. by left.
        + apply lookup_lt_Some in Ho. lia.
      - done.
      - intros a Ha. by right. }
    assert (HmP : ptr_in P m).
    { eapply ptr_in_mono; [|exact Hm]. intros b Hb. by left. }
    destruct (keeps_runSets _ h1 m calls HmP h1 h2 r Hi Hrun) as [Hi2 _].
    assert (Hsame : ∀ a, reach h1 m' a → h2 !! a = h1 !! a).
    { intros a Ha.
      pose proof (reach_closed _ _ _ _ (ri_closed _ _ _ _ Hi1) Hm' Ha) as Hge.
      pose proof (reach_allocated _ _ _ Ha) as [o Ho].
      apply lookup_lt_Some in Ho.
      apply (ri_outside _ _ _ _ Hi2). unfold P. simpl in Hge. lia. }
    intros a Ha. split; [by apply Hsame | by apply (reach_agree h1)].
Qed.

End CloneIsolation.

(** ** What [Clone] copies *)

Lemma region_inv_length G (h0 h : heap) (b : nat) :
  region_inv (fun a => (b ≤ a)%nat) G h0 h → (b ≤ length h)%nat.
Proof. intros Hi. by apply (ri_fresh _ _ _ _ Hi (length h)). Qed.

Lemma new_eq (o : object) (h : heap) : new o h = (h ++ [o], Val (length h)).
Proof. reflexivity. Qed.

Lemma lookup_alloc (h : heap) (o : object) : (h ++ [o]) !! length h = Some o.
Proof. rewrite lookup_app_r by lia. by rewrite Nat.sub_diag. Qed.

Section CloneCopies.
Context {platform : Platform} {crypto : Crypto}.

(** The clone of an interior node is a new node that holds copies of the
    two cached hashes; what the clones of the children allocate lies
    above it. *)
Lemma interiorNode_clone_result fuel (a : loc) (p : ptr) n (h h' : heap) c :
  h !! a = Some (ObjInterior n) →
  interiorNode_clone (merkleNode_clone fuel) a p h = (h', Val c) →
  c = Some (length h)
  ∧ (∀ b, (b < length h)%nat → h' !! b = h !! b)
  ∧ ∃ l r,
      h' !! length h = Some (ObjInterior
        {| i_node := {| parent := p; level := level (i_node n) |};
           leftChild := l; rightChild := r;
           leftHash := copyOfBs (leftHash n);
           rightHash := copyOfBs (rightHash n) |}).
Proof.
  intros Ha Hc. unfold interiorNode_clone in Hc.
  pose proof (lookup_lt_Some _ _ _ Ha) as Hlt.
  rewrite (bind_eq _ _ _ _ _ (asInterior_eq _ _ _ Ha)) in Hc.
  rewrite (bind_eq _ _ _ _ _ (new_eq _ _)) in Hc.
  set (N0 := {| i_node := {| parent := p; level := level (i_node n) |};
                leftChild := None; rightChild := None;
                leftHash := copyOfBs (leftHash n);
                rightHash := copyOfBs (rightHash n) |}) in *.
  set (h1 := h ++ [ObjInterior N0]) in *.
  assert (Ha1 : h1 !! a = Some (ObjInterior n)).
  { unfold h1. by rewrite lookup_app_l. }
  assert (Hlen1 : length h1 = S (length h)).
  { unfold h1. rewrite length_app. simpl. lia. }
  rewrite (bind_eq _ _ _ _ _ (asInterior_eq _ _ _ Ha1)) in Hc.
  destruct (_ || _); [discriminate|].
  apply bind_val_inv in Hc as (h2 & l & Hl & Hc).
  destruct (frame_merkleNode_clone (fun b => (length h1 ≤ b)%nat) h1 fuel
              (leftChild n) (Some (length h))
              h1 h2 (Val l) (region_inv_start_high _ h1) Hl) as [Hi2 _].
  pose proof (region_inv_length _ _ _ _ Hi2) as Hlen2.
  assert (Hlow2 : ∀ b, (b < length h1)%nat → h2 !! b = h1 !! b).
  { intros b Hb. apply (ri_outside _ _ _ _ Hi2). simpl. lia. }
  assert (HN2 : h2 !! length h = Some (ObjInterior N0)).
  { rewrite Hlow2 by lia. apply lookup_alloc. }
  rewrite (bind_eq _ _ _ _ _ (updInterior_eq _ _ _ _ HN2)) in Hc.
  set (h3 := <[length h := ObjInterior (with_leftChild l N0)]> h2) in *.
  assert (Hlen3 : length h3 = length h2) by apply length_insert.
  assert (Ha3 : h3 !! a = Some (ObjInterior n)).
  { unfold h3. rewrite list_lookup_insert_ne by lia.
    rewrite Hlow2 by lia. done. }
  rewrite (bind_eq _ _ _ _ _ (asInterior_eq _ _ _ Ha3)) in Hc.
  apply bind_val_inv in Hc as (h4 & r & Hr & Hc).
  destruct (frame_merkleNode_clone (fun b => (length h3 ≤ b)%nat) h3 fuel
              (rightChild n) (Some (length h))
              h3 h4 (Val r) (region_inv_start_high _ h3) Hr) as [Hi4 _].
  assert (Hlow4 : ∀ b, (b < length h3)%nat → h4 !! b = h3 !! b).
  { intros b Hb. apply (ri_outside _ _ _ _ Hi4). simpl. lia. }
  assert (HN4 : h4 !! length h = Some (ObjInterior (with_leftChild l N0))).
  { rewrite Hlow4 by lia. unfold h3. apply list_lookup_insert_eq. lia. }
  rewrite (bind_eq _ _ _ _ _ (updInterior_eq _ _ _ _ HN4)) in Hc.
  inversion Hc; subst h' c; clear Hc.
  split; [done|]. split.
  - intros b Hb. rewrite list_lookup_insert_ne by lia.
    rewrite Hlow4 by lia. unfold h3. rewrite list_lookup_insert_ne by lia.
    rewrite Hlow2 by lia. unfold h1. by rewrite lookup_app_l.
  - exists l, r. rewrite list_lookup_insert_eq; [done|].
    pose proof (region_inv_length _ _ _ _ Hi4). lia.
Qed.

(** An interior node whose cached hashes are both present hashes them
    without looking at its children. *)
Lemma interiorNode_hash_cached (hashOf : ptr → ptr → M (list byte))
    (a : loc) (m : ptr) n lh rh (h : heap) :
  h !! a = Some (ObjInterior n) →
  leftHash n = Some lh → rightHash n = Some rh →
  interiorNode_hash hashOf a m h = (h, Val (Digest [lh; rh])).
Proof.
  intros Ha Hl Hr. unfold interiorNode_hash.
  rewrite (bind_eq _ _ _ _ _ (asInterior_eq _ _ _ Ha)). rewrite Hl. simpl.
  unfold bind at 1. simpl.
  rewrite (bind_eq _ _ _ _ _ (asInterior_eq _ _ _ Ha)). rewrite Hr. simpl.
  unfold bind at 1. simpl.
  rewrite (bind_eq _ _ _ _ _ (asInterior_eq _ _ _ Ha)). rewrite Hl, Hr.
  reflexivity.
Qed.

(** The root hash recomputed on a clone is the digest of the two cached
    hashes of the original root, a missing one read as the empty string:
    nothing below the root is hashed again. *)
Lemma Clone_recomputeHash f1 f2 (m c : ptr) (a r : loc) t n (h h1 : heap) :
  h !! a = Some (ObjTree t) → m = Some a →
  root t = Some r → h !! r = Some (ObjInterior n) →
  MerkleTree_Clone f1 m h = (h1, Val c) →
  ∃ h2 c' t',
    c = Some c'
    ∧ MerkleTree_recomputeHash f2 c h1 = (h2, Val tt)
    ∧ h2 !! c' = Some (ObjTree t')
    ∧ hash t' =
        Some (Digest [bytesOf (leftHash n); bytesOf (rightHash n)]).
Proof.
  intros Ha -> Hroot Hr Hc. unfold MerkleTree_Clone in Hc.
  rewrite (bind_eq _ _ _ _ _ (asTree_eq _ _ _ Ha)) in Hc.
  rewrite Hroot in Hc. simpl in Hc. unfold bind at 1 in Hc. simpl in Hc.
  apply bind_val_inv in Hc as (h' & root' & Hcl & Hc).
  destruct (interiorNode_clone_result _ _ _ _ _ _ _ Hr Hcl)
    as (-> & Hlow & l & rr & HN).
  pose proof (lookup_lt_Some _ _ _ Ha) as Hlt.
  assert (Ha' : h' !! a = Some (ObjTree t)) by (by rewrite Hlow).
  rewrite (bind_eq _ _ _ _ _ (asTree_eq _ _ _ Ha')) in Hc.
  rewrite (bind_eq _ _ _ _ _ (new_eq _ _)) in Hc.
  inversion Hc; subst h1 c; clear Hc.
  set (T := {| nonce := copyOfBs (nonce t); root := Some (length h);
               hash := copyOfBs (hash t) |}).
  pose proof (lookup_lt_Some _ _ _ HN) as HltN.
  eexists _, (length h'), _. split; [done|].
  unfold MerkleTree_recomputeHash.
  rewrite (bind_eq _ _ _ _ _ (asTree_eq _ _ T (lookup_alloc _ _))).
  simpl. unfold bind at 1. simpl.
  erewrite bind_eq;
    [| eapply interiorNode_hash_cached;
       [rewrite lookup_app_l by done; exact HN | reflexivity | reflexivity]].
  unfold bind at 1. simpl.
  rewrite (updTree_eq _ _ T) by apply lookup_alloc.
  split; [reflexivity|].
  rewrite list_lookup_insert_eq by (rewrite length_app; simpl; lia).
  split; [reflexivity|]. reflexivity.
Qed.

(** C10: [copyOfBs] turns the nil slice into an empty one that is not nil;
    so the clone of an interior node whose cached child hash is nil (to be
    recomputed) holds an empty cached hash that is not nil; and for the
    tree [NewMerkleTree] returns, whose cached hashes are nil, the root hash
    recomputed on the clone is the digest of two empty strings, while the
    one recomputed on the original is the digest of the hashes of its two
    empty children: they differ, unless the hash collides on these two
    inputs. *)
Theorem Clone_loses_dirty_marker (rand : list byte) :
  let lh := Digest [emptyBranchBs; rand; ToBytes [false]; UInt32ToBytes 1] in
  let rh := Digest [emptyBranchBs; rand; ToBytes [true]; UInt32ToBytes 1] in
  Digest [[]; []] ≠ Digest [lh; rh] →
  copyOfBs None = Some []
  ∧ (∀ fuel (a : loc) (p : ptr) n (h h' : heap) c,
       h !! a = Some (ObjInterior n) →
       merkleNode_clone (S fuel) (Some a) p h = (h', Val c) →
       ∃ c' n',
         c = Some c' ∧ h' !! c' = Some (ObjInterior n')
         ∧ (leftHash n = None → leftHash n' = Some [])
         ∧ (rightHash n = None → rightHash n' = Some []))
  ∧ ∃ original clone : slice,
      snd (cloneFreshTree rand []) = Val (original, clone)
      ∧ original = Some (Digest [lh; rh])
      ∧ clone = Some (Digest [[]; []])
      ∧ original ≠ clone.
Proof.
  intros lh rh Hcol. split; [reflexivity|]. split.
  - intros fuel a p n h h' c Ha Hc. simpl in Hc.
    unfold bind at 1 in Hc. simpl in Hc.
    rewrite (bind_eq _ _ _ _ _ (deref_eq _ _ _ Ha)) in Hc.
    destruct (interiorNode_clone_result _ _ _ _ _ _ _ Ha Hc)
      as (-> & _ & l & r & HN).
    eexists _, _. split; [reflexivity|]. split; [exact HN|].
    simpl. split; intros ->; reflexivity.
  - exists (Some (Digest [lh; rh])), (Some (Digest [[]; []])).
    split; [reflexivity|]. split; [reflexivity|]. split; [reflexivity|].
    intros [= Heq]. by apply Hcol.
Qed.

End CloneCopies.

(** ** Hashing trees in the store *)

Lemma saddr_in (t : shape) : saddr t ∈ saddrs t.
Proof. destruct t; simpl; apply elem_of_cons; by left. Qed.

Lemma repr_frame (h h' : heap) (t : shape) :
  repr h t → (∀ a, a ∈ saddrs t → h' !! a = h !! a) → repr h' t.
Proof.
  induction t as [a n l IHl r IHr|a n|a n]; simpl; intros Hr Hag.
  - destruct Hr as (Ha & Hl & Hr & Hpl & Hpr & Hrl & Hrr).
    split; [rewrite Hag; [done | apply elem_of_cons; by left]|].
    do 4 (split; [done|]). split.
    + apply IHl; [done|]. intros b Hb. apply Hag.
      apply elem_of_cons. right. apply elem_of_app. by left.
    + apply IHr; [done|]. intros b Hb. apply Hag.
      apply elem_of_cons. right. apply elem_of_app. by right.
  - rewrite Hag; [done | apply elem_of_cons; by left].
  - rewrite Hag; [done | apply elem_of_cons; by left].
Qed.

Lemma repr_allocated (h : heap) (t : shape) a :
  repr h t → a ∈ saddrs t → (a < length h)%nat.
Proof.
  induction t as [b n l IHl r IHr|b n|b n]; simpl; intros Hr Ha.
  - destruct Hr as (Hb & _ & _ & _ & _ & Hrl & Hrr).
    apply elem_of_cons in Ha as [->|Ha].
    + by apply lookup_lt_Some in Hb.
    + apply elem_of_app in Ha as [Ha|Ha]; auto.
  - apply list_elem_of_singleton in Ha as ->. by apply lookup_lt_Some in Hr.
  - apply list_elem_of_singleton in Ha as ->. by apply lookup_lt_Some in Hr.
Qed.

Lemma NoDup_interior a (l r : shape) :
  NoDup (a :: saddrs l ++ saddrs r) →
  (a ∉ saddrs l) ∧ (a ∉ saddrs r) ∧ NoDup (saddrs l) ∧ NoDup (saddrs r)
  ∧ (∀ x, x ∈ saddrs l → x ∉ saddrs r).
Proof.
  intros Hnd. apply NoDup_cons in Hnd as [Ha Hnd].
  apply NoDup_app in Hnd as (Hl & Hd & Hr).
  rewrite elem_of_app in Ha. tauto.
Qed.

Lemma with_leftHash_id n c : leftHash n = Some c → with_leftHash (Some c) n = n.
Proof. destruct n; simpl; by intros ->. Qed.

Lemma with_rightHash_id n c :
  rightHash n = Some c → with_rightHash (Some c) n = n.
Proof. destruct n; simpl; by intros ->. Qed.

Section HashRefines.
Context {platform : Platform} {crypto : Crypto}.

Lemma saddr_sfill nonce t : saddr (sfill nonce t) = saddr t.
Proof. by destruct t. Qed.

Lemma sparent_sfill nonce t : sparent (sfill nonce t) = sparent t.
Proof. by destruct t. Qed.

Lemma saddrs_sfill nonce t : saddrs (sfill nonce t) = saddrs t.
Proof.
  induction t as [a n l IHl r IHr|a n|a n]; simpl; [|done|done].
  f_equal. f_equal; [destruct (isNil (leftHash n))|destruct (isNil (rightHash n))];
    done.
Qed.

Lemma userLeafNode_hash_eq (h : heap) (m : loc) tr n :
  h !! m = Some (ObjTree tr) →
  userLeafNode_hash n (Some m) h =
    (h, Val (Digest [emptyLeafBs; bytesOf (nonce tr); bytesOf (index n);
                     UInt32ToBytes (level (u_node n));
                     bytesOf (Hash (commitment n))])).
Proof.
  intros Hm. unfold userLeafNode_hash.
  by rewrite (bind_eq _ _ _ _ _ (asTree_eq _ _ _ Hm)).
Qed.

Lemma emptyNode_hash_eq (h : heap) (m : loc) tr n :
  h !! m = Some (ObjTree tr) →
  emptyNode_hash n (Some m) h =
    (h, Val (Digest [emptyBranchBs; bytesOf (nonce tr); bytesOf (e_index n);
                     UInt32ToBytes (level (e_node n))])).
Proof.
  intros Hm. unfold emptyNode_hash.
  by rewrite (bind_eq _ _ _ _ _ (asTree_eq _ _ _ Hm)).
Qed.

Lemma merkleNode_hash_S fuel (a : loc) m (h : heap) o :
  h !! a = Some o →
  merkleNode_hash (S fuel) (Some a) m h =
    match o with
    | ObjInterior _ => interiorNode_hash (merkleNode_hash fuel) a m h
    | ObjUserLeaf u => userLeafNode_hash u m h
    | ObjEmpty e => emptyNode_hash e m h
    | ObjTree _ => (h, Panic)
    end.
Proof.
  intros Ha. simpl. unfold bind at 1; simpl.
  rewrite (bind_eq _ _ _ _ _ (deref_eq _ _ _ Ha)). by destruct o.
Qed.

(** [hash] on a tree in the store returns [shash] and leaves the tree
    with its cached hashes filled in; nothing else is written. *)
Lemma hash_refines (nc : slice) (t : shape) :
  ∀ fuel (h : heap) (m : loc) tr,
    repr h t → NoDup (saddrs t) → m ∉ saddrs t →
    h !! m = Some (ObjTree tr) → nc = nonce tr →
    (height t ≤ fuel)%nat →
    ∃ h' : heap,
      merkleNode_hash fuel (Some (saddr t)) (Some m) h
        = (h', Val (shash nc t))
      ∧ repr h' (sfill nc t)
      ∧ (∀ a, a ∉ saddrs t → h' !! a = h !! a)
      ∧ length h' = length h.
Proof.
  induction t as [a n l IHl r IHr|a n|a n];
    intros fuel h m tr Hrep Hnd Hm Htr Hnonce Hfuel;
    (destruct fuel as [|fuel]; [simpl in Hfuel; lia|]).
  - simpl in Hrep. destruct Hrep as (Ha & Hlc & Hrc & Hpl & Hpr & Hrl & Hrr).
    simpl in Hnd. apply NoDup_interior in Hnd as (Hal & Har & Hndl & Hndr & Hdis).
    simpl in Hm. rewrite not_elem_of_cons, not_elem_of_app in Hm.
    destruct Hm as (Hma & Hml & Hmr).
    simpl in Hfuel.
    rewrite (merkleNode_hash_S _ _ _ _ _ Ha). unfold interiorNode_hash.
    rewrite (bind_eq _ _ _ _ _ (asInterior_eq _ _ _ Ha)).
    (* the left child *)
    assert (Hleft : ∃ h1 : heap,
      (if isNil (leftHash n)
       then do x <- merkleNode_hash fuel (leftChild n) (Some m);
            updInterior a (with_leftHash (Some x))
       else ret tt) h = (h1, Val tt)
      ∧ h1 !! a = Some (ObjInterior
          (with_leftHash (Some (cached_or (leftHash n) (shash nc l))) n))
      ∧ repr h1 (if isNil (leftHash n) then sfill nc l else l)
      ∧ (∀ b, b ≠ a → b ∉ saddrs l → h1 !! b = h !! b)
      ∧ length h1 = length h).
    { destruct (leftHash n) as [c|] eqn:Hlh; simpl.
      - exists h. split; [done|]. rewrite with_leftHash_id by done. done.
      - destruct (IHl fuel h m tr Hrl Hndl Hml Htr Hnonce ltac:(lia))
          as (h1 & Hrun & Hrep1 & Hfr1 & Hlen1).
        rewrite Hlc. rewrite (bind_eq _ _ _ _ _ Hrun).
        assert (Ha1 : h1 !! a = Some (ObjInterior n)) by (by rewrite Hfr1).
        rewrite (updInterior_eq _ _ _ _ Ha1).
        eexists. split; [reflexivity|].
        split; [apply list_lookup_insert_eq; by apply lookup_lt_Some in Ha1|].
        split; [|split].
        + eapply repr_frame; [exact Hrep1|]. intros b Hb.
          rewrite saddrs_sfill in Hb.
          apply list_lookup_insert_ne. by intros ->.
        + intros b Hba Hbl. rewrite list_lookup_insert_ne by done. auto.
        + by rewrite length_insert. }
    destruct Hleft as (h1 & Hrun1 & Ha1 & Hrep1 & Hfr1 & Hlen1).
    rewrite (bind_eq _ _ _ _ _ Hrun1).
    rewrite (bind_eq _ _ _ _ _ (asInterior_eq _ _ _ Ha1)).
    set (n1 := with_leftHash (Some (cached_or (leftHash n) (shash nc l))) n) in *.
    (* the right child *)
    assert (Hrr1 : repr h1 r).
    { eapply repr_frame; [exact Hrr|]. intros b Hb. apply Hfr1.
      - by intros ->.
      - intros Hbl. by apply (Hdis b). }
    assert (Htr1 : h1 !! m = Some (ObjTree tr)) by (by rewrite Hfr1).
    assert (Hright : ∃ h2 : heap,
      (if isNil (rightHash n1)
       then do x <- merkleNode_hash fuel (rightChild n1) (Some m);
            updInterior a (with_rightHash (Some x))
       else ret tt) h1 = (h2, Val tt)
      ∧ h2 !! a = Some (ObjInterior
          (with_rightHash (Some (cached_or (rightHash n) (shash nc r))) n1))
      ∧ repr h2 (if isNil (rightHash n) then sfill nc r else r)
      ∧ (∀ b, b ≠ a → b ∉ saddrs r → h2 !! b = h1 !! b)
      ∧ length h2 = length h1).
    { change (rightHash n1) with (rightHash n).
      change (rightChild n1) with (rightChild n).
      destruct (rightHash n) as [c|] eqn:Hrh; simpl.
      - exists h1. split; [done|].
        rewrite with_rightHash_id by done. done.
      - destruct (IHr fuel h1 m tr Hrr1 Hndr Hmr Htr1 Hnonce ltac:(lia))
          as (h2 & Hrun & Hrep2 & Hfr2 & Hlen2).
        rewrite Hrc. rewrite (bind_eq _ _ _ _ _ Hrun).
        assert (Ha2 : h2 !! a = Some (ObjInterior n1)) by (by rewrite Hfr2).
        rewrite (updInterior_eq _ _ _ _ Ha2).
        eexists. split; [reflexivity|].
        split; [apply list_lookup_insert_eq; by apply lookup_lt_Some in Ha2|].
        split; [|split].
        + eapply repr_frame; [exact Hrep2|]. intros b Hb.
          rewrite saddrs_sfill in Hb.
          apply list_lookup_insert_ne. by intros ->.
        + intros b Hba Hbl. rewrite list_lookup_insert_ne by done. auto.
        + by rewrite length_insert. }
    destruct Hright as (h2 & Hrun2 & Ha2 & Hrep2 & Hfr2 & Hlen2).
    rewrite (bind_eq _ _ _ _ _ Hrun2).
    rewrite (bind_eq _ _ _ _ _ (asInterior_eq _ _ _ Ha2)).
    exists h2. split; [reflexivity|]. split; [|split].
    + simpl. split; [exact Ha2|]. simpl.
      split; [by destruct (isNil (leftHash n)); rewrite ?saddr_sfill|].
      split; [by destruct (isNil (rightHash n)); rewrite ?saddr_sfill|].
      split; [by destruct (isNil (leftHash n)); rewrite ?sparent_sfill|].
      split; [by destruct (isNil (rightHash n)); rewrite ?sparent_sfill|].
      split; [|exact Hrep2].
      eapply repr_frame; [exact Hrep1|]. intros b Hb.
      assert (Hbl : b ∈ saddrs l).
      { destruct (isNil (leftHash n)); [by rewrite saddrs_sfill in Hb | done]. }
      apply Hfr2; [by intros -> | by apply Hdis].
    + intros b Hb. simpl in Hb.
      rewrite not_elem_of_cons, not_elem_of_app in Hb.
      destruct Hb as (Hba & Hbl & Hbr).
      rewrite Hfr2 by done. by apply Hfr1.
    + lia.
  - simpl in Hrep. simpl saddr. rewrite (merkleNode_hash_S _ _ _ _ _ Hrep).
    subst nc. rewrite (userLeafNode_hash_eq _ _ _ _ Htr). by exists h.
  - simpl in Hrep. simpl saddr. rewrite (merkleNode_hash_S _ _ _ _ _ Hrep).
    subst nc. rewrite (emptyNode_hash_eq _ _ _ _ Htr). by exists h.
Qed.

(** [recomputeHash] on a tree: the [hash] field becomes the hash of the
    tree and the cached hashes are filled in. *)
Lemma recomputeHash_refines fuel (h : heap) (m : loc) (t : shape) tr :
  tree_at h m t → h !! m = Some (ObjTree tr) →
  (height t ≤ S fuel)%nat →
  ∃ h' : heap,
    MerkleTree_recomputeHash fuel (Some m) h = (h', Val tt)
    ∧ h' !! m = Some (ObjTree (with_hash (Some (shash (nonce tr) t)) tr))
    ∧ tree_at h' m (sfill (nonce tr) t)
    ∧ (∀ a, a ≠ m → a ∉ saddrs t → h' !! a = h !! a).
Proof.
  intros (tr' & Htr' & Hroot & Hint & Hrep & Hnd & Hm) Htr Hfuel.
  rewrite Htr in Htr'. injection Htr' as <-.
  destruct (hash_refines (nonce tr) t (S fuel) h m tr Hrep Hnd Hm Htr
              eq_refl Hfuel) as (h1 & Hrun & Hrep1 & Hfr1 & Hlen1).
  destruct t as [a n l r|a n|a n]; [|done|done].
  simpl in Hrep. destruct Hrep as (Ha & _).
  rewrite (merkleNode_hash_S _ _ _ _ _ Ha) in Hrun.
  unfold MerkleTree_recomputeHash.
  rewrite (bind_eq _ _ _ _ _ (asTree_eq _ _ _ Htr)).
  rewrite Hroot. simpl liftOpt. rewrite bind_ret.
  simpl saddr in *. rewrite (bind_eq _ _ _ _ _ Hrun).
  simpl liftOpt. rewrite bind_ret.
  assert (Htr1 : h1 !! m = Some (ObjTree tr)) by (by rewrite Hfr1).
  rewrite (updTree_eq _ _ _ _ Htr1).
  eexists. split; [reflexivity|].
  split; [apply list_lookup_insert_eq; by apply lookup_lt_Some in Htr1|].
  split.
  - exists (with_hash (Some (shash (nonce tr) (SInterior a n l r))) tr).
    split; [apply list_lookup_insert_eq; by apply lookup_lt_Some in Htr1|].
    split; [by rewrite saddr_sfill|]. split; [done|].
    split; [|by rewrite saddrs_sfill].
    eapply repr_frame; [exact Hrep1|]. intros b Hb.
    rewrite saddrs_sfill in Hb. apply list_lookup_insert_ne.
    by intros ->.
  - intros b Hbm Hb. rewrite list_lookup_insert_ne by done. by apply Hfr1.
Qed.

(** C3: with the nonce [K_n] of the tree, an empty node at index [i] and
    level [l] hashes to the digest of the byte 0x45, [K_n], [i] and [l]
    written as four bytes; a user leaf at index [i] and level [l] with
    commitment hash [c] hashes to the digest of the byte 0x4C, [K_n], [i],
    [l] as four bytes and [c]; an interior node of a tree hashes to the
    digest of its left and right hash, each of them the cached hash when
    one is present and else the hash computed from the child. *)
Theorem node_hash_rules :
  (∀ (h : heap) (m e : loc) tr n fuel,
     h !! m = Some (ObjTree tr) → h !! e = Some (ObjEmpty n) →
     merkleNode_hash (S fuel) (Some e) (Some m) h =
       (h, Val (Digest [["E"%byte]; bytesOf (nonce tr); bytesOf (e_index n);
                        UInt32ToBytes (level (e_node n))])))
  ∧ (∀ (h : heap) (m u : loc) tr n fuel,
       h !! m = Some (ObjTree tr) → h !! u = Some (ObjUserLeaf n) →
       merkleNode_hash (S fuel) (Some u) (Some m) h =
         (h, Val (Digest [["L"%byte]; bytesOf (nonce tr); bytesOf (index n);
                          UInt32ToBytes (level (u_node n));
                          bytesOf (Hash (commitment n))])))
  ∧ (∀ (h : heap) (m a : loc) tr n l r fuel,
       h !! m = Some (ObjTree tr) →
       repr h (SInterior a n l r) → NoDup (saddrs (SInterior a n l r)) →
       m ∉ saddrs (SInterior a n l r) →
       (height (SInterior a n l r) ≤ S fuel)%nat →
       ∃ (h' : heap) lh rh,
         merkleNode_hash (S fuel) (Some a) (Some m) h
           = (h', Val (Digest [lh; rh]))
         ∧ match leftHash n with
           | Some c => lh = c
           | None => ∃ h1 : heap,
               merkleNode_hash fuel (leftChild n) (Some m) h = (h1, Val lh)
           end
         ∧ match rightHash n with
           | Some c => rh = c
           | None => ∃ h1 : heap,
               merkleNode_hash fuel (rightChild n) (Some m) h = (h1, Val rh)
           end)
  ∧ (∀ l, length (UInt32ToBytes l) = 4%nat
          ∧ memory_value nativeEndian (UInt32ToBytes l) = wrap32 l).
Proof.
  split; [|split; [|split]].
  - intros h m e tr n fuel Hm He.
    rewrite (merkleNode_hash_S _ _ _ _ _ He). by apply emptyNode_hash_eq.
  - intros h m u tr n fuel Hm Hu.
    rewrite (merkleNode_hash_S _ _ _ _ _ Hu). by apply userLeafNode_hash_eq.
  - intros h m a tr n l r fuel Htr Hrep Hnd Hm Hfuel.
    destruct (hash_refines (nonce tr) _ (S fuel) h m tr Hrep Hnd Hm Htr
                eq_refl Hfuel) as (h' & Hrun & _).
    simpl in Hrun. simpl in Hfuel.
    destruct Hrep as (Ha & Hlc & Hrc & _ & _ & Hrl & Hrr).
    apply NoDup_interior in Hnd as (_ & _ & Hndl & Hndr & _).
    simpl in Hm. rewrite not_elem_of_cons, not_elem_of_app in Hm.
    destruct Hm as (_ & Hml & Hmr).
    exists h', (cached_or (leftHash n) (shash (nonce tr) l)),
      (cached_or (rightHash n) (shash (nonce tr) r)).
    split; [exact Hrun|]. split.
    + destruct (leftHash n); [done|]. simpl.
      destruct (hash_refines (nonce tr) l fuel h m tr Hrl Hndl Hml Htr
                  eq_refl ltac:(lia)) as (h1 & Hrun1 & _).
      exists h1. by rewrite Hlc.
    + destruct (rightHash n); [done|]. simpl.
      destruct (hash_refines (nonce tr) r fuel h m tr Hrr Hndr Hmr Htr
                  eq_refl ltac:(lia)) as (h1 & Hrun1 & _).
      exists h1. by rewrite Hrc.
  - intros l. apply UInt32ToBytes_encoding.
Qed.

End HashRefines.

(** ** Lookup *)

Lemma at_index_eq {A} (l : list A) (i : Z) (h : heap) :
  at_index l i h =
    (h, if i <? 0 then Panic
        else match l !! Z.to_nat i with Some x => Val x | None => Panic end).
Proof.
  unfold at_index. destruct (i <? 0); [done|]. by destruct (l !! Z.to_nat i).
Qed.

Lemma copyToHashArr_id (x : list byte) :
  length x = 32%nat → copyToHashArr (Some x) = x.
Proof.
  intros Hl. unfold copyToHashArr. simpl bytesOf.
  rewrite take_app_le by lia. apply firstn_all2. lia.
Qed.

Section Lookup.
Context {platform : Platform} {crypto : Crypto}.

(** The search loop of [Get] follows [swalk] and reads the cached hashes. *)
Lemma Get_searchLoop_refines (bits : list bool) (t : shape) :
  ∀ fuel depth (h : heap) pruned,
    repr h t → 0 ≤ depth →
    (0 < fuel)%nat → Z.of_nat (length bits) - depth < Z.of_nat fuel →
    Get_searchLoop fuel bits depth (Some (saddr t)) pruned h =
      (h, match swalk bits depth t with
          | Some (term, es) =>
              Val (Some (saddr term),
                   pruned ++ map (fun e => copyToHashArr (fst e)) es)
          | None => Panic
          end).
Proof.
  induction t as [a n l IHl r IHr|a n|a n];
    intros fuel depth h pruned Hrep Hd Hpos Hfuel;
    (destruct fuel as [|fuel]; [lia|]); simpl in Hrep |- *.
  - destruct Hrep as (Ha & Hlc & Hrc & _ & _ & Hrl & Hrr).
    rewrite (bind_eq _ _ _ _ _ (kind_eq _ _ _ Ha)).
    unfold bind at 1. rewrite at_index_eq.
    destruct (Z.ltb_spec depth 0); [lia|].
    destruct (bits !! Z.to_nat depth) as [dir|] eqn:Hbit; [|done].
    apply lookup_lt_Some in Hbit.
    rewrite (bind_eq _ _ _ _ _ (asInterior_eq _ _ _ Ha)).
    destruct dir.
    + rewrite Hrc, (IHr fuel (depth + 1) h _ Hrr) by lia.
      destruct (swalk bits (depth + 1) r) as [[term es]|]; [|done].
      simpl. by rewrite <- app_assoc.
    + rewrite Hlc, (IHl fuel (depth + 1) h _ Hrl) by lia.
      destruct (swalk bits (depth + 1) l) as [[term es]|]; [|done].
      simpl. by rewrite <- app_assoc.
  - rewrite (bind_eq _ _ _ _ _ (kind_eq _ _ _ Hrep)). simpl.
    by rewrite app_nil_r.
  - rewrite (bind_eq _ _ _ _ _ (kind_eq _ _ _ Hrep)). simpl.
    by rewrite app_nil_r.
Qed.

(** [Get] never runs out of fuel and leaves the store as it is. *)
Lemma Get_searchLoop_fuel (bits : list bool) :
  ∀ fuel depth nodePointer pruned (h h' : heap) r,
    0 ≤ depth →
    (0 < fuel)%nat → Z.of_nat (length bits) - depth < Z.of_nat fuel →
    Get_searchLoop fuel bits depth nodePointer pruned h = (h', r) →
    h' = h ∧ r ≠ OutOfFuel.
Proof.
  induction fuel as [|fuel IH]; intros depth p pruned h h' r Hd Hpos Hf Hrun;
    [lia|].
  simpl in Hrun.
  destruct p as [a|]; [|by inversion Hrun].
  unfold kind, bind at 1 2, deref in Hrun.
  destruct (h !! a) as [o|] eqn:Ha; [|by inversion Hrun].
  destruct o as [n|n|n|n]; simpl in Hrun; try (by inversion Hrun).
  unfold bind at 1 in Hrun. rewrite at_index_eq in Hrun.
  destruct (Z.ltb_spec depth 0); [lia|].
  destruct (bits !! Z.to_nat depth) as [dir|] eqn:Hbit;
    [|by inversion Hrun].
  apply lookup_lt_Some in Hbit.
  rewrite (bind_eq _ _ _ _ _ (asInterior_eq _ _ _ Ha)) in Hrun.
  destruct dir; eapply IH in Hrun; try done; lia.
Qed.

(** The current hashes of the siblings on the way are the hashes of the
    sibling subtrees. *)
Lemma siblingHashes_refines (bits : list bool) (nc : slice) (t : shape) :
  ∀ fuel hfuel depth (h : heap) (m : loc) tr term es,
    repr h t → NoDup (saddrs t) → m ∉ saddrs t →
    h !! m = Some (ObjTree tr) → nc = nonce tr →
    (height t ≤ S hfuel)%nat → 0 ≤ depth →
    (0 < fuel)%nat → Z.of_nat (length bits) - depth < Z.of_nat fuel →
    swalk bits depth t = Some (term, es) →
    siblingHashes fuel hfuel bits depth (Some (saddr t)) (Some m) h =
      map (fun e => Some (shash nc (snd e))) es.
Proof.
  induction t as [a n l IHl r IHr|a n|a n];
    intros fuel hfuel depth h m tr term es Hrep Hnd Hm Htr Hnonce Hh Hd Hpos
      Hfuel Hwalk;
    (destruct fuel as [|fuel]; [lia|]); simpl in Hrep, Hwalk |- *.
  - destruct Hrep as (Ha & Hlc & Hrc & _ & _ & Hrl & Hrr).
    apply NoDup_interior in Hnd as (_ & _ & Hndl & Hndr & _).
    simpl in Hm. rewrite not_elem_of_cons, not_elem_of_app in Hm.
    destruct Hm as (_ & Hml & Hmr). simpl in Hh.
    destruct (Z.ltb_spec depth 0); [lia|].
    rewrite Ha.
    destruct (bits !! Z.to_nat depth) as [dir|] eqn:Hbit; [|done].
    apply lookup_lt_Some in Hbit.
    destruct dir.
    + destruct (swalk bits (depth + 1) r) as [[term' es']|] eqn:Hw;
        [|done].
      injection Hwalk as <- <-. simpl. f_equal.
      * unfold currentHash. rewrite Hlc.
        destruct (hash_refines nc l hfuel h m tr Hrl Hndl Hml Htr Hnonce
                    ltac:(lia)) as (h1 & -> & _). done.
      * rewrite Hrc.
        by apply (IHr fuel hfuel (depth + 1) h m tr term');
          try done; lia.
    + destruct (swalk bits (depth + 1) l) as [[term' es']|] eqn:Hw;
        [|done].
      injection Hwalk as <- <-. simpl. f_equal.
      * unfold currentHash. rewrite Hrc.
        destruct (hash_refines nc r hfuel h m tr Hrr Hndr Hmr Htr Hnonce
                    ltac:(lia)) as (h1 & -> & _). done.
      * rewrite Hlc.
        by apply (IHl fuel hfuel (depth + 1) h m tr term');
          try done; lia.
  - injection Hwalk as <- <-. by rewrite Hrep.
  - injection Hwalk as <- <-. by rewrite Hrep.
Qed.

(** In a clean tree the cached hash read on the way is the hash of the
    sibling. *)
Lemma swalk_clean (bits : list bool) (nonce : slice) (t : shape) :
  ∀ depth term es,
    clean nonce t → swalk bits depth t = Some (term, es) →
    Forall (fun e => fst e = Some (shash nonce (snd e))) es.
Proof.
  induction t as [a n l IHl r IHr|a n|a n]; intros depth term es Hc Hw;
    simpl in Hc, Hw.
  - destruct Hc as (Hl & Hr & Hcl & Hcr).
    destruct (depth <? 0); [done|].
    destruct (bits !! Z.to_nat depth) as [[]|]; [| |done].
    + destruct (swalk bits (depth + 1) r) as [[term' es']|] eqn:Hw';
        [|done].
      injection Hw as <- <-. constructor; [done|]. by eapply IHr.
    + destruct (swalk bits (depth + 1) l) as [[term' es']|] eqn:Hw';
        [|done].
      injection Hw as <- <-. constructor; [done|]. by eapply IHl.
  - injection Hw as <- <-. constructor.
  - injection Hw as <- <-. constructor.
Qed.

Lemma Get_PrunedTree (m : ptr) lookupIndex (h h' : heap) ap :
  MerkleTree_Get m lookupIndex h = (h', Val ap) →
  ∃ tr found,
    asTree m h = (h, Val tr)
    ∧ Get_searchLoop (S (length (ToBits (bytesOf lookupIndex))))
        (ToBits (bytesOf lookupIndex)) 0 (root tr) [] h = (h, Val found)
    ∧ h' = h ∧ PrunedTree ap = snd found.
Proof.
  unfold MerkleTree_Get. intros Hg.
  apply bind_val_inv in Hg as (h1 & tr & Htr & Hg).
  pose proof (asTree_val_inv _ _ _ _ Htr) as (-> & _).
  apply bind_val_inv in Hg as (h2 & found & Hs & Hg).
  pose proof Hs as Hs'.
  apply Get_searchLoop_fuel in Hs' as (-> & _); [|lia..].
  exists tr, found. split; [done|]. split; [done|].
  apply bind_val_inv in Hg as (h3 & k & Hk & Hg).
  assert (h3 = h) as ->.
  { unfold kind in Hk. apply bind_val_inv in Hk as (h4 & o & Ho & Hk).
    apply deref_val_inv in Ho as (-> & _).
    destruct o; inversion Hk; done. }
  destruct k.
  - apply bind_val_inv in Hg as (h4 & u & Hu & Hg).
    apply asUserLeaf_val_inv in Hu as (-> & _).
    destruct (bytes_Equal _ _); inversion Hg; done.
  - discriminate.
  - apply bind_val_inv in Hg as (h4 & u & Hu & Hg).
    apply asEmpty_val_inv in Hu as (-> & _).
    inversion Hg; done.
Qed.

(** C5 (amended): in a tree whose cached hashes are all present and
    current, as [recomputeHash] leaves them, every entry of the
    [PrunedTree] that [Get] returns is the current hash of the sibling of
    the node walked through at that depth, from the root down.  (The hash
    primitive returns 32 bytes.  [recomputeHash_clean] below shows that
    [recomputeHash] leaves such a tree.) *)
Theorem Get_PrunedTree_current (h h' : heap) (m : loc) (t : shape) tr
    (lookupIndex : slice) ap (hfuel : nat) :
  (∀ bs, length (blake3_Sum bs) = 32%nat) →
  tree_at h m t → h !! m = Some (ObjTree tr) → clean (nonce tr) t →
  (height t ≤ S hfuel)%nat →
  MerkleTree_Get (Some m) lookupIndex h = (h', Val ap) →
  let bits := ToBits (bytesOf lookupIndex) in
  h' = h
  ∧ map Some (PrunedTree ap) =
      siblingHashes (S (length bits)) hfuel bits 0 (root tr) (Some m) h.
Proof.
  intros Hlen (tr' & Htr' & Hroot & Hint & Hrep & Hnd & Hm) Htr Hclean Hh Hg
    bits.
  rewrite Htr in Htr'. injection Htr' as <-.
  apply Get_PrunedTree in Hg as (tr' & found & Htr' & Hs & -> & ->).
  rewrite (asTree_eq _ _ _ Htr) in Htr'. injection Htr' as <-.
  split; [done|]. fold bits in Hs.
  rewrite Hroot in Hs |- *.
  rewrite (Get_searchLoop_refines bits t _ 0 h [] Hrep) in Hs by lia.
  destruct (swalk bits 0 t) as [[term es]|] eqn:Hw; [|by inversion Hs].
  injection Hs as <-. simpl snd.
  rewrite (siblingHashes_refines bits (nonce tr) t _ hfuel 0 h m tr term es)
    by (try done; lia).
  pose proof (swalk_clean _ _ _ _ _ _ Hclean Hw) as Hes.
  rewrite map_map. apply map_ext_Forall.
  eapply Forall_impl; [exact Hes|]. intros [c s] Hc. simpl in *. subst c.
  f_equal. apply copyToHashArr_id. unfold shash.
  destruct s; apply Hlen.
Qed.

End Lookup.

(** ** Building trees *)

Lemma lookup_alloc0 (h : heap) o l : (h ++ o :: l) !! length h = Some o.
Proof. rewrite lookup_app_r by lia. by rewrite Nat.sub_diag. Qed.

Lemma lookup_alloc1 (h : heap) o1 o2 l :
  (h ++ o1 :: o2 :: l) !! S (length h) = Some o2.
Proof.
  rewrite lookup_app_r by lia.
  by replace (S (length h) - length h)%nat with 1%nat by lia.
Qed.

Lemma lookup_alloc2 (h : heap) o1 o2 o3 l :
  (h ++ o1 :: o2 :: o3 :: l) !! S (S (length h)) = Some o3.
Proof.
  rewrite lookup_app_r by lia.
  by replace (S (S (length h)) - length h)%nat with 2%nat by lia.
Qed.

Lemma insert_alloc0 (h : heap) o l x :
  <[length h := x]> (h ++ o :: l) = h ++ x :: l.
Proof.
  replace (length h) with (length h + 0)%nat at 1 by lia.
  by rewrite insert_app_r.
Qed.

Lemma insert_alloc1 (h : heap) o1 o2 l x :
  <[S (length h) := x]> (h ++ o1 :: o2 :: l) = h ++ o1 :: x :: l.
Proof.
  replace (S (length h)) with (length h + 1)%nat at 1 by lia.
  by rewrite insert_app_r.
Qed.

Lemma insert_alloc2 (h : heap) o1 o2 o3 l x :
  <[S (S (length h)) := x]> (h ++ o1 :: o2 :: o3 :: l) = h ++ o1 :: o2 :: x :: l.
Proof.
  replace (S (S (length h))) with (length h + 2)%nat at 1 by lia.
  by rewrite insert_app_r.
Qed.

Section Build.
Context {platform : Platform} {crypto : Crypto}.

Lemma newInteriorNode_eq (parent : ptr) (level : Z) (bits : list bool)
    (h : heap) :
  newInteriorNode parent level bits h =
    (h ++ [ObjEmpty (newEmpty (S (S (length h))) level (bits ++ [false]));
           ObjEmpty (newEmpty (S (S (length h))) level (bits ++ [true]));
           ObjInterior (newInterior parent level (length h))],
     Val (S (S (length h)))).
Proof.
  unfold newInteriorNode.
  rewrite (bind_eq _ _ _ _ _ (new_eq _ _)).
  rewrite (bind_eq _ _ _ _ _ (new_eq _ _)).
  rewrite (bind_eq _ _ _ _ _ (new_eq _ _)).
  rewrite <- !app_assoc. simpl app.
  rewrite !length_app. simpl length.
  replace (length h + 1)%nat with (S (length h)) by lia.
  replace (S (length h) + 1)%nat with (S (S (length h))) by lia.
  rewrite (bind_eq _ _ _ _ _ (updEmpty_eq _ _ _ _ (lookup_alloc0 _ _ _))).
  rewrite insert_alloc0.
  rewrite (bind_eq _ _ _ _ _ (updEmpty_eq _ _ _ _ (lookup_alloc1 _ _ _ _))).
  rewrite insert_alloc1.
  replace (length h + 2)%nat with (S (S (length h))) by lia.
  reflexivity.
Qed.

End Build.

(** ** Insertion *)

Lemma updInterior_spec (h : heap) a n f :
  h !! a = Some (ObjInterior n) →
  ∃ h' : heap,
    updInterior a f h = (h', Val tt)
    ∧ h' !! a = Some (ObjInterior (f n))
    ∧ (∀ x, x ≠ a → h' !! x = h !! x)
    ∧ length h' = length h.
Proof.
  intros Ha. eexists. split; [by apply updInterior_eq|].
  split; [apply list_lookup_insert_eq; by apply lookup_lt_Some in Ha|].
  split; [|apply length_insert].
  intros x Hx. by apply list_lookup_insert_ne.
Qed.

Lemma updUserLeaf_spec (h : heap) a n f :
  h !! a = Some (ObjUserLeaf n) →
  ∃ h' : heap,
    updUserLeaf a f h = (h', Val tt)
    ∧ h' !! a = Some (ObjUserLeaf (f n))
    ∧ (∀ x, x ≠ a → h' !! x = h !! x)
    ∧ length h' = length h.
Proof.
  intros Ha. eexists. split; [by apply updUserLeaf_eq|].
  split; [apply list_lookup_insert_eq; by apply lookup_lt_Some in Ha|].
  split; [|apply length_insert].
  intros x Hx. by apply list_lookup_insert_ne.
Qed.

Lemma assign_spec (h : heap) a o :
  (a < length h)%nat →
  ∃ h' : heap,
    assign a o h = (h', Val tt)
    ∧ h' !! a = Some o
    ∧ (∀ x, x ≠ a → h' !! x = h !! x)
    ∧ length h' = length h.
Proof.
  intros Ha. eexists. split; [reflexivity|].
  split; [by apply list_lookup_insert_eq|].
  split; [|apply length_insert].
  intros x Hx. by apply list_lookup_insert_ne.
Qed.

Lemma isEmpty_eq (h : heap) a o :
  h !! a = Some o →
  isEmpty (Some a) h =
    (h, match o with
        | ObjEmpty _ => Val true
        | ObjTree _ => Panic
        | _ => Val false
        end).
Proof.
  intros Ha. unfold isEmpty, kind, bind, deref. rewrite Ha. by destruct o.
Qed.

Lemma liftOpt_eq {A} (o : option A) (h : heap) :
  liftOpt o h = (h, match o with Some a => Val a | None => Panic end).
Proof. by destruct o. Qed.

Lemma slice_to_eq {A} (l : list A) (i : Z) (h : heap) :
  slice_to l i h =
    (h, if (i <? 0) || (Z.of_nat (length l) <? i) then Panic
        else Val (take (Z.to_nat i) l)).
Proof. unfold slice_to. by destruct (_ || _). Qed.

Lemma repr_sobj (h : heap) (t : shape) : repr h t → h !! saddr t = Some (sobj t).
Proof. destruct t; simpl; tauto. Qed.

Lemma is_PEmpty_erase (t : shape) :
  is_PEmpty (erase t) = match t with SEmpty _ _ => true | _ => false end.
Proof. by destruct t. Qed.

Lemma rebuild_right (h h' : heap) a n' (l r' : shape) (R : list loc) toAdd :
  h' !! a = Some (ObjInterior n') →
  leftChild n' = Some (saddr l) → rightChild n' = Some (saddr r') →
  sparent l = Some a → sparent r' = Some a → repr h' l → repr h' r' →
  NoDup (saddrs l) → NoDup (saddrs r') →
  (a < length h)%nat → a ≠ toAdd → a ∉ saddrs l → a ∉ R →
  toAdd ∉ saddrs l → (∀ x, x ∈ saddrs l → x ∉ R) →
  (∀ x, x ∈ saddrs l → (x < length h)%nat) →
  (∀ x, x ∈ saddrs r' → x ∈ R ∨ x = toAdd ∨ (length h ≤ x)%nat) →
  repr h' (SInterior a n' l r')
  ∧ NoDup (saddrs (SInterior a n' l r'))
  ∧ (∀ x, x ∈ saddrs (SInterior a n' l r') →
       x ∈ a :: saddrs l ++ R ∨ x = toAdd ∨ (length h ≤ x)%nat).
Proof.
  intros Ha Hlc Hrc Hpl Hpr Hrl Hrr Hndl Hndr Halt Hat Hal HaR Htl Hdis Hllt
    Hsub.
  split; [simpl; tauto|]. split.
  - simpl. apply NoDup_cons. split.
    + rewrite not_elem_of_app. split; [done|]. intros Hx.
      destruct (Hsub _ Hx) as [?|[?|?]]; [done|done|lia].
    + apply NoDup_app. split; [done|]. split; [|done].
      intros x Hxl Hxr. destruct (Hsub _ Hxr) as [?|[->|?]].
      * by apply (Hdis x).
      * done.
      * specialize (Hllt _ Hxl). lia.
  - intros x Hx. simpl in Hx. apply elem_of_cons in Hx as [->|Hx].
    + left. apply elem_of_cons. by left.
    + apply elem_of_app in Hx as [Hx|Hx].
      * left. apply elem_of_cons. right. apply elem_of_app. by left.
      * destruct (Hsub _ Hx) as [?|[?|?]]; [|by right; left|by right; right].
        left. apply elem_of_cons. right. apply elem_of_app. by right.
Qed.

Lemma rebuild_left (h h' : heap) a n' (l' r : shape) (L : list loc) toAdd :
  h' !! a = Some (ObjInterior n') →
  leftChild n' = Some (saddr l') → rightChild n' = Some (saddr r) →
  sparent l' = Some a → sparent r = Some a → repr h' l' → repr h' r →
  NoDup (saddrs l') → NoDup (saddrs r) →
  (a < length h)%nat → a ≠ toAdd → a ∉ L → a ∉ saddrs r →
  toAdd ∉ saddrs r → (∀ x, x ∈ L → x ∉ saddrs r) →
  (∀ x, x ∈ saddrs r → (x < length h)%nat) →
  (∀ x, x ∈ saddrs l' → x ∈ L ∨ x = toAdd ∨ (length h ≤ x)%nat) →
  repr h' (SInterior a n' l' r)
  ∧ NoDup (saddrs (SInterior a n' l' r))
  ∧ (∀ x, x ∈ saddrs (SInterior a n' l' r) →
       x ∈ a :: L ++ saddrs r ∨ x = toAdd ∨ (length h ≤ x)%nat).
Proof.
  intros Ha Hlc Hrc Hpl Hpr Hrl Hrr Hndl Hndr Halt Hat HaL Har Htr Hdis Hrlt
    Hsub.
  split; [simpl; tauto|]. split.
  - simpl. apply NoDup_cons. split.
    + rewrite not_elem_of_app. split; [|done]. intros Hx.
      destruct (Hsub _ Hx) as [?|[?|?]]; [done|done|lia].
    + apply NoDup_app. split; [done|]. split; [|done].
      intros x Hxl Hxr. destruct (Hsub _ Hxl) as [?|[->|?]].
      * by apply (Hdis x).
      * done.
      * specialize (Hrlt _ Hxr). lia.
  - intros x Hx. simpl in Hx. apply elem_of_cons in Hx as [->|Hx].
    + left. apply elem_of_cons. by left.
    + apply elem_of_app in Hx as [Hx|Hx].
      * destruct (Hsub _ Hx) as [?|[?|?]]; [|by right; left|by right; right].
        left. apply elem_of_cons. right. apply elem_of_app. by left.
      * left. apply elem_of_cons. right. apply elem_of_app. by right.
Qed.

Section Insert.
Context {platform : Platform} {crypto : Crypto}.

Lemma newInteriorNode_spec (parent : ptr) (level : Z) (bits : list bool)
    (h : heap) :
  ∃ h' : heap,
    newInteriorNode parent level bits h = (h', Val (S (S (length h))))
    ∧ h' !! length h =
        Some (ObjEmpty (newEmpty (S (S (length h))) level (bits ++ [false])))
    ∧ h' !! S (length h) =
        Some (ObjEmpty (newEmpty (S (S (length h))) level (bits ++ [true])))
    ∧ h' !! S (S (length h)) =
        Some (ObjInterior (newInterior parent level (length h)))
    ∧ (∀ x, (x < length h)%nat → h' !! x = h !! x)
    ∧ length h' = S (S (S (length h))).
Proof.
  eexists. split; [apply newInteriorNode_eq|].
  split; [apply lookup_alloc0|]. split; [apply lookup_alloc1|].
  split; [apply lookup_alloc2|]. split.
  - intros x Hx. by apply lookup_app_l.
  - rewrite length_app. simpl. lia.
Qed.

Lemma insertLoop_refines (bits : list bool) (toAdd : loc)
    (add : userLeafNode) :
  ∀ fuel (t : shape) depth (h h' : heap) res,
    is_interior t → repr h t → NoDup (saddrs t) → toAdd ∉ saddrs t →
    h !! toAdd = Some (ObjUserLeaf add) → 0 ≤ depth →
    insertLoop fuel bits toAdd depth (Some (saddr t)) h = (h', res) →
    ins_spec bits toAdd add fuel t depth h (h', res).
Proof.
  induction fuel as [fuel IH] using lt_wf_ind.
  intros t depth h h' res Hint Hrep Hnd Hta Hadd Hdepth Hrun.
  destruct t as [a n l r|?|?]; [|done|done]. clear Hint.
  destruct fuel as [|fuel]; [by inversion Hrun|].
  simpl saddr in Hrun. simpl insertLoop in Hrun.
  simpl in Hrep. destruct Hrep as (Ha & Hlc & Hrc & Hpl & Hpr & Hrl & Hrr).
  simpl in Hnd. apply NoDup_interior in Hnd as (Hal & Har & Hndl & Hndr & Hdis).
  simpl in Hta. rewrite not_elem_of_cons, not_elem_of_app in Hta.
  destruct Hta as (Hta & Htl & Htr).
  pose proof (lookup_lt_Some _ _ _ Ha) as Halt.
  pose proof (lookup_lt_Some _ _ _ Hadd) as Htlt.
  assert (Hwrap : 0 ≤ wrap32 (depth + 1)).
  { unfold wrap32. apply Z.mod_pos_bound. lia. }
  rewrite (bind_eq _ _ _ _ _ (kind_eq _ _ _ Ha)) in Hrun.
  simpl liftOpt in Hrun. rewrite bind_ret in Hrun.
  rewrite (bind_res _ _ _ _ _ (at_index_eq _ _ _)) in Hrun.
  unfold ins_spec. simpl erase. simpl pinsert.
  destruct (Z.ltb_spec depth 0) as [?|_]; [lia|].
  destruct (bits !! Z.to_nat depth) as [direction|] eqn:Hbit;
    [|by inversion Hrun].
  destruct direction.
  - (* go right *)
    destruct (updInterior_spec h a n (with_rightHash None) Ha)
      as (h1 & Hrun1 & Ha1 & Hfr1 & Hlen1).
    rewrite (bind_eq _ _ _ _ _ Hrun1) in Hrun.
    rewrite (bind_eq _ _ _ _ _ (asInterior_eq _ _ _ Ha1)) in Hrun.
    simpl rightChild in Hrun. rewrite Hrc in Hrun.
    assert (Hrr1 : repr h1 r).
    { eapply repr_frame; [exact Hrr|]. intros x Hx. apply Hfr1. by intros ->. }
    assert (Hrl1 : repr h1 l).
    { eapply repr_frame; [exact Hrl|]. intros x Hx. apply Hfr1. by intros ->. }
    assert (Hadd1 : h1 !! toAdd = Some (ObjUserLeaf add)).
    { rewrite Hfr1; [done|]. by intros ->. }
    assert (Hrebuild : ∀ (hF : heap) N r',
      hF !! a = Some (ObjInterior N) →
      leftChild N = Some (saddr l) → rightChild N = Some (saddr r') →
      sparent r' = Some a →
      (∀ x, x ∈ saddrs l → hF !! x = h1 !! x) →
      repr hF r' → NoDup (saddrs r') →
      (∀ x, x ∈ saddrs r' →
         x ∈ saddrs r ∨ x = toAdd ∨ (length h ≤ x)%nat) →
      repr hF (SInterior a N l r')
      ∧ NoDup (saddrs (SInterior a N l r'))
      ∧ (∀ x, x ∈ saddrs (SInterior a N l r') →
           x ∈ saddrs (SInterior a n l r) ∨ x = toAdd
           ∨ (length h ≤ x)%nat)).
    { intros hF N r' HaF HlcF HrcF HprF HlF HrF HndF HsubF.
      apply (rebuild_right h hF a N l r' (saddrs r) toAdd); try done.
      - eapply repr_frame; [exact Hrl1|]. done.
      - intros x Hx. by apply (repr_allocated _ _ _ Hrl). }
    rewrite (bind_res _ _ _ _ _ (isEmpty_eq _ _ _ (repr_sobj _ _ Hrr1)))
      in Hrun.
    rewrite is_PEmpty_erase.
    destruct r as [b rn rl rr|b u|b e]; simpl sobj in Hrun; cbv iota in Hrun.
    + (* an interior child: descend *)
      rewrite (bind_eq _ _ _ _ _ (asInterior_eq _ _ _ Ha1)) in Hrun.
      simpl rightChild in Hrun. rewrite Hrc in Hrun.
      apply (IH fuel ltac:(lia) (SInterior b rn rl rr)) in Hrun;
        [|done|done|done|done|done|done].
      unfold ins_spec in Hrun.
      destruct (pinsert fuel bits add (wrap32 (depth + 1))
                  (erase (SInterior b rn rl rr))) as [p'| |];
        simpl res_map; [|done|done].
      destruct Hrun as (Hres & r' & Her & Hrep' & Hnd' & Hsa & Hsp & Hi' &
                        Hsub & Hlen' & Hfr').
      simpl fst in *. simpl snd in *.
      split; [done|].
      exists (SInterior a (with_rightHash None n) l r').
      destruct (Hrebuild h' (with_rightHash None n) r')
        as (Hrep'' & Hnd'' & Hsub'').
      { rewrite Hfr'; [done|lia|done|done]. }
      { done. }
      { simpl. by rewrite Hsa. }
      { by rewrite Hsp. }
      { intros x Hx. apply Hfr'.
        - pose proof (repr_allocated _ _ _ Hrl1 Hx). lia.
        - by apply Hdis.
        - by intros ->. }
      { done. }
      { done. }
      { intros x Hx. rewrite <- Hlen1. by apply Hsub. }
      split; [simpl; by rewrite Her|].
      do 5 (split; [done|]). split; [exact Hsub''|].
      split; [lia|].
      intros x Hxlt Hx Hxt. simpl in Hx.
      rewrite not_elem_of_cons, not_elem_of_app in Hx.
      destruct Hx as (Hxa & Hxl & Hxr).
      rewrite Hfr' by (done || lia). by apply Hfr1.
    + (* a leaf *)
      rewrite (bind_eq _ _ _ _ _ (asInterior_eq _ _ _ Ha1)) in Hrun.
      simpl rightChild in Hrun. rewrite Hrc in Hrun.
      simpl in Hrr1, Hpr, Hndr, Htr, Har, Hdis. simpl saddr in *.
      assert (Hab : a ≠ b).
      { intros ->. apply Har. apply elem_of_cons. by left. }
      assert (Htb : toAdd ≠ b).
      { intros ->. apply Htr. apply elem_of_cons. by left. }
      assert (Hlb : b ∉ saddrs l).
      { intros Hx. apply (Hdis b Hx). apply elem_of_cons. by left. }
      pose proof (lookup_lt_Some _ _ _ Hrr1) as Hblt.
      destruct fuel as [|fuel]; [by inversion Hrun|].
      simpl insertLoop in Hrun. simpl pinsert.
      rewrite (bind_eq _ _ _ _ _ (kind_eq _ _ _ Hrr1)) in Hrun.
      simpl liftOpt in Hrun. rewrite bind_ret in Hrun.
      rewrite (bind_eq _ _ _ _ _ (asUserLeaf_eq _ _ _ Hrr1)) in Hrun.
      rewrite Hpr in Hrun. rewrite bool_decide_eq_false_2 in Hrun by done.
      rewrite (bind_eq _ _ _ _ _ (asUserLeaf_eq _ _ _ Hadd1)) in Hrun.
      destruct (bytes_Equal (index u) (index add)) eqn:Heq.
      * (* the same index: replace the leaf *)
        destruct (updUserLeaf_spec h1 toAdd add
                    (with_u_node (fun n => set_parent n (Some a))) Hadd1)
          as (h2 & Hrun2 & Hadd2 & Hfr2 & Hlen2).
        rewrite (bind_eq _ _ _ _ _ Hrun2) in Hrun.
        assert (Hb2 : h2 !! b = Some (ObjUserLeaf u)) by (by rewrite Hfr2).
        rewrite (bind_eq _ _ _ _ _ (asUserLeaf_eq _ _ _ Hb2)) in Hrun.
        destruct (updUserLeaf_spec h2 toAdd _
                    (with_u_node (fun n => set_level n (level (u_node u))))
                    Hadd2)
          as (h3 & Hrun3 & Hadd3 & Hfr3 & Hlen3).
        rewrite (bind_eq _ _ _ _ _ Hrun3) in Hrun.
        rewrite (bind_eq _ _ _ _ _ (asUserLeaf_eq _ _ _ Hadd3)) in Hrun.
        set (add' := with_u_node (fun n => set_level n (level (u_node u)))
                       (with_u_node (fun n => set_parent n (Some a)) add))
          in *.
        destruct (assign_spec h3 b (ObjUserLeaf add') ltac:(lia))
          as (h4 & Hrun4 & Hb4 & Hfr4 & Hlen4).
        rewrite Hrun4 in Hrun. injection Hrun as <- <-.
        simpl res_map. simpl fst. simpl snd. split; [done|].
        exists (SInterior a (with_rightHash None n) l (SLeaf b add')).
        assert (Hany : ∀ x, x ≠ toAdd → x ≠ b → h4 !! x = h1 !! x).
        { intros x Hxt Hxb. rewrite Hfr4, Hfr3, Hfr2; done. }
        destruct (Hrebuild h4 (with_rightHash None n) (SLeaf b add'))
          as (Hrep'' & Hnd'' & Hsub'').
        { by rewrite Hany. }
        { done. }
        { done. }
        { done. }
        { intros x Hx. apply Hany; by intros ->. }
        { done. }
        { apply NoDup_singleton. }
        { intros x Hx. by left. }
        split; [reflexivity|].
        do 5 (split; [done|]). split; [exact Hsub''|].
        split; [lia|].
        intros x Hxlt Hx Hxt. simpl in Hx.
        rewrite not_elem_of_cons, not_elem_of_app in Hx.
        destruct Hx as (Hxa & Hxl & Hxr).
        rewrite Hany, Hfr1; [done|done|done|].
        intros ->. apply Hxr. apply elem_of_cons. by left.
      * (* another index: push the leaf down *)
        set (d' := wrap32 (depth + 1)) in *.
        rewrite (bind_res _ _ _ _ _ (slice_to_eq _ _ _)) in Hrun.
        destruct ((d' <? 0) || (Z.of_nat (length bits) <? d'));
          [by inversion Hrun|].
        set (prefixBits := take (Z.to_nat d') bits) in *.
        destruct (newInteriorNode_spec (Some a) d' prefixBits h1)
          as (h2 & Hrun2 & Hel2 & Her2 & HN2 & Hfr2 & Hlen2).
        rewrite (bind_eq _ _ _ _ _ Hrun2) in Hrun.
        set (ni := S (S (length h1))) in *.
        assert (Hb2 : h2 !! b = Some (ObjUserLeaf u)) by (by rewrite Hfr2).
        rewrite (bind_eq _ _ _ _ _ (asUserLeaf_eq _ _ _ Hb2)) in Hrun.
        rewrite (bind_res _ _ _ _ _ (liftOpt_eq _ _)) in Hrun.
        destruct (GetNthBit (bytesOf (index u)) d') as [direction|];
          [|by inversion Hrun].
        assert (Hsplit : ∃ (h5 : heap) N' T,
          (∀ k : M unit,
             ((if direction
               then updInterior ni (with_rightChild (Some b))
               else updInterior ni (with_leftChild (Some b))) ;;
              updUserLeaf b
                (with_u_node (fun n => set_level n (wrap32 (d' + 1)))) ;;
              updUserLeaf b (with_u_node (fun n => set_parent n (Some ni))) ;;
              k) h2 = k h5)
          ∧ h5 !! ni = Some (ObjInterior N')
          ∧ N' = (if direction
                  then with_rightChild (Some b)
                         (newInterior (Some a) d' (length h1))
                  else with_leftChild (Some b)
                         (newInterior (Some a) d' (length h1)))
          ∧ T = (if direction
                 then SInterior ni N'
                        (SEmpty (length h1)
                           (newEmpty ni d' (prefixBits ++ [false])))
                        (SLeaf b
                           (with_u_node (fun n => set_parent n (Some ni))
                              (with_u_node
                                 (fun n => set_level n (wrap32 (d' + 1)))
                                 u)))
                 else SInterior ni N'
                        (SLeaf b
                           (with_u_node (fun n => set_parent n (Some ni))
                              (with_u_node
                                 (fun n => set_level n (wrap32 (d' + 1)))
                                 u)))
                        (SEmpty (S (length h1))
                           (newEmpty ni d' (prefixBits ++ [true]))))
          ∧ repr h5 T
          ∧ (∀ x, (x < length h1)%nat → x ≠ b → h5 !! x = h1 !! x)
          ∧ length h5 = S (S (S (length h1)))).
        { destruct direction.
          - destruct (updInterior_spec h2 ni _ (with_rightChild (Some b)) HN2)
              as (h3 & Hrun3 & HN3 & Hfr3 & Hlen3).
            assert (Hb3 : h3 !! b = Some (ObjUserLeaf u)).
            { rewrite Hfr3 by (unfold ni; lia). done. }
            destruct (updUserLeaf_spec h3 b u
                        (with_u_node
                           (fun n => set_level n (wrap32 (d' + 1)))) Hb3)
              as (h4 & Hrun4 & Hb4 & Hfr4 & Hlen4).
            destruct (updUserLeaf_spec h4 b _
                        (with_u_node (fun n => set_parent n (Some ni))) Hb4)
              as (h5 & Hrun5 & Hb5 & Hfr5 & Hlen5).
            eexists h5, _, _. split.
            { intros k. rewrite (bind_eq _ _ _ _ _ Hrun3).
              rewrite (bind_eq _ _ _ _ _ Hrun4).
              by rewrite (bind_eq _ _ _ _ _ Hrun5). }
            split; [rewrite Hfr5, Hfr4 by (unfold ni; lia); exact HN3|].
            split; [reflexivity|]. split; [reflexivity|].
            split.
            + simpl.
              split; [rewrite Hfr5, Hfr4 by (unfold ni; lia); exact HN3|].
              do 4 (split; [reflexivity|]).
              split; [|exact Hb5].
              rewrite Hfr5, Hfr4, Hfr3 by (unfold ni; lia). exact Hel2.
            + split; [|lia].
              intros x Hx Hxb.
              rewrite Hfr5, Hfr4, Hfr3 by (done || unfold ni; lia).
              by apply Hfr2.
          - destruct (updInterior_spec h2 ni _ (with_leftChild (Some b)) HN2)
              as (h3 & Hrun3 & HN3 & Hfr3 & Hlen3).
            assert (Hb3 : h3 !! b = Some (ObjUserLeaf u)).
            { rewrite Hfr3 by (unfold ni; lia). done. }
            destruct (updUserLeaf_spec h3 b u
                        (with_u_node
                           (fun n => set_level n (wrap32 (d' + 1)))) Hb3)
              as (h4 & Hrun4 & Hb4 & Hfr4 & Hlen4).
            destruct (updUserLeaf_spec h4 b _
                        (with_u_node (fun n => set_parent n (Some ni))) Hb4)
              as (h5 & Hrun5 & Hb5 & Hfr5 & Hlen5).
            eexists h5, _, _. split.
            { intros k. rewrite (bind_eq _ _ _ _ _ Hrun3).
              rewrite (bind_eq _ _ _ _ _ Hrun4).
              by rewrite (bind_eq _ _ _ _ _ Hrun5). }
            split; [rewrite Hfr5, Hfr4 by (unfold ni; lia); exact HN3|].
            split; [reflexivity|]. split; [reflexivity|].
            split.
            + simpl.
              split; [rewrite Hfr5, Hfr4 by (unfold ni; lia); exact HN3|].
              do 4 (split; [reflexivity|]).
              split; [exact Hb5|].
              rewrite Hfr5, Hfr4, Hfr3 by (unfold ni; lia). exact Her2.
            + split; [|lia].
              intros x Hx Hxb.
              rewrite Hfr5, Hfr4, Hfr3 by (done || unfold ni; lia).
              by apply Hfr2. }
        destruct Hsplit as (h5 & N' & T & Hrun5 & HN5 & HN' & HT & HrepT &
                            Hfr5 & Hlen5).
        assert (HpN : parent (i_node N') = Some a)
          by (subst N'; by destruct direction).
        assert (HTe : erase T =
                      if direction
                      then PInterior d' None None
                             (PEmpty (wrap32 (d' + 1))
                                (Some (ToBytes (prefixBits ++ [false]))))
                             (PLeaf (wrap32 (d' + 1)) (key u) (value u)
                                (index u) (commitment u))
                      else PInterior d' None None
                             (PLeaf (wrap32 (d' + 1)) (key u) (value u)
                                (index u) (commitment u))
                             (PEmpty (wrap32 (d' + 1))
                                (Some (ToBytes (prefixBits ++ [true])))))
          by (subst T N'; by destruct direction).
        assert (HTa : saddr T = ni) by (subst T; by destruct direction).
        assert (HTp : sparent T = Some a)
          by (subst T N'; by destruct direction).
        assert (HTi : is_interior T) by (subst T; by destruct direction).
        assert (HTs : ∀ x, x ∈ saddrs T → x = b ∨ (length h1 ≤ x)%nat).
        { subst T. destruct direction; simpl; intros x Hx;
            rewrite !elem_of_cons, elem_of_nil in Hx; unfold ni in *; lia. }
        assert (HTn : NoDup (saddrs T)).
        { subst T. destruct direction; simpl;
            rewrite !NoDup_cons, !not_elem_of_cons;
            repeat split;
            try apply not_elem_of_nil; try apply NoDup_nil;
            unfold ni; lia. }
        clear HT.
        rewrite Hrun5 in Hrun.
        rewrite (bind_eq _ _ _ _ _ (asInterior_eq _ _ _ HN5)) in Hrun.
        rewrite HpN in Hrun. simpl liftOpt in Hrun. rewrite bind_ret in Hrun.
        assert (Ha5 : h5 !! a = Some (ObjInterior (with_rightHash None n))).
        { rewrite Hfr5 by (done || lia). done. }
        rewrite (bind_eq _ _ _ _ _ (asInterior_eq _ _ _ Ha5)) in Hrun.
        simpl leftChild in Hrun. rewrite Hlc in Hrun.
        rewrite bool_decide_eq_false_2 in Hrun.
        2:{ intros [= Hx]. apply Hlb. rewrite <- Hx. apply saddr_in. }
        destruct (updInterior_spec h5 a _ (with_rightChild (Some ni)) Ha5)
          as (h6 & Hrun6 & Ha6 & Hfr6 & Hlen6).
        rewrite (bind_eq _ _ _ _ _ Hrun6) in Hrun.
        rewrite <- HTe. rewrite <- HTa in Hrun.
        apply (IH fuel ltac:(lia) T) in Hrun.
        2:{ done. }
        2:{ eapply repr_frame; [exact HrepT|]. intros x Hx. apply Hfr6.
            apply HTs in Hx. lia. }
        2:{ done. }
        2:{ intros Hx. apply HTs in Hx. lia. }
        2:{ rewrite Hfr6, Hfr5 by (done || lia). done. }
        2:{ done. }
        unfold ins_spec in Hrun.
        destruct (pinsert fuel bits add d' (erase T)) as [p'| |];
          simpl res_map; [|done|done].
        destruct Hrun as (Hres & r' & Her & Hrep' & Hnd' & Hsa & Hsp & Hi' &
                          Hsub & Hlen' & Hfr').
        simpl fst in *. simpl snd in *.
        split; [done|].
        set (N := with_rightChild (Some ni) (with_rightHash None n)) in *.
        exists (SInterior a N l r').
        assert (Hany : ∀ x, (x < length h)%nat → x ≠ a → x ≠ b →
                            x ≠ toAdd → h' !! x = h1 !! x).
        { intros x Hxlt Hxa Hxb Hxt.
          rewrite Hfr', Hfr6, Hfr5; [done|lia|done|done|lia| |done].
          intros Hx. apply HTs in Hx. lia. }
        destruct (Hrebuild h' N r') as (Hrep'' & Hnd'' & Hsub'').
        { rewrite Hfr'; [done|lia| |done]. intros Hx. apply HTs in Hx. lia. }
        { done. }
        { simpl. by rewrite Hsa, HTa. }
        { by rewrite Hsp. }
        { intros x Hx. pose proof (repr_allocated _ _ _ Hrl Hx).
          apply Hany; [done| | |]; by intros ->. }
        { done. }
        { done. }
        { intros x Hx. apply Hsub in Hx as [Hx|[Hx|Hx]].
          - apply HTs in Hx as [->|Hx]; [left; by apply elem_of_cons; left|].
            right; right. lia.
          - by right; left.
          - right; right. lia. }
        split; [simpl; by rewrite Her|].
        do 5 (split; [done|]). split; [exact Hsub''|].
        split; [lia|].
        intros x Hxlt Hx Hxt. simpl in Hx.
        rewrite not_elem_of_cons, not_elem_of_app in Hx.
        destruct Hx as (Hxa & Hxl & Hxr).
        rewrite Hany, Hfr1; [done|done|done|done| |done].
        intros ->. apply Hxr. apply elem_of_cons. by left.
    + (* an empty child: place the leaf *)
      simpl in Hrr1, Hpr, Hndr, Htr, Har, Hdis. simpl saddr in *.
      destruct (updInterior_spec h1 a _ (with_rightChild (Some toAdd)) Ha1)
        as (h2 & Hrun2 & Ha2 & Hfr2 & Hlen2).
      rewrite (bind_eq _ _ _ _ _ Hrun2) in Hrun.
      assert (Hadd2 : h2 !! toAdd = Some (ObjUserLeaf add))
        by (by rewrite Hfr2).
      destruct (updUserLeaf_spec h2 toAdd add
                  (with_u_node (fun n => set_level n (wrap32 (depth + 1))))
                  Hadd2)
        as (h3 & Hrun3 & Hadd3 & Hfr3 & Hlen3).
      rewrite (bind_eq _ _ _ _ _ Hrun3) in Hrun.
      destruct (updUserLeaf_spec h3 toAdd _
                  (with_u_node (fun n => set_parent n (Some a))) Hadd3)
        as (h4 & Hrun4 & Hadd4 & Hfr4 & Hlen4).
      rewrite Hrun4 in Hrun. injection Hrun as <- <-.
      simpl fst. simpl snd. split; [done|].
      set (add' := with_u_node (fun n => set_parent n (Some a))
                     (with_u_node
                        (fun n => set_level n (wrap32 (depth + 1))) add))
        in *.
      set (N := with_rightChild (Some toAdd) (with_rightHash None n)) in *.
      exists (SInterior a N l (SLeaf toAdd add')).
      assert (Hany : ∀ x, x ≠ toAdd → x ≠ a → h4 !! x = h1 !! x).
      { intros x Hxt Hxb. rewrite Hfr4, Hfr3, Hfr2; done. }
      destruct (Hrebuild h4 N (SLeaf toAdd add'))
        as (Hrep'' & Hnd'' & Hsub'').
      { rewrite Hfr4, Hfr3; done. }
      { done. }
      { done. }
      { done. }
      { intros x Hx. apply Hany; by intros ->. }
      { done. }
      { apply NoDup_singleton. }
      { intros x Hx. apply list_elem_of_singleton in Hx. by right; left. }
      split; [reflexivity|].
      do 5 (split; [done|]). split; [exact Hsub''|].
      split; [lia|].
      intros x Hxlt Hx Hxt. simpl in Hx.
      rewrite not_elem_of_cons, not_elem_of_app in Hx.
      destruct Hx as (Hxa & Hxl & Hxr).
      rewrite Hany, Hfr1; done.
  - (* go left *)
    destruct (updInterior_spec h a n (with_leftHash None) Ha)
      as (h1 & Hrun1 & Ha1 & Hfr1 & Hlen1).
    rewrite (bind_eq _ _ _ _ _ Hrun1) in Hrun.
    rewrite (bind_eq _ _ _ _ _ (asInterior_eq _ _ _ Ha1)) in Hrun.
    simpl leftChild in Hrun. rewrite Hlc in Hrun.
    assert (Hrl1 : repr h1 l).
    { eapply repr_frame; [exact Hrl|]. intros x Hx. apply Hfr1. by intros ->. }
    assert (Hrr1 : repr h1 r).
    { eapply repr_frame; [exact Hrr|]. intros x Hx. apply Hfr1. by intros ->. }
    assert (Hadd1 : h1 !! toAdd = Some (ObjUserLeaf add)).
    { rewrite Hfr1; [done|]. by intros ->. }
    assert (Hrebuild : ∀ (hF : heap) N l',
      hF !! a = Some (ObjInterior N) →
      rightChild N = Some (saddr r) → leftChild N = Some (saddr l') →
      sparent l' = Some a →
      (∀ x, x ∈ saddrs r → hF !! x = h1 !! x) →
      repr hF l' → NoDup (saddrs l') →
      (∀ x, x ∈ saddrs l' →
         x ∈ saddrs l ∨ x = toAdd ∨ (length h ≤ x)%nat) →
      repr hF (SInterior a N l' r)
      ∧ NoDup (saddrs (SInterior a N l' r))
      ∧ (∀ x, x ∈ saddrs (SInterior a N l' r) →
           x ∈ saddrs (SInterior a n l r) ∨ x = toAdd
           ∨ (length h ≤ x)%nat)).
    { intros hF N l' HaF HrcF HlcF HplF HrF HlF HndF HsubF.
      apply (rebuild_left h hF a N l' r (saddrs l) toAdd); try done.
      - eapply repr_frame; [exact Hrr1|]. done.
      - intros x Hx. by apply (repr_allocated _ _ _ Hrr). }
    rewrite (bind_res _ _ _ _ _ (isEmpty_eq _ _ _ (repr_sobj _ _ Hrl1)))
      in Hrun.
    rewrite is_PEmpty_erase.
    destruct l as [b ln ll lr|b u|b e]; simpl sobj in Hrun; cbv iota in Hrun.
    + (* an interior child: descend *)
      rewrite (bind_eq _ _ _ _ _ (asInterior_eq _ _ _ Ha1)) in Hrun.
      simpl leftChild in Hrun. rewrite Hlc in Hrun.
      apply (IH fuel ltac:(lia) (SInterior b ln ll lr)) in Hrun;
        [|done|done|done|done|done|done].
      unfold ins_spec in Hrun.
      destruct (pinsert fuel bits add (wrap32 (depth + 1))
                  (erase (SInterior b ln ll lr))) as [p'| |];
        simpl res_map; [|done|done].
      destruct Hrun as (Hres & l' & Her & Hrep' & Hnd' & Hsa & Hsp & Hi' &
                        Hsub & Hlen' & Hfl').
      simpl fst in *. simpl snd in *.
      split; [done|].
      exists (SInterior a (with_leftHash None n) l' r).
      destruct (Hrebuild h' (with_leftHash None n) l')
        as (Hrep'' & Hnd'' & Hsub'').
      { rewrite Hfl'; [done|lia|done|done]. }
      { done. }
      { simpl. by rewrite Hsa. }
      { by rewrite Hsp. }
      { intros x Hx. apply Hfl'.
        - pose proof (repr_allocated _ _ _ Hrr1 Hx). lia.
        - intros Hx'. by apply (Hdis x Hx').
        - by intros ->. }
      { done. }
      { done. }
      { intros x Hx. rewrite <- Hlen1. by apply Hsub. }
      split; [simpl; by rewrite Her|].
      do 5 (split; [done|]). split; [exact Hsub''|].
      split; [lia|].
      intros x Hxlt Hx Hxt. cbn [saddrs] in Hx.
      rewrite not_elem_of_cons, not_elem_of_app in Hx.
      destruct Hx as (Hxa & Hxl & Hxr).
      rewrite Hfl' by (done || lia). by apply Hfr1.
    + (* a leaf *)
      rewrite (bind_eq _ _ _ _ _ (asInterior_eq _ _ _ Ha1)) in Hrun.
      simpl leftChild in Hrun. rewrite Hlc in Hrun.
      simpl in Hrl1, Hpl, Hndl, Htl, Hal, Hdis. simpl saddr in *.
      assert (Hab : a ≠ b).
      { intros ->. apply Hal. apply elem_of_cons. by left. }
      assert (Htb : toAdd ≠ b).
      { intros ->. apply Htl. apply elem_of_cons. by left. }
      assert (Hlb : b ∉ saddrs r).
      { intros Hx. apply (Hdis b); [apply elem_of_cons; by left|done]. }
      pose proof (lookup_lt_Some _ _ _ Hrl1) as Hblt.
      destruct fuel as [|fuel]; [by inversion Hrun|].
      simpl insertLoop in Hrun. simpl pinsert.
      rewrite (bind_eq _ _ _ _ _ (kind_eq _ _ _ Hrl1)) in Hrun.
      simpl liftOpt in Hrun. rewrite bind_ret in Hrun.
      rewrite (bind_eq _ _ _ _ _ (asUserLeaf_eq _ _ _ Hrl1)) in Hrun.
      rewrite Hpl in Hrun. rewrite bool_decide_eq_false_2 in Hrun by done.
      rewrite (bind_eq _ _ _ _ _ (asUserLeaf_eq _ _ _ Hadd1)) in Hrun.
      destruct (bytes_Equal (index u) (index add)) eqn:Heq.
      * (* the same index: replace the leaf *)
        destruct (updUserLeaf_spec h1 toAdd add
                    (with_u_node (fun n => set_parent n (Some a))) Hadd1)
          as (h2 & Hrun2 & Hadd2 & Hfr2 & Hlen2).
        rewrite (bind_eq _ _ _ _ _ Hrun2) in Hrun.
        assert (Hb2 : h2 !! b = Some (ObjUserLeaf u)) by (by rewrite Hfr2).
        rewrite (bind_eq _ _ _ _ _ (asUserLeaf_eq _ _ _ Hb2)) in Hrun.
        destruct (updUserLeaf_spec h2 toAdd _
                    (with_u_node (fun n => set_level n (level (u_node u))))
                    Hadd2)
          as (h3 & Hrun3 & Hadd3 & Hfr3 & Hlen3).
        rewrite (bind_eq _ _ _ _ _ Hrun3) in Hrun.
        rewrite (bind_eq _ _ _ _ _ (asUserLeaf_eq _ _ _ Hadd3)) in Hrun.
        set (add' := with_u_node (fun n => set_level n (level (u_node u)))
                       (with_u_node (fun n => set_parent n (Some a)) add))
          in *.
        destruct (assign_spec h3 b (ObjUserLeaf add') ltac:(lia))
          as (h4 & Hrun4 & Hb4 & Hfr4 & Hlen4).
        rewrite Hrun4 in Hrun. injection Hrun as <- <-.
        simpl res_map. simpl fst. simpl snd. split; [done|].
        exists (SInterior a (with_leftHash None n) (SLeaf b add') r).
        assert (Hany : ∀ x, x ≠ toAdd → x ≠ b → h4 !! x = h1 !! x).
        { intros x Hxt Hxb. rewrite Hfr4, Hfr3, Hfr2; done. }
        destruct (Hrebuild h4 (with_leftHash None n) (SLeaf b add'))
          as (Hrep'' & Hnd'' & Hsub'').
        { by rewrite Hany. }
        { done. }
        { done. }
        { done. }
        { intros x Hx. apply Hany; by intros ->. }
        { done. }
        { apply NoDup_singleton. }
        { intros x Hx. by left. }
        split; [reflexivity|].
        do 5 (split; [done|]). split; [exact Hsub''|].
        split; [lia|].
        intros x Hxlt Hx Hxt. cbn [saddrs] in Hx.
        rewrite not_elem_of_cons, not_elem_of_app in Hx.
        destruct Hx as (Hxa & Hxl & Hxr).
        rewrite Hany, Hfr1; [done|done|done|].
        intros ->. apply Hxl. apply elem_of_cons. by left.
      * (* another index: push the leaf down *)
        set (d' := wrap32 (depth + 1)) in *.
        rewrite (bind_res _ _ _ _ _ (slice_to_eq _ _ _)) in Hrun.
        destruct ((d' <? 0) || (Z.of_nat (length bits) <? d'));
          [by inversion Hrun|].
        set (prefixBits := take (Z.to_nat d') bits) in *.
        destruct (newInteriorNode_spec (Some a) d' prefixBits h1)
          as (h2 & Hrun2 & Hel2 & Her2 & HN2 & Hfr2 & Hlen2).
        rewrite (bind_eq _ _ _ _ _ Hrun2) in Hrun.
        set (ni := S (S (length h1))) in *.
        assert (Hb2 : h2 !! b = Some (ObjUserLeaf u)) by (by rewrite Hfr2).
        rewrite (bind_eq _ _ _ _ _ (asUserLeaf_eq _ _ _ Hb2)) in Hrun.
        rewrite (bind_res _ _ _ _ _ (liftOpt_eq _ _)) in Hrun.
        destruct (GetNthBit (bytesOf (index u)) d') as [direction|];
          [|by inversion Hrun].
        assert (Hsplit : ∃ (h5 : heap) N' T,
          (∀ k : M unit,
             ((if direction
               then updInterior ni (with_rightChild (Some b))
               else updInterior ni (with_leftChild (Some b))) ;;
              updUserLeaf b
                (with_u_node (fun n => set_level n (wrap32 (d' + 1)))) ;;
              updUserLeaf b (with_u_node (fun n => set_parent n (Some ni))) ;;
              k) h2 = k h5)
          ∧ h5 !! ni = Some (ObjInterior N')
          ∧ N' = (if direction
                  then with_rightChild (Some b)
                         (newInterior (Some a) d' (length h1))
                  else with_leftChild (Some b)
                         (newInterior (Some a) d' (length h1)))
          ∧ T = (if direction
                 then SInterior ni N'
                        (SEmpty (length h1)
                           (newEmpty ni d' (prefixBits ++ [false])))
                        (SLeaf b
                           (with_u_node (fun n => set_parent n (Some ni))
                              (with_u_node
                                 (fun n => set_level n (wrap32 (d' + 1)))
                                 u)))
                 else SInterior ni N'
                        (SLeaf b
                           (with_u_node (fun n => set_parent n (Some ni))
                              (with_u_node
                                 (fun n => set_level n (wrap32 (d' + 1)))
                                 u)))
                        (SEmpty (S (length h1))
                           (newEmpty ni d' (prefixBits ++ [true]))))
          ∧ repr h5 T
          ∧ (∀ x, (x < length h1)%nat → x ≠ b → h5 !! x = h1 !! x)
          ∧ length h5 = S (S (S (length h1)))).
        { destruct direction.
          - destruct (updInterior_spec h2 ni _ (with_rightChild (Some b)) HN2)
              as (h3 & Hrun3 & HN3 & Hfr3 & Hlen3).
            assert (Hb3 : h3 !! b = Some (ObjUserLeaf u)).
            { rewrite Hfr3 by (unfold ni; lia). done. }
            destruct (updUserLeaf_spec h3 b u
                        (with_u_node
                           (fun n => set_level n (wrap32 (d' + 1)))) Hb3)
              as (h4 & Hrun4 & Hb4 & Hfr4 & Hlen4).
            destruct (updUserLeaf_spec h4 b _
                        (with_u_node (fun n => set_parent n (Some ni))) Hb4)
              as (h5 & Hrun5 & Hb5 & Hfr5 & Hlen5).
            eexists h5, _, _. split.
            { intros k. rewrite (bind_eq _ _ _ _ _ Hrun3).
              rewrite (bind_eq _ _ _ _ _ Hrun4).
              by rewrite (bind_eq _ _ _ _ _ Hrun5). }
            split; [rewrite Hfr5, Hfr4 by (unfold ni; lia); exact HN3|].
            split; [reflexivity|]. split; [reflexivity|].
            split.
            + simpl.
              split; [rewrite Hfr5, Hfr4 by (unfold ni; lia); exact HN3|].
              do 4 (split; [reflexivity|]).
              split; [|exact Hb5].
              rewrite Hfr5, Hfr4, Hfr3 by (unfold ni; lia). exact Hel2.
            + split; [|lia].
              intros x Hx Hxb.
              rewrite Hfr5, Hfr4, Hfr3 by (done || unfold ni; lia).
              by apply Hfr2.
          - destruct (updInterior_spec h2 ni _ (with_leftChild (Some b)) HN2)
              as (h3 & Hrun3 & HN3 & Hfr3 & Hlen3).
            assert (Hb3 : h3 !! b = Some (ObjUserLeaf u)).
            { rewrite Hfr3 by (unfold ni; lia). done. }
            destruct (updUserLeaf_spec h3 b u
                        (with_u_node
                           (fun n => set_level n (wrap32 (d' + 1)))) Hb3)
              as (h4 & Hrun4 & Hb4 & Hfr4 & Hlen4).
            destruct (updUserLeaf_spec h4 b _
                        (with_u_node (fun n => set_parent n (Some ni))) Hb4)
              as (h5 & Hrun5 & Hb5 & Hfr5 & Hlen5).
            eexists h5, _, _. split.
            { intros k. rewrite (bind_eq _ _ _ _ _ Hrun3).
              rewrite (bind_eq _ _ _ _ _ Hrun4).
              by rewrite (bind_eq _ _ _ _ _ Hrun5). }
            split; [rewrite Hfr5, Hfr4 by (unfold ni; lia); exact HN3|].
            split; [reflexivity|]. split; [reflexivity|].
            split.
            + simpl.
              split; [rewrite Hfr5, Hfr4 by (unfold ni; lia); exact HN3|].
              do 4 (split; [reflexivity|]).
              split; [exact Hb5|].
              rewrite Hfr5, Hfr4, Hfr3 by (unfold ni; lia). exact Her2.
            + split; [|lia].
              intros x Hx Hxb.
              rewrite Hfr5, Hfr4, Hfr3 by (done || unfold ni; lia).
              by apply Hfr2. }
        destruct Hsplit as (h5 & N' & T & Hrun5 & HN5 & HN' & HT & HrepT &
                            Hfr5 & Hlen5).
        assert (HpN : parent (i_node N') = Some a)
          by (subst N'; by destruct direction).
        assert (HTe : erase T =
                      if direction
                      then PInterior d' None None
                             (PEmpty (wrap32 (d' + 1))
                                (Some (ToBytes (prefixBits ++ [false]))))
                             (PLeaf (wrap32 (d' + 1)) (key u) (value u)
                                (index u) (commitment u))
                      else PInterior d' None None
                             (PLeaf (wrap32 (d' + 1)) (key u) (value u)
                                (index u) (commitment u))
                             (PEmpty (wrap32 (d' + 1))
                                (Some (ToBytes (prefixBits ++ [true])))))
          by (subst T N'; by destruct direction).
        assert (HTa : saddr T = ni) by (subst T; by destruct direction).
        assert (HTp : sparent T = Some a)
          by (subst T N'; by destruct direction).
        assert (HTi : is_interior T) by (subst T; by destruct direction).
        assert (HTs : ∀ x, x ∈ saddrs T → x = b ∨ (length h1 ≤ x)%nat).
        { subst T. destruct direction; simpl; intros x Hx;
            rewrite !elem_of_cons, elem_of_nil in Hx; unfold ni in *; lia. }
        assert (HTn : NoDup (saddrs T)).
        { subst T. destruct direction; simpl;
            rewrite !NoDup_cons, !not_elem_of_cons;
            repeat split;
            try apply not_elem_of_nil; try apply NoDup_nil;
            unfold ni; lia. }
        clear HT.
        rewrite Hrun5 in Hrun.
        rewrite (bind_eq _ _ _ _ _ (asInterior_eq _ _ _ HN5)) in Hrun.
        rewrite HpN in Hrun. simpl liftOpt in Hrun. rewrite bind_ret in Hrun.
        assert (Ha5 : h5 !! a = Some (ObjInterior (with_leftHash None n))).
        { rewrite Hfr5 by (done || lia). done. }
        rewrite (bind_eq _ _ _ _ _ (asInterior_eq _ _ _ Ha5)) in Hrun.
        simpl leftChild in Hrun. rewrite Hlc in Hrun.
        rewrite bool_decide_eq_true_2 in Hrun by done.
        destruct (updInterior_spec h5 a _ (with_leftChild (Some ni)) Ha5)
          as (h6 & Hrun6 & Ha6 & Hfr6 & Hlen6).
        rewrite (bind_eq _ _ _ _ _ Hrun6) in Hrun.
        rewrite <- HTe. rewrite <- HTa in Hrun.
        apply (IH fuel ltac:(lia) T) in Hrun.
        2:{ done. }
        2:{ eapply repr_frame; [exact HrepT|]. intros x Hx. apply Hfr6.
            apply HTs in Hx. lia. }
        2:{ done. }
        2:{ intros Hx. apply HTs in Hx. lia. }
        2:{ rewrite Hfr6, Hfr5 by (done || lia). done. }
        2:{ done. }
        unfold ins_spec in Hrun.
        destruct (pinsert fuel bits add d' (erase T)) as [p'| |];
          simpl res_map; [|done|done].
        destruct Hrun as (Hres & l' & Her & Hrep' & Hnd' & Hsa & Hsp & Hi' &
                          Hsub & Hlen' & Hfl').
        simpl fst in *. simpl snd in *.
        split; [done|].
        set (N := with_leftChild (Some ni) (with_leftHash None n)) in *.
        exists (SInterior a N l' r).
        assert (Hany : ∀ x, (x < length h)%nat → x ≠ a → x ≠ b →
                            x ≠ toAdd → h' !! x = h1 !! x).
        { intros x Hxlt Hxa Hxb Hxt.
          rewrite Hfl', Hfr6, Hfr5; [done|lia|done|done|lia| |done].
          intros Hx. apply HTs in Hx. lia. }
        destruct (Hrebuild h' N l') as (Hrep'' & Hnd'' & Hsub'').
        { rewrite Hfl'; [done|lia| |done]. intros Hx. apply HTs in Hx. lia. }
        { done. }
        { simpl. by rewrite Hsa, HTa. }
        { by rewrite Hsp. }
        { intros x Hx. pose proof (repr_allocated _ _ _ Hrr Hx).
          apply Hany; [done| | |]; by intros ->. }
        { done. }
        { done. }
        { intros x Hx. apply Hsub in Hx as [Hx|[Hx|Hx]].
          - apply HTs in Hx as [->|Hx]; [left; by apply elem_of_cons; left|].
            right; right. lia.
          - by right; left.
          - right; right. lia. }
        split; [simpl; by rewrite Her|].
        do 5 (split; [done|]). split; [exact Hsub''|].
        split; [lia|].
        intros x Hxlt Hx Hxt. cbn [saddrs] in Hx.
        rewrite not_elem_of_cons, not_elem_of_app in Hx.
        destruct Hx as (Hxa & Hxl & Hxr).
        rewrite Hany, Hfr1; [done|done|done|done| |done].
        intros ->. apply Hxl. apply elem_of_cons. by left.
    + (* an empty child: place the leaf *)
      simpl in Hrl1, Hpl, Hndl, Htl, Hal, Hdis. simpl saddr in *.
      destruct (updInterior_spec h1 a _ (with_leftChild (Some toAdd)) Ha1)
        as (h2 & Hrun2 & Ha2 & Hfr2 & Hlen2).
      rewrite (bind_eq _ _ _ _ _ Hrun2) in Hrun.
      assert (Hadd2 : h2 !! toAdd = Some (ObjUserLeaf add))
        by (by rewrite Hfr2).
      destruct (updUserLeaf_spec h2 toAdd add
                  (with_u_node (fun n => set_level n (wrap32 (depth + 1))))
                  Hadd2)
        as (h3 & Hrun3 & Hadd3 & Hfr3 & Hlen3).
      rewrite (bind_eq _ _ _ _ _ Hrun3) in Hrun.
      destruct (updUserLeaf_spec h3 toAdd _
                  (with_u_node (fun n => set_parent n (Some a))) Hadd3)
        as (h4 & Hrun4 & Hadd4 & Hfr4 & Hlen4).
      rewrite Hrun4 in Hrun. injection Hrun as <- <-.
      simpl fst. simpl snd. split; [done|].
      set (add' := with_u_node (fun n => set_parent n (Some a))
                     (with_u_node
                        (fun n => set_level n (wrap32 (depth + 1))) add))
        in *.
      set (N := with_leftChild (Some toAdd) (with_leftHash None n)) in *.
      exists (SInterior a N (SLeaf toAdd add') r).
      assert (Hany : ∀ x, x ≠ toAdd → x ≠ a → h4 !! x = h1 !! x).
      { intros x Hxt Hxb. rewrite Hfr4, Hfr3, Hfr2; done. }
      destruct (Hrebuild h4 N (SLeaf toAdd add'))
        as (Hrep'' & Hnd'' & Hsub'').
      { rewrite Hfr4, Hfr3; done. }
      { done. }
      { done. }
      { done. }
      { intros x Hx. apply Hany; by intros ->. }
      { done. }
      { apply NoDup_singleton. }
      { intros x Hx. apply list_elem_of_singleton in Hx. by right; left. }
      split; [reflexivity|].
      do 5 (split; [done|]). split; [exact Hsub''|].
      split; [lia|].
      intros x Hxlt Hx Hxt. cbn [saddrs] in Hx.
      rewrite not_elem_of_cons, not_elem_of_app in Hx.
      destruct Hx as (Hxa & Hxl & Hxr).
      rewrite Hany, Hfr1; done.
Qed.

End Insert.

(** ** Two calls of [Set] for one index *)

Lemma res_map_val {A B} (f : A → B) (r : res A) (b : B) :
  res_map f r = Val b → ∃ a, r = Val a ∧ b = f a.
Proof. destruct r; simpl; [|done|done]. intros [= <-]. by eexists. Qed.

Lemma pinsert_not_empty bits add :
  ∀ f d p p', pinsert f bits add d p = Val p' → is_PEmpty p' = false.
Proof.
  induction f as [|f IH]; intros d p p' Hrun; [done|].
  simpl in Hrun. destruct p as [lvl lh rh l r|lvl k v i c|lvl i]; [| |done].
  - destruct (d <? 0); [done|].
    destruct (bits !! Z.to_nat d) as [[|]|]; [| |done].
    + destruct (is_PEmpty r); [by injection Hrun as <-|].
      apply res_map_val in Hrun as (a & _ & ->). done.
    + destruct (is_PEmpty l); [by injection Hrun as <-|].
      apply res_map_val in Hrun as (a & _ & ->). done.
  - destruct (bytes_Equal i (index add)); [by injection Hrun as <-|].
    destruct (_ || _); [done|].
    destruct (GetNthBit (bytesOf i) d); [|done].
    by apply IH in Hrun.
Qed.

(** A second insertion for the index of the first finds the leaf of the
    first and replaces it: the tree is the one the second insertion alone
    leaves. *)
Lemma pinsert_again bits add1 add2 :
  index add1 = index add2 → Z.of_nat (length bits) < 2 ^ 32 →
  ∀ f d p p1,
    0 ≤ d → pinsert f bits add1 d p = Val p1 →
    ∃ p2, pinsert f bits add2 d p = Val p2
          ∧ ∀ f', (Z.to_nat (Z.of_nat (length bits) - d) + 1 ≤ f')%nat →
                  pinsert f' bits add2 d p1 = Val p2.
Proof.
  intros Hidx Hlen.
  induction f as [|f IH]; intros d p p1 Hd Hrun; [done|].
  simpl in Hrun. simpl pinsert.
  destruct p as [lvl lh rh l r|lvl k v i c|lvl i]; [| |done].
  - destruct (Z.ltb_spec d 0) as [?|_]; [done|].
    destruct (bits !! Z.to_nat d) as [direction|] eqn:Hbit; [|done].
    pose proof (lookup_lt_Some _ _ _ Hbit) as Hdlt.
    assert (Hw : wrap32 (d + 1) = d + 1).
    { unfold wrap32. apply Z.mod_small. lia. }
    destruct direction.
    + destruct (is_PEmpty r) eqn:Hemp.
      * injection Hrun as <-. eexists. split; [reflexivity|].
        intros f' Hf'. destruct f' as [|[|f']]; [lia|lia|].
        simpl. destruct (Z.ltb_spec d 0) as [?|_]; [lia|].
        rewrite Hbit. simpl. rewrite Hidx, bytes_Equal_refl. done.
      * apply res_map_val in Hrun as (r1 & Hrun & ->).
        pose proof (pinsert_not_empty _ _ _ _ _ _ Hrun) as Hne.
        apply IH in Hrun as (r2 & Hrun2 & Hagain); [|lia].
        rewrite Hrun2. eexists. split; [reflexivity|].
        intros f' Hf'. destruct f' as [|f']; [lia|].
        simpl. destruct (Z.ltb_spec d 0) as [?|_]; [lia|].
        rewrite Hbit, Hne, Hagain; [done|]. rewrite Hw. lia.
    + destruct (is_PEmpty l) eqn:Hemp.
      * injection Hrun as <-. eexists. split; [reflexivity|].
        intros f' Hf'. destruct f' as [|[|f']]; [lia|lia|].
        simpl. destruct (Z.ltb_spec d 0) as [?|_]; [lia|].
        rewrite Hbit. simpl. rewrite Hidx, bytes_Equal_refl. done.
      * apply res_map_val in Hrun as (l1 & Hrun & ->).
        pose proof (pinsert_not_empty _ _ _ _ _ _ Hrun) as Hne.
        apply IH in Hrun as (l2 & Hrun2 & Hagain); [|lia].
        rewrite Hrun2. eexists. split; [reflexivity|].
        intros f' Hf'. destruct f' as [|f']; [lia|].
        simpl. destruct (Z.ltb_spec d 0) as [?|_]; [lia|].
        rewrite Hbit, Hne, Hagain; [done|]. rewrite Hw. lia.
  - rewrite <- Hidx.
    destruct (bytes_Equal i (index add1)) eqn:Heq.
    + injection Hrun as <-. eexists. split; [reflexivity|].
      intros f' Hf'. destruct f' as [|f']; [lia|].
      simpl. rewrite <- Hidx, bytes_Equal_refl. done.
    + destruct (_ || _); [done|].
      destruct (GetNthBit (bytesOf i) d); [|done].
      by apply IH in Hrun.
Qed.

Section SetTwice.
Context {platform : Platform} {crypto : Crypto}.

Lemma shash_erase (nonce : slice) (t : shape) :
  shash nonce t = phash nonce (erase t).
Proof.
  induction t as [a n l IHl r IHr|a n|a n]; simpl; [|done|done].
  by rewrite IHl, IHr.
Qed.

(** [Set] on a tree in the store ends as the insertion on the content of
    the tree ends; when that returns, the store holds a tree with the new
    content, and the [MerkleTree] struct is as it was. *)
Lemma Set_refines (salt : list byte) (m : loc) (index : slice)
    (key : string) (value : slice) (h h' : heap) (t : shape) res :
  tree_at h m t →
  MerkleTree_Set salt (Some m) index key value h = (h', res) →
  match pinsert (insertFuel (ToBits (bytesOf index)))
          (ToBits (bytesOf index)) (Set_toAdd salt index key value) 0
          (erase t) with
  | Val p' =>
      res = Val tt
      ∧ ∃ t', erase t' = p' ∧ tree_at h' m t' ∧ h' !! m = h !! m
  | Panic => res = Panic
  | OutOfFuel => res = OutOfFuel
  end.
Proof.
  intros (tr & Htr & Hroot & Hint & Hrep & Hnd & Hm) Hrun.
  unfold MerkleTree_Set in Hrun.
  rewrite (bind_eq _ _ _ _ _ (new_eq _ _)) in Hrun.
  fold (Set_toAdd salt index key value) in Hrun.
  set (add := Set_toAdd salt index key value) in *.
  set (h0 := h ++ [ObjUserLeaf add]) in *.
  pose proof (lookup_lt_Some _ _ _ Htr) as Hmlt.
  assert (Hfr0 : ∀ x, (x < length h)%nat → h0 !! x = h !! x).
  { intros x Hx. by apply lookup_app_l. }
  assert (Hlen0 : length h0 = S (length h)).
  { unfold h0. rewrite length_app. simpl. lia. }
  assert (Htr0 : h0 !! m = Some (ObjTree tr)) by (by rewrite Hfr0).
  unfold MerkleTree_insertNode in Hrun.
  rewrite (bind_eq _ _ _ _ _ (asTree_eq _ _ _ Htr0)) in Hrun.
  rewrite Hroot in Hrun.
  apply (insertLoop_refines _ _ add) in Hrun.
  2:{ done. }
  2:{ eapply repr_frame; [exact Hrep|]. intros x Hx. apply Hfr0.
      by apply (repr_allocated _ _ _ Hrep). }
  2:{ done. }
  2:{ intros Hx. apply (repr_allocated _ _ _ Hrep) in Hx. lia. }
  2:{ apply lookup_alloc. }
  2:{ done. }
  unfold ins_spec in Hrun.
  destruct (pinsert _ _ _ _ _) as [p'| |]; [|done|done].
  simpl fst in Hrun. simpl snd in Hrun.
  destruct Hrun as (Hres & t' & Her & Hrep' & Hnd' & Hsa & Hsp & Hi' &
                    Hsub & Hlen' & Hfr').
  split; [done|]. exists t'. split; [done|].
  assert (Hm' : h' !! m = h !! m).
  { rewrite Hfr'; [by apply Hfr0|lia|done|lia]. }
  split; [|done].
  exists tr. split; [by rewrite Hm'|]. split; [by rewrite Hsa|].
  do 3 (split; [done|]).
  intros Hx. apply Hsub in Hx as [Hx|[Hx|Hx]]; [done|lia|lia].
Qed.

(** C4 (amended).  Two calls of [Set] for one index, key and value, on a
    tree in the store and for an index of fewer than 2^32 bits: when the
    first call returns, so does the second, and so does the second call
    made alone in place of the two; the root hash [recomputeHash] then
    stores is the same after the two calls as after the second alone.
    With one salt for both draws this is: the same hash after two calls
    as after one. *)
Theorem Set_twice_hash (salt1 salt2 : list byte) (m : loc) (index : slice)
    (key : string) (value : slice) (h hA1 : heap) (t : shape) :
  tree_at h m t →
  Z.of_nat (length (ToBits (bytesOf index))) < 2 ^ 32 →
  MerkleTree_Set salt1 (Some m) index key value h = (hA1, Val tt) →
  ∃ hA2 hB1 : heap,
    MerkleTree_Set salt2 (Some m) index key value hA1 = (hA2, Val tt)
    ∧ MerkleTree_Set salt2 (Some m) index key value h = (hB1, Val tt)
    ∧ ∃ k, ∀ fuel, (k ≤ fuel)%nat →
        ∃ (hA3 hB2 : heap) x,
          MerkleTree_recomputeHash fuel (Some m) hA2 = (hA3, Val tt)
          ∧ MerkleTree_recomputeHash fuel (Some m) hB1 = (hB2, Val tt)
          ∧ hashOf hA3 m = Some (Some x)
          ∧ hashOf hB2 m = Some (Some x).
Proof.
  intros Ht Hlen HA1.
  set (bits := ToBits (bytesOf index)) in *.
  pose proof (Set_refines _ _ _ _ _ _ _ _ _ Ht HA1) as H1.
  fold bits in H1.
  destruct (pinsert (insertFuel bits) bits
              (Set_toAdd salt1 index key value) 0 (erase t))
    as [p1| |] eqn:Hp1; [|done|done].
  destruct H1 as (_ & t1 & Her1 & Ht1 & Hm1).
  destruct (pinsert_again bits (Set_toAdd salt1 index key value)
              (Set_toAdd salt2 index key value) eq_refl Hlen
              _ _ _ _ (Z.le_refl 0) Hp1) as (p2 & Hp2 & Hagain).
  destruct (MerkleTree_Set salt2 (Some m) index key value hA1)
    as [hA2 resA] eqn:HA2.
  destruct (MerkleTree_Set salt2 (Some m) index key value h)
    as [hB1 resB] eqn:HB1.
  pose proof (Set_refines _ _ _ _ _ _ _ _ _ Ht1 HA2) as H2.
  fold bits in H2. rewrite Her1, Hagain in H2.
  2:{ rewrite Z.sub_0_r, Nat2Z.id. unfold insertFuel. lia. }
  destruct H2 as (-> & t2 & Her2 & Ht2 & Hm2).
  pose proof (Set_refines _ _ _ _ _ _ _ _ _ Ht HB1) as H3.
  fold bits in H3. rewrite Hp2 in H3.
  destruct H3 as (-> & t3 & Her3 & Ht3 & Hm3).
  exists hA2, hB1. split; [done|]. split; [done|].
  exists (Nat.max (height t2) (height t3)). intros fuel Hfuel.
  destruct Ht as (tr & Htr & Ht).
  assert (HtrA : hA2 !! m = Some (ObjTree tr)) by (by rewrite Hm2, Hm1).
  assert (HtrB : hB1 !! m = Some (ObjTree tr)) by (by rewrite Hm3).
  destruct (recomputeHash_refines fuel hA2 m t2 tr Ht2 HtrA ltac:(lia))
    as (hA3 & HrunA & HmA & _).
  destruct (recomputeHash_refines fuel hB1 m t3 tr Ht3 HtrB ltac:(lia))
    as (hB2 & HrunB & HmB & _).
  exists hA3, hB2, (phash (nonce tr) p2).
  split; [done|]. split; [done|].
  unfold hashOf. rewrite HmA, HmB. simpl.
  by rewrite !shash_erase, Her2, Her3.
Qed.

End SetTwice.

(** ** Trees as the operations leave them *)

Section Coherence.
Context {platform : Platform} {crypto : Crypto}.

Lemma shash_sfill (nonce : slice) (t : shape) :
  shash nonce (sfill nonce t) = shash nonce t.
Proof. by destruct t. Qed.

(** [hash] leaves a tree whose cached hashes are all present and
    current, when those it found were current. *)
Lemma clean_sfill (nonce : slice) (t : shape) :
  coherent nonce t → clean nonce (sfill nonce t).
Proof.
  induction t as [a n l IHl r IHr|a n|a n]; [|done|done].
  intros (Hl & Hr & Hcl & Hcr). simpl.
  destruct (leftHash n) as [cl|] eqn:Hlh;
    destruct (rightHash n) as [cr|] eqn:Hrh; simpl.
  - destruct (Hl _ eq_refl) as [-> ?]. destruct (Hr _ eq_refl) as [-> ?].
    done.
  - destruct (Hl _ eq_refl) as [-> ?]. rewrite shash_sfill. auto.
  - destruct (Hr _ eq_refl) as [-> ?]. rewrite shash_sfill. auto.
  - rewrite !shash_sfill. auto.
Qed.

Lemma clean_erase (nonce : slice) (t : shape) :
  clean nonce t ↔ pclean nonce (erase t).
Proof.
  induction t as [a n l IHl r IHr|a n|a n]; simpl; [|done|done].
  by rewrite !shash_erase, IHl, IHr.
Qed.

Lemma coherent_erase (nonce : slice) (t : shape) :
  coherent nonce t ↔ pcoherent nonce (erase t).
Proof.
  induction t as [a n l IHl r IHr|a n|a n]; simpl; [|done|done].
  rewrite IHl, IHr.
  split; intros (Hl & Hr & ? & ?); (split; [|split; [|done]]);
    intros c Hc.
  - destruct (Hl c Hc) as [-> ?]. by rewrite <- shash_erase, <- clean_erase.
  - destruct (Hr c Hc) as [-> ?]. by rewrite <- shash_erase, <- clean_erase.
  - destruct (Hl c Hc) as [-> ?]. by rewrite shash_erase, clean_erase.
  - destruct (Hr c Hc) as [-> ?]. by rewrite shash_erase, clean_erase.
Qed.

(** The insertion takes away the cached hashes on its way and leaves the
    others with the subtrees they stand for. *)
Lemma pinsert_coherent (nonce : slice) bits add :
  ∀ f d p p',
    pcoherent nonce p → pinsert f bits add d p = Val p' →
    pcoherent nonce p'.
Proof.
  induction f as [|f IH]; intros d p p' Hc Hrun; [done|].
  simpl in Hrun. destruct p as [lvl lh rh l r|lvl k v i c|lvl i]; [| |done].
  - destruct Hc as (Hl & Hr & Hcl & Hcr).
    destruct (d <? 0); [done|].
    destruct (bits !! Z.to_nat d) as [[|]|]; [| |done].
    + destruct (is_PEmpty r).
      * injection Hrun as <-. simpl. done.
      * apply res_map_val in Hrun as (r' & Hrun & ->).
        simpl. split; [done|]. split; [done|]. split; [done|].
        by apply (IH _ _ _ Hcr Hrun).
    + destruct (is_PEmpty l).
      * injection Hrun as <-. simpl. done.
      * apply res_map_val in Hrun as (l' & Hrun & ->).
        simpl. split; [done|]. split; [done|]. split; [|done].
        by apply (IH _ _ _ Hcl Hrun).
  - destruct (bytes_Equal i (index add)); [by injection Hrun as <-|].
    destruct (_ || _); [done|].
    destruct (GetNthBit (bytesOf i) d) as [[|]|]; [| |done];
      apply IH in Hrun; done.
Qed.

(** [NewMerkleTree] leaves a tree in the store, with no cached hash. *)
Lemma NewMerkleTree_tree_at (rand : list byte) (h : heap) :
  ∃ (h' : heap) (m : loc) t,
    NewMerkleTree rand h = (h', Val (Some m))
    ∧ tree_at h' m t
    ∧ h' !! m = Some (ObjTree {| nonce := Some rand;
                                 root := Some (saddr t); hash := None |})
    ∧ coherent (Some rand) t
    ∧ (∀ x, (x < length h)%nat → h' !! x = h !! x).
Proof.
  destruct (newInteriorNode_spec None 0 [] h)
    as (h1 & Hrun1 & Hel & Her & HN & Hfr1 & Hlen1).
  unfold NewMerkleTree. rewrite (bind_eq _ _ _ _ _ Hrun1).
  rewrite (bind_eq _ _ _ _ _ (new_eq _ _)). unfold ret.
  set (tr := {| nonce := Some rand; root := Some (S (S (length h)));
                hash := None |}).
  set (t := SInterior (S (S (length h))) (newInterior None 0 (length h))
              (SEmpty (length h) (newEmpty (S (S (length h))) 0 [false]))
              (SEmpty (S (length h))
                 (newEmpty (S (S (length h))) 0 [true]))).
  exists (h1 ++ [ObjTree tr]), (length h1), t.
  split; [done|].
  assert (Hlow : ∀ x, (x < length h1)%nat →
                      (h1 ++ [ObjTree tr]) !! x = h1 !! x).
  { intros x Hx. by apply lookup_app_l. }
  split; [|split; [apply lookup_alloc|split]].
  - exists tr. split; [apply lookup_alloc|]. split; [done|].
    split; [done|]. split.
    + simpl. rewrite !Hlow by lia. done.
    + split.
      * simpl. rewrite !NoDup_cons, !not_elem_of_cons.
        repeat split; try apply not_elem_of_nil; try apply NoDup_nil; lia.
      * simpl. rewrite !not_elem_of_cons.
        repeat split; try apply not_elem_of_nil; lia.
  - simpl. done.
  - intros x Hx. rewrite Hlow by lia. by apply Hfr1.
Qed.

(** [Set] keeps the cached hashes that are left current. *)
Lemma Set_coherent (salt : list byte) (m : loc) (index : slice)
    (key : string) (value : slice) (h h' : heap) (t : shape) tr :
  tree_at h m t → h !! m = Some (ObjTree tr) → coherent (nonce tr) t →
  MerkleTree_Set salt (Some m) index key value h = (h', Val tt) →
  ∃ t', tree_at h' m t' ∧ h' !! m = Some (ObjTree tr)
        ∧ coherent (nonce tr) t'.
Proof.
  intros Ht Htr Hc Hrun.
  pose proof (Set_refines _ _ _ _ _ _ _ _ _ Ht Hrun) as H.
  destruct (pinsert _ _ _ _ _) as [p'| |] eqn:Hp; [|done|done].
  destruct H as (_ & t' & Her & Ht' & Hm).
  exists t'. split; [done|]. split; [by rewrite Hm|].
  apply coherent_erase. rewrite Her.
  eapply pinsert_coherent; [|exact Hp]. by apply coherent_erase.
Qed.

Lemma runSets_coherent (m : loc) tr calls :
  ∀ (h h' : heap) (t : shape),
    tree_at h m t → h !! m = Some (ObjTree tr) → coherent (nonce tr) t →
    runSets (Some m) calls h = (h', Val tt) →
    ∃ t', tree_at h' m t' ∧ h' !! m = Some (ObjTree tr)
          ∧ coherent (nonce tr) t'.
Proof.
  induction calls as [|c calls IH]; intros h h' t Ht Htr Hc Hrun.
  - injection Hrun as <-. by exists t.
  - simpl in Hrun. apply bind_val_inv in Hrun as (h1 & [] & Hset & Hrun).
    destruct (Set_coherent _ _ _ _ _ _ _ _ _ Ht Htr Hc Hset)
      as (t1 & Ht1 & Htr1 & Hc1).
    by apply (IH _ _ _ Ht1 Htr1 Hc1).
Qed.

(** [recomputeHash] leaves every cached hash present and current. *)
Lemma recomputeHash_clean fuel (h : heap) (m : loc) (t : shape) tr :
  tree_at h m t → h !! m = Some (ObjTree tr) → coherent (nonce tr) t →
  (height t ≤ S fuel)%nat →
  ∃ (h' : heap) t',
    MerkleTree_recomputeHash fuel (Some m) h = (h', Val tt)
    ∧ h' !! m = Some (ObjTree (with_hash (Some (shash (nonce tr) t)) tr))
    ∧ tree_at h' m t' ∧ clean (nonce tr) t' ∧ height t' = height t.
Proof.
  intros Ht Htr Hc Hfuel.
  destruct (recomputeHash_refines fuel h m t tr Ht Htr Hfuel)
    as (h' & Hrun & Hm & Ht' & _).
  exists h', (sfill (nonce tr) t). split; [done|]. split; [done|].
  split; [done|]. split; [by apply clean_sfill|].
  clear. induction t as [a n l IHl r IHr|a n|a n]; simpl; [|done|done].
  destruct (isNil (leftHash n)), (isNil (rightHash n)); simpl;
    rewrite ?IHl, ?IHr; done.
Qed.

End Coherence.

(** ** The model on concrete stores *)

Lemma no_dangling_b_sound (h : heap) : no_dangling_b h = true → no_dangling h.
Proof.
  unfold no_dangling_b, no_dangling, closed, obj_in. intros Hb a o _ Ho.
  rewrite forallb_forall in Hb.
  apply list_elem_of_lookup_2, list_elem_of_In in Ho.
  specialize (Hb _ Ho). rewrite forallb_forall in Hb.
  apply Forall_forall. intros p Hp. apply list_elem_of_In in Hp.
  specialize (Hb _ Hp). destruct p as [b|]; simpl; [|done].
  by apply bool_decide_eq_true_1 in Hb.
Qed.

Ltac tree_at_run :=
  eexists; split; [reflexivity|]; split; [reflexivity|];
  split; [exact I|]; split; [vm_compute; repeat split|];
  split; [apply (bool_decide_unpack _); vm_compute; exact I
         |apply (bool_decide_unpack _); vm_compute; exact I].

Lemma demo_new_tree_at : tree_at demo_new demo_m (shapeOr 2 demo_new 2).
Proof. tree_at_run. Qed.

Lemma demo_one_tree_at : tree_at demo_one demo_m (shapeOr 2 demo_one 2).
Proof. tree_at_run. Qed.

Lemma demo_hashed_tree_at :
  tree_at demo_hashed demo_m (shapeOr 2 demo_hashed 2).
Proof. tree_at_run. Qed.

(** C4, as the spec states it, fails: on the new tree, two calls of [Set]
    for one index, key and value that draw two salts leave a
    root hash other than the one the first call alone leaves. *)
Lemma Set_twice_fresh_salt :
  ∃ (hA1 hA2 hA3 hB2 : heap) (once twice : list byte),
    tree_at demo_new demo_m (shapeOr 2 demo_new 2)
    ∧ MerkleTree_Set (crypto := demoCrypto) demo_salt1 (Some demo_m)
        demo_index "alice" demo_value demo_new = (hA1, Val tt)
    ∧ MerkleTree_Set (crypto := demoCrypto) demo_salt2 (Some demo_m)
        demo_index "alice" demo_value hA1 = (hA2, Val tt)
    ∧ MerkleTree_recomputeHash (platform := demoPlatform)
        (crypto := demoCrypto) 2 (Some demo_m) hA1 = (hB2, Val tt)
    ∧ MerkleTree_recomputeHash (platform := demoPlatform)
        (crypto := demoCrypto) 2 (Some demo_m) hA2 = (hA3, Val tt)
    ∧ hashOf hB2 demo_m = Some (Some once)
    ∧ hashOf hA3 demo_m = Some (Some twice)
    ∧ once ≠ twice.
Proof.
  eexists _, _, _, _, _, _. split; [tree_at_run|].
  do 6 (split; [vm_compute; reflexivity|]).
  intros Heq. vm_compute in Heq. discriminate Heq.
Qed.

(** [Set_twice_hash] applies to the new tree and two draws of the salt. *)
Lemma Set_twice_hash_witness :
  tree_at demo_new demo_m (shapeOr 2 demo_new 2)
  ∧ Z.of_nat (length (ToBits (bytesOf demo_index))) < 2 ^ 32
  ∧ MerkleTree_Set (crypto := demoCrypto) demo_salt1 (Some demo_m)
      demo_index "alice" demo_value demo_new = (demo_one, Val tt)
  ∧ ∃ hA2 hB1 : heap,
      MerkleTree_Set (crypto := demoCrypto) demo_salt2 (Some demo_m)
        demo_index "alice" demo_value demo_one = (hA2, Val tt)
      ∧ MerkleTree_Set (crypto := demoCrypto) demo_salt2 (Some demo_m)
          demo_index "alice" demo_value demo_new = (hB1, Val tt)
      ∧ ∃ k, ∀ fuel, (k ≤ fuel)%nat →
          ∃ (hA3 hB2 : heap) x,
            MerkleTree_recomputeHash (platform := demoPlatform)
              (crypto := demoCrypto) fuel (Some demo_m) hA2 = (hA3, Val tt)
            ∧ MerkleTree_recomputeHash (platform := demoPlatform)
                (crypto := demoCrypto) fuel (Some demo_m) hB1 = (hB2, Val tt)
            ∧ hashOf hA3 demo_m = Some (Some x)
            ∧ hashOf hB2 demo_m = Some (Some x).
Proof.
  assert (H1 : tree_at demo_new demo_m (shapeOr 2 demo_new 2))
    by tree_at_run.
  assert (H2 : Z.of_nat (length (ToBits (bytesOf demo_index))) < 2 ^ 32)
    by (vm_compute; reflexivity).
  assert (H3 : MerkleTree_Set (crypto := demoCrypto) demo_salt1 (Some demo_m)
                 demo_index "alice" demo_value demo_new = (demo_one, Val tt))
    by (vm_compute; reflexivity).
  split; [exact H1|]. split; [exact H2|]. split; [exact H3|].
  exact (Set_twice_hash (platform := demoPlatform) (crypto := demoCrypto)
           demo_salt1 demo_salt2 demo_m demo_index "alice" demo_value
           demo_new demo_one (shapeOr 2 demo_new 2) H1 H2 H3).
Defined.

(** C5, as the spec states it, fails: after a [Set] and before the root
    hash is recomputed the cached hashes of the root are nil, and [Get]
    returns 32 zero bytes where the sibling, the empty node to the right,
    hashes to something else. *)
Lemma Get_PrunedTree_stale :
  ∃ (ap : AuthenticationPath) (x : list byte),
    tree_at demo_one demo_m (shapeOr 2 demo_one 2)
    ∧ MerkleTree_Get (Some demo_m) demo_index demo_one = (demo_one, Val ap)
    ∧ PrunedTree ap = [replicate 32 "000"%byte]
    ∧ siblingHashes (platform := demoPlatform) (crypto := demoCrypto)
        (S (length (ToBits (bytesOf demo_index)))) 2
        (ToBits (bytesOf demo_index)) 0 (Some 2%nat) (Some demo_m) demo_one
      = [Some x]
    ∧ x ≠ replicate 32 "000"%byte.
Proof.
  eexists _, _. split; [tree_at_run|].
  do 3 (split; [vm_compute; reflexivity|]).
  intros Heq. vm_compute in Heq. discriminate Heq.
Qed.

(** [Get_PrunedTree_current] applies to the tree with one name, once its
    root hash is recomputed. *)
Lemma Get_PrunedTree_current_witness :
  ∃ tr ap,
    (∀ bs, length (blake3_Sum (Crypto := demoCrypto) bs) = 32%nat)
    ∧ tree_at demo_hashed demo_m (shapeOr 2 demo_hashed 2)
    ∧ demo_hashed !! demo_m = Some (ObjTree tr)
    ∧ clean (platform := demoPlatform) (crypto := demoCrypto) (nonce tr)
        (shapeOr 2 demo_hashed 2)
    ∧ (height (shapeOr 2 demo_hashed 2) ≤ 2)%nat
    ∧ MerkleTree_Get (Some demo_m) demo_index demo_hashed
      = (demo_hashed, Val ap)
    ∧ demo_hashed = demo_hashed
    ∧ map Some (PrunedTree ap) =
        siblingHashes (platform := demoPlatform) (crypto := demoCrypto)
          (S (length (ToBits (bytesOf demo_index)))) 1
          (ToBits (bytesOf demo_index)) 0 (root tr) (Some demo_m)
          demo_hashed.
Proof.
  eexists _, _.
  assert (H1 : ∀ bs, length (blake3_Sum (Crypto := demoCrypto) bs) = 32%nat)
    by (intros bs; apply length_le_bytes).
  assert (H2 : tree_at demo_hashed demo_m (shapeOr 2 demo_hashed 2))
    by tree_at_run.
  split; [exact H1|]. split; [exact H2|].
  split; [vm_compute; reflexivity|].
  split; [vm_compute; repeat split|].
  split; [vm_compute; lia|].
  split; [vm_compute; reflexivity|].
  eapply (Get_PrunedTree_current (platform := demoPlatform)
            (crypto := demoCrypto) demo_hashed demo_hashed demo_m
            (shapeOr 2 demo_hashed 2) _ demo_index _ 1 H1 H2).
  - vm_compute; reflexivity.
  - vm_compute; repeat split.
  - vm_compute; lia.
  - vm_compute; reflexivity.
Defined.

(** C7, as the spec states it, fails: a request without a key is answered
    [ErrMalformedMessage] before any lookup, also for [alice], who has a
    temporary binding, and for [bob], who is in the tree. *)
Lemma Register_bound_name_without_key :
  tbs demo_dir !! "alice"%string = Some demo_tb
  ∧ Tree_Register demo_dir
      {| RegistrationRequest.Username := "alice";
         RegistrationRequest.Key := None |}
    = (demo_dir, NewErrorResponse ErrMalformedMessage)
  ∧ PAD_Lookup (pad demo_dir) "bob"%string
    = inl (demo_path demo_bob demo_bob false)
  ∧ bytes_Equal (LookupIndex (demo_path demo_bob demo_bob false))
      (Index (Leaf (demo_path demo_bob demo_bob false))) = true
  ∧ Tree_Register demo_dir
      {| RegistrationRequest.Username := "bob";
         RegistrationRequest.Key := Some [] |}
    = (demo_dir, NewErrorResponse ErrMalformedMessage).
Proof.
  split; [apply lookup_singleton_eq|]. repeat split.
Qed.

(** [Register_name_existed] applies to [alice], who has a temporary binding,
    asking again with a key. *)
Lemma Register_name_existed_witness :
  let req := {| RegistrationRequest.Username := "alice";
                RegistrationRequest.Key := demo_value |} in
  let ap := demo_path demo_other None true in
  RegistrationRequest.Username req ≠ EmptyString
  ∧ bytesOf (RegistrationRequest.Key req) ≠ []
  ∧ PAD_Lookup (pad demo_dir) (RegistrationRequest.Username req) = inl ap
  ∧ bytes_Equal (LookupIndex ap) (Index (Leaf ap)) = false
  ∧ tbs demo_dir !! RegistrationRequest.Username req = Some demo_tb
  ∧ Tree_Register demo_dir req =
      (demo_dir,
       NewRegistrationProof ap (Tree_LatestSTR demo_dir) (Some demo_tb)
         ReqNameExisted).
Proof.
  intros req ap.
  assert (H1 : RegistrationRequest.Username req ≠ EmptyString) by done.
  assert (H2 : bytesOf (RegistrationRequest.Key req) ≠ []) by done.
  assert (H3 : PAD_Lookup (pad demo_dir) (RegistrationRequest.Username req)
               = inl ap) by reflexivity.
  assert (H4 : bytes_Equal (LookupIndex ap) (Index (Leaf ap)) = false)
    by reflexivity.
  assert (H5 : tbs demo_dir !! RegistrationRequest.Username req
               = Some demo_tb) by apply lookup_singleton_eq.
  do 5 (split; [assumption|]).
  exact (proj2 (Register_name_existed demo_dir req ap H1 H2 H3)
           demo_tb H4 H5).
Defined.

(** C8, as the spec states it, fails: the directory is at epoch 0, and a
    request for the epochs 0 to 5 is answered with one path and one STR,
    not with six. *)
Lemma Monitor_beyond_latest :
  let req := {| MonitoringRequest.Username := "alice";
                MonitoringRequest.StartEpoch := 0;
                MonitoringRequest.EndEpoch := 5 |} in
  ∃ aps strs,
    Epoch (STR (Tree_LatestSTR demo_dir)) = 0
    ∧ Tree_Monitor demo_dir req = Val (NewMonitoringProof aps strs)
    ∧ length aps = 1%nat ∧ length strs = 1%nat
    ∧ Z.of_nat (length aps)
      ≠ MonitoringRequest.EndEpoch req - MonitoringRequest.StartEpoch req + 1.
Proof.
  eexists _, _. split; [reflexivity|]. split; [vm_compute; reflexivity|].
  split; [reflexivity|]. split; [reflexivity|]. done.
Qed.

(** [Monitor_count] applies to the request for the epochs 0 to 5: one path
    and one STR. *)
Lemma Monitor_count_witness :
  let req := {| MonitoringRequest.Username := "alice";
                MonitoringRequest.StartEpoch := 0;
                MonitoringRequest.EndEpoch := 5 |} in
  let latest := Epoch (STR (Tree_LatestSTR demo_dir)) in
  MonitoringRequest.Username req ≠ EmptyString
  ∧ 0 ≤ 0 ∧ 0 ≤ latest ∧ 0 ≤ 5 ∧ latest < 2 ^ 64 - 1
  ∧ (∀ ep, 0 ≤ ep ≤ Z.min 5 latest →
       (∃ ap, PAD_LookupInEpoch (pad demo_dir) "alice" ep = inl ap)
       ∧ is_Some (PAD_GetSTR (pad demo_dir) ep))
  ∧ ∃ aps strs,
      Tree_Monitor demo_dir req = Val (NewMonitoringProof aps strs)
      ∧ Z.of_nat (length aps) = Z.min 5 latest - 0 + 1
      ∧ Z.of_nat (length strs) = Z.min 5 latest - 0 + 1.
Proof.
  intros req latest.
  assert (H1 : MonitoringRequest.Username req ≠ EmptyString) by done.
  assert (H2 : 0 ≤ 0) by lia.
  assert (H3 : 0 ≤ latest) by (vm_compute; discriminate).
  assert (H4 : 0 ≤ 5) by lia.
  assert (H5 : latest < 2 ^ 64 - 1) by (vm_compute; reflexivity).
  assert (H6 : ∀ ep, 0 ≤ ep ≤ Z.min 5 latest →
                 (∃ ap, PAD_LookupInEpoch (pad demo_dir) "alice" ep = inl ap)
                 ∧ is_Some (PAD_GetSTR (pad demo_dir) ep)).
  { intros ep Hep. assert (ep = 0) as -> by (change latest with 0 in Hep; lia).
    split; eexists; reflexivity. }
  do 6 (split; [assumption|]).
  exact (Monitor_count demo_dir req H1 H2 H3 H4 H5 H6).
Defined.

(** [Clone_isolation] applies to the tree with one name and its clone. *)
Lemma Clone_isolation_witness :
  no_dangling demo_one
  ∧ MerkleTree_Clone 3 (Some demo_m) demo_one = (demo_cloned, Val (Some 8%nat))
  ∧ ∀ calls (h2 : heap) r,
      (runSets (H := demoCrypto) (Some 8%nat) calls demo_cloned = (h2, r) →
         ∀ a, reach demo_cloned (Some demo_m) a →
              h2 !! a = demo_cloned !! a ∧ reach h2 (Some demo_m) a)
      ∧ (runSets (H := demoCrypto) (Some demo_m) calls demo_cloned = (h2, r) →
           ∀ a, reach demo_cloned (Some 8%nat) a →
                h2 !! a = demo_cloned !! a ∧ reach h2 (Some 8%nat) a).
Proof.
  assert (H1 : no_dangling demo_one)
    by (apply no_dangling_b_sound; vm_compute; reflexivity).
  assert (H2 : MerkleTree_Clone 3 (Some demo_m) demo_one
               = (demo_cloned, Val (Some 8%nat)))
    by (vm_compute; reflexivity).
  split; [exact H1|]. split; [exact H2|].
  exact (Clone_isolation (crypto := demoCrypto) 3 (Some demo_m)
           (Some 8%nat) demo_one demo_cloned H1 H2).
Defined.

(** [Clone_loses_dirty_marker] applies with the checksum in place of the
    hash: the two digests differ. *)
Lemma Clone_loses_dirty_marker_witness :
  let rand := demo_nonce in
  let lh := Digest (H := demoCrypto)
              [emptyBranchBs; rand; ToBytes [false];
               UInt32ToBytes (H := demoPlatform) 1] in
  let rh := Digest (H := demoCrypto)
              [emptyBranchBs; rand; ToBytes [true];
               UInt32ToBytes (H := demoPlatform) 1] in
  Digest (H := demoCrypto) [[]; []] ≠ Digest (H := demoCrypto) [lh; rh]
  ∧ ∃ original clone : slice,
      snd (cloneFreshTree (H := demoPlatform) (H0 := demoCrypto) rand [])
      = Val (original, clone)
      ∧ original = Some (Digest (H := demoCrypto) [lh; rh])
      ∧ clone = Some (Digest (H := demoCrypto) [[]; []])
      ∧ original ≠ clone.
Proof.
  intros rand lh rh.
  assert (H1 : Digest (H := demoCrypto) [[]; []]
               ≠ Digest (H := demoCrypto) [lh; rh]).
  { intros Heq. vm_compute in Heq. discriminate Heq. }
  split; [exact H1|].
  exact (proj2 (proj2 (Clone_loses_dirty_marker (platform := demoPlatform)
                         (crypto := demoCrypto) rand H1))).
Defined.

(** What the runs above show does not hang on the checksum: with any hash,
    the values are these digests. *)
Section AnyHash.
Context {platform : Platform} {crypto : Crypto}.

(** On the new tree, the root hash after a [Set] at the index of 32 zero
    bytes is the digest of the hash of the leaf, which covers the
    commitment made with the salt of the last call, and of the hash of the
    empty node to the right.  After two calls it is the one of the second
    salt, after one call the one of the first: they differ unless the hash
    collides. *)
Lemma Set_twice_root_hashes (salt1 salt2 : list byte) (key : string)
    (value : slice) :
  let leaf salt :=
    Digest [emptyLeafBs; demo_nonce; bytesOf demo_index; UInt32ToBytes 1;
            CommitHash [list_byte_of_string key; bytesOf value] salt] in
  let empty :=
    Digest [emptyBranchBs; demo_nonce; ToBytes [true]; UInt32ToBytes 1] in
  let after salts :=
    hashOf
      (fst ((runSets (Some demo_m)
               (map (fun s => mkSetCall s demo_index key value) salts) ;;
             MerkleTree_recomputeHash 2 (Some demo_m)) demo_new))
      demo_m in
  after [salt1] = Some (Some (Digest [leaf salt1; empty]))
  ∧ after [salt1; salt2] = Some (Some (Digest [leaf salt2; empty])).
Proof. split; reflexivity. Qed.

(** On the new tree, [Get] for that index returns 32 zero bytes for the
    sibling at the root, whose hash is the digest for an empty node. *)
Lemma Get_new_tree_zero :
  ∃ ap,
    MerkleTree_Get (Some demo_m) demo_index demo_new = (demo_new, Val ap)
    ∧ PrunedTree ap = [replicate 32 "000"%byte]
    ∧ siblingHashes (S (length (ToBits (bytesOf demo_index)))) 1
        (ToBits (bytesOf demo_index)) 0 (Some 2%nat) (Some demo_m) demo_new
      = [Some (Digest [emptyBranchBs; demo_nonce; ToBytes [true];
                       UInt32ToBytes 1])].
Proof. eexists. split; [vm_compute; reflexivity|]. split; reflexivity. Qed.

End AnyHash.
